(** * Ownership containers of ferric_continuum/foundation

    A shallow embedding of the resource-owning classes of the repository
    (ResourceManager and MoveOnlyResource of constructor_rules.cc,
    LargeBuffer of move_semantics.cc, Resource and FileGuard of
    smart_pointers.cc) over an explicit store: a heap of int arrays, a
    table of live objects per class, and the static counters. *)

From Stdlib Require Import ZArith Lia.
From Stdlib Require Zdivisibility SpecFloat Sorted.
From stdpp Require Import base option list gmap strings.

Local Open Scope Z_scope.
Local Open Scope nat_scope.

(** ** A state-and-failure monad

    Every member function becomes a computation over the store; [None]
    stands for undefined behaviour (use of a dead object, access outside
    a block, releasing a block twice). *)

Definition M (St A : Type) : Type := St -> option (A * St).

Definition ret {St A} (a : A) : M St A := fun s => Some (a, s).

Definition bind {St A B} (m : M St A) (k : A -> M St B) : M St B :=
  fun s => match m s with
           | Some (a, s') => k a s'
           | None => None
           end.

Definition abort {St A} : M St A := fun _ => None.

Definition gets {St A} (f : St -> A) : M St A := fun s => Some (f s, s).

Definition modify {St} (f : St -> St) : M St unit := fun s => Some (tt, f s).

Declare Scope cmd_scope.
Delimit Scope cmd_scope with cmd.
Notation "x <- c1 ;; c2" := (bind c1 (fun x => c2))
  (at level 100, c1 at next level, right associativity) : cmd_scope.
Notation "c1 ;; c2" := (bind c1 (fun _ => c2))
  (at level 100, right associativity) : cmd_scope.
Local Open Scope cmd_scope.

(** [for (size_t i = start; i < start + count; ++i) body(i)]. *)
Fixpoint for_range {St} (i count : nat) (body : nat -> M St unit) : M St unit :=
  match count with
  | O => ret tt
  | S c => body i ;; for_range (S i) c body
  end.

(** ** Machine integers of the counters *)

(** [int] is 32 bits wide.  The language leaves [++] at the maximum and
    [--] at the minimum undefined; they are taken here as the machine does
    them, modulo 2^32 in two's complement, and the theorems say where the
    result is the mathematical one. *)
Definition int_wrap (z : Z) : Z := ((z + 2 ^ 31) mod 2 ^ 32 - 2 ^ 31)%Z.
Definition int_incr (z : Z) : Z := int_wrap (z + 1).
Definition int_decr (z : Z) : Z := int_wrap (z - 1).

(** [size_t] is 64 bits wide and unsigned. *)
Definition size_wrap (z : Z) : Z := (z mod 2 ^ 64)%Z.
Definition size_incr (z : Z) : Z := size_wrap (z + 1).

(** ** Exceptions

    The one thing that throws in this code is a request for storage:
    [new int[n]] ([std::bad_alloc], [std::bad_array_new_length]) and
    [reserve] of a vector ([std::length_error], [std::bad_alloc]).  The
    program catches nothing and never tells them apart, so a call either
    returns or is left by the exception. *)
Inductive outcome (A : Type) :=
| Returned (a : A)
| Thrown.
Arguments Returned {A} a.
Arguments Thrown {A}.

(** A run that does not throw, as an outcome. *)
Definition returned {St A} (r : option (A * St)) : option (outcome A * St) :=
  match r with
  | Some (a, s) => Some (Returned a, s)
  | None => None
  end.

(** The outcome without the value. *)
Definition void {A} (r : outcome A) : outcome unit :=
  match r with
  | Returned _ => Returned tt
  | Thrown => Thrown
  end.

(** ** The heap of [int] arrays

    A block is what one [new int[n]] returned: its cells are [None] until
    they are written.  Addresses are never handed out twice, so a pointer
    to a released block stays recognisable as dangling.  A request for
    storage comes twice: [new_array] is the request that is granted, and
    [new_int_array] the request as the program makes it, which is refused
    when the size is out of range or the allocator has no room. *)

Module Heap.

Definition ptr := option nat.
Definition nullptr : ptr := None.

Record t := mk {
  blocks : gmap nat (list (option Z));
  released : list nat
}.

Definition empty : t := mk ∅ [].

Definition fresh_addr (h : t) : nat :=
  fresh (dom (blocks h) ∪ list_to_set (released h) : gset nat).

(** [new int[n]] when it is granted *)
Definition new_array (n : nat) : M t ptr := fun h =>
  let a := fresh_addr h in
  Some (Some a, mk (<[a := replicate n None]> (blocks h)) (released h)).

(** [new int[n]] is refused whenever [n * sizeof(int)] is no [size_t]
    ([int] of 4 bytes, [size_t] of 64 bits: from 2^62 elements on);
    below that the allocator answers, and [granted] is its answer. *)
Definition refused (granted : bool) (n : nat) : bool :=
  bool_decide (2 ^ 62 ≤ Z.of_nat n)%Z || negb granted.

(** [new int[n]] *)
Definition new_int_array (granted : bool) (n : nat) : M t (outcome ptr) :=
  if refused granted n then ret Thrown
  else p <- new_array n ;; ret (Returned p).

(** [delete[] p] *)
Definition delete_array (p : ptr) : M t unit := fun h =>
  match p with
  | None => Some (tt, h)
  | Some a =>
      match blocks h !! a with
      | Some _ => Some (tt, mk (delete a (blocks h)) (a :: released h))
      | None => None
      end
  end.

(** [p[i]] as an rvalue *)
Definition load (p : ptr) (i : nat) : M t Z := fun h =>
  match p with
  | None => None
  | Some a =>
      match blocks h !! a with
      | Some blk =>
          match blk !! i with
          | Some (Some v) => Some (v, h)
          | _ => None
          end
      | None => None
      end
  end.

(** [p[i] = v] *)
Definition store (p : ptr) (i : nat) (v : Z) : M t unit := fun h =>
  match p with
  | None => None
  | Some a =>
      match blocks h !! a with
      | Some blk =>
          if decide (i < length blk)
          then Some (tt, mk (<[a := <[i := Some v]> blk]> (blocks h)) (released h))
          else None
      | None => None
      end
  end.

(** [std::fill(p, p + n, v)], and the loop
    [for (i = 0; i < n; ++i) p[i] = v]. *)
Definition fill (p : ptr) (n : nat) (v : Z) : M t unit :=
  for_range 0 n (fun i => store p i v).

(** [std::copy(src, src + n, dst)], and the loop
    [for (i = 0; i < n; ++i) dst[i] = src[i]]. *)
Definition copy (src : ptr) (n : nat) (dst : ptr) : M t unit :=
  for_range 0 n (fun i => v <- load src i ;; store dst i v).

(** The heap after [delete[] p] of a null or live pointer. *)
Definition release (p : ptr) (h : t) : t :=
  match p with
  | Some a => mk (delete a (blocks h)) (a :: released h)
  | None => h
  end.

(** The addresses [delete[] p] releases. *)
Definition released_by (p : ptr) : list nat :=
  match p with
  | Some a => [a]
  | None => []
  end.

(** The heap in which block [q] holds the written values [C]. *)
Definition with_block (h : t) (q : nat) (C : list Z) : t :=
  mk (<[q := Some <$> C]> (blocks h)) (released h).

(** How many times an address was passed to [delete[]]. *)
Definition release_count (a : nat) (h : t) : nat :=
  length (filter (fun x => x = a) (released h)).

End Heap.

(** ** Stores: one heap, the live objects of one class, its static counters

    An object is named by the place it lives at ([this]); the table holds
    the objects whose lifetime has begun and not ended.  Identity of
    objects ([this != &other]) is identity of places. *)

Section Store.
Context {O C : Type}.

Record store := Store {
  heap : Heap.t;
  objs : gmap nat O;
  stats : C
}.

Definition on_heap {A} (c : M Heap.t A) : M store A := fun w =>
  match c (heap w) with
  | Some (a, h') => Some (a, Store h' (objs w) (stats w))
  | None => None
  end.

Definition on_stats (f : C -> C) : M store unit :=
  modify (fun w => Store (heap w) (objs w) (f (stats w))).

(** Begin the lifetime of an object at a place not in use. *)
Definition begin_object (o : O) : M store nat := fun w =>
  let this := fresh (dom (objs w)) in
  Some (this, Store (heap w) (<[this := o]> (objs w)) (stats w)).

(** Read the members of a live object. *)
Definition object (this : nat) : M store O := fun w =>
  match objs w !! this with
  | Some o => Some (o, w)
  | None => None
  end.

(** Assign to members of a live object. *)
Definition update (this : nat) (f : O -> O) : M store unit := fun w =>
  match objs w !! this with
  | Some o => Some (tt, Store (heap w) (<[this := f o]> (objs w)) (stats w))
  | None => None
  end.

(** End the lifetime of a live object. *)
Definition end_object (this : nat) : M store unit := fun w =>
  match objs w !! this with
  | Some _ => Some (tt, Store (heap w) (delete this (objs w)) (stats w))
  | None => None
  end.

End Store.

Arguments store : clear implicits.

(** The ownership discipline of a store of buffers, for a class whose
    objects carry a data pointer and a size. *)

Section Discipline.
Context {O C : Type} (data_of : O → Heap.ptr) (size_of : O → nat).

Record disciplined (w : store O C) : Prop := Disciplined {
  (** a live object has no buffer and size 0, or its pointer designates a
      live block, written everywhere, of its size *)
  owned_blocks : ∀ x o, objs w !! x = Some o →
    match data_of o with
    | Some a => ∃ Cs : list Z,
        Heap.blocks (heap w) !! a = Some (Some <$> Cs) ∧ length Cs = size_of o
    | None => size_of o = 0
    end;
  (** no block has two owners *)
  one_owner : ∀ x y ox oy a,
    objs w !! x = Some ox → objs w !! y = Some oy →
    data_of ox = Some a → data_of oy = Some a → x = y;
  (** no live block is without owner *)
  no_leak : ∀ a blk, Heap.blocks (heap w) !! a = Some blk →
    ∃ x o, objs w !! x = Some o ∧ data_of o = Some a;
  (** a released block is not live *)
  released_dead : ∀ a, a ∈ Heap.released (heap w) →
    Heap.blocks (heap w) !! a = None;
  (** no block was released twice *)
  released_once : NoDup (Heap.released (heap w))
}.

(** [x] holds no buffer in [w]: it is not live, or its pointer is null. *)
Definition unowning (w : store O C) (x : nat) : Prop :=
  ∀ o, objs w !! x = Some o → data_of o = None.

End Discipline.

(** ** ResourceManager (constructor_rules.hh, constructor_rules.cc) *)

Module ResourceManager.

(** The members [int* data_] and [size_t size_].  Sizes are only stored,
    compared and counted up to, never computed with, so they are kept as
    natural numbers; the [int] elements are integers. *)
Record t := Obj { data_ : Heap.ptr; size_ : nat }.

Record counters := Counters {
  default_constructions_ : Z;
  copy_constructions_ : Z;
  move_constructions_ : Z;
  destructions_ : Z
}.

Definition world := store t counters.

Definition set_data (p : Heap.ptr) (o : t) : t := Obj p (size_ o).
Definition set_size (n : nat) (o : t) : t := Obj (data_ o) n.

Definition incr_default (c : counters) : counters :=
  Counters (int_incr (default_constructions_ c)) (copy_constructions_ c)
           (move_constructions_ c) (destructions_ c).
Definition incr_copy (c : counters) : counters :=
  Counters (default_constructions_ c) (int_incr (copy_constructions_ c))
           (move_constructions_ c) (destructions_ c).
Definition incr_move (c : counters) : counters :=
  Counters (default_constructions_ c) (copy_constructions_ c)
           (int_incr (move_constructions_ c)) (destructions_ c).
Definition incr_destructions (c : counters) : counters :=
  Counters (default_constructions_ c) (copy_constructions_ c)
           (move_constructions_ c) (int_incr (destructions_ c)).

(** [size > 0 ? new int[size] : nullptr] *)
Definition new_or_null (size : nat) : M world Heap.ptr :=
  if decide (0 < size) then on_heap (Heap.new_array size) else ret Heap.nullptr.

(** [ResourceManager::ResourceManager()] *)
Definition ctor_default : M world nat :=
  this <- begin_object (Obj Heap.nullptr 0) ;;
  on_stats incr_default ;;
  ret this.

(** [ResourceManager::ResourceManager(size_t size)] *)
Definition ctor (size : nat) : M world nat :=
  p <- new_or_null size ;;
  this <- begin_object (Obj p size) ;;
  o <- object this ;;
  (if data_ o is Some _
   then on_heap (Heap.fill (data_ o) (size_ o) 0)
   else ret tt) ;;
  on_stats incr_default ;;
  ret this.

(** [ResourceManager::~ResourceManager()] *)
Definition dtor (this : nat) : M world unit :=
  o <- object this ;;
  on_heap (Heap.delete_array (data_ o)) ;;
  on_stats incr_destructions ;;
  end_object this.

(** [ResourceManager::ResourceManager(const ResourceManager& other)] *)
Definition copy_ctor (other : nat) : M world nat :=
  src <- object other ;;
  p <- new_or_null (size_ src) ;;
  this <- begin_object (Obj p (size_ src)) ;;
  o <- object this ;;
  src <- object other ;;
  (if data_ o is Some _
   then if data_ src is Some _
        then on_heap (Heap.copy (data_ src) (size_ o) (data_ o))
        else ret tt
   else ret tt) ;;
  on_stats incr_copy ;;
  ret this.

(** [ResourceManager::operator=(const ResourceManager& other)] *)
Definition copy_assign (this other : nat) : M world unit :=
  if decide (this ≠ other) then
    o <- object this ;;
    on_heap (Heap.delete_array (data_ o)) ;;
    src <- object other ;;
    update this (set_size (size_ src)) ;;
    o <- object this ;;
    p <- new_or_null (size_ o) ;;
    update this (set_data p) ;;
    o <- object this ;;
    src <- object other ;;
    (if data_ o is Some _
     then if data_ src is Some _
          then on_heap (Heap.copy (data_ src) (size_ o) (data_ o))
          else ret tt
     else ret tt)
  else ret tt.

(** [ResourceManager::ResourceManager(ResourceManager&& other)] *)
Definition move_ctor (other : nat) : M world nat :=
  src <- object other ;;
  this <- begin_object (Obj (data_ src) (size_ src)) ;;
  update other (set_data Heap.nullptr) ;;
  update other (set_size 0) ;;
  on_stats incr_move ;;
  ret this.

(** [ResourceManager::operator=(ResourceManager&& other)] *)
Definition move_assign (this other : nat) : M world unit :=
  if decide (this ≠ other) then
    o <- object this ;;
    on_heap (Heap.delete_array (data_ o)) ;;
    src <- object other ;;
    update this (set_data (data_ src)) ;;
    src <- object other ;;
    update this (set_size (size_ src)) ;;
    update other (set_data Heap.nullptr) ;;
    update other (set_size 0)
  else ret tt.

(** [ResourceManager::reset_stats()] *)
Definition reset_stats : M world unit :=
  on_stats (fun _ => Counters 0 0 0 0).

(** Accessors: [size()], [data()], [is_valid()]. *)
Definition size (this : nat) : M world nat :=
  o <- object this ;; ret (size_ o).
Definition data (this : nat) : M world Heap.ptr :=
  o <- object this ;; ret (data_ o).
Definition is_valid (this : nat) : M world bool :=
  o <- object this ;; ret (bool_decide (data_ o ≠ Heap.nullptr)).

(** Factory [create_resource(size)]: the prvalue initialises the result
    object directly. *)
Definition create_resource (size : nat) : M world nat := ctor size.

(** Object [this] is live, its data pointer is [p] and its elements are
    [C]: [size_] is the length of [C], and a non-null [p] designates a
    live block holding exactly [C]. *)
Definition owns (w : world) (this : nat) (p : Heap.ptr) (C : list Z) : Prop :=
  objs w !! this = Some (Obj p (length C)) ∧
  match p with
  | Some a => Heap.blocks (heap w) !! a = Some (Some <$> C)
  | None => C = []
  end.

(** Every live object owns what its members say. *)
Definition wf (w : world) : Prop :=
  ∀ this o, objs w !! this = Some o → ∃ C, owns w this (data_ o) C.

(** One construction of each kind, as a caller's statement. *)
Inductive op :=
| Create (size : nat)
| Duplicate (other : nat)
| Transfer (other : nat).

Definition step (c : op) : M world unit :=
  match c with
  | Create size => ctor size ;; ret tt
  | Duplicate other => copy_ctor other ;; ret tt
  | Transfer other => move_ctor other ;; ret tt
  end.

Fixpoint run (cs : list op) : M world unit :=
  match cs with
  | [] => ret tt
  | c :: cs' => step c ;; run cs'
  end.

(** The objects a statement reads. *)
Definition reads (c : op) : list nat :=
  match c with
  | Create _ => []
  | Duplicate other => [other]
  | Transfer other => [other]
  end.

(** What a statement does to the counters. *)
Definition count (st : counters) (c : op) : counters :=
  match c with
  | Create _ => incr_default st
  | Duplicate _ => incr_copy st
  | Transfer _ => incr_move st
  end.

(** Two stores to run examples on: no object at all, and one buffer
    holding the elements 5 and 7. *)
Definition initial : world := Store Heap.empty ∅ (Counters 0 0 0 0).
Definition sample : world :=
  Store (Heap.mk {[0 := [Some 5%Z; Some 7%Z]]} [])
        {[0 := Obj (Some 0) 2]} (Counters 0 0 0 0).

(** A store with two buffers: 5, 7 at object 0 and 9 at object 1. *)
Definition pair : world :=
  Store (Heap.mk {[0 := [Some 5%Z; Some 7%Z]; 1 := [Some 9%Z]]} [])
        {[0 := Obj (Some 0) 2; 1 := Obj (Some 1) 1]} (Counters 0 0 0 0).

(** What a caller can do with one instance short of ending its lifetime:
    query it, duplicate it, transfer out of it. *)
Inductive probe :=
| Query
| Copy
| Move.

Definition probe_step (this : nat) (c : probe) : M world unit :=
  match c with
  | Query => size this ;; data this ;; is_valid this ;; ret tt
  | Copy => copy_ctor this ;; ret tt
  | Move => move_ctor this ;; ret tt
  end.

Fixpoint probes (this : nat) (cs : list probe) : M world unit :=
  match cs with
  | [] => ret tt
  | c :: cs' => probe_step this c ;; probes this cs'
  end.

(** The state kept while a moved-from buffer [a] is operated on: [a] owns
    nothing, the destination [b] of the transfer owns the block, and the
    log of released blocks is [R]. *)
Definition moved (a b : nat) (p : Heap.ptr) (C : list Z) (R : list nat)
    (w : world) : Prop :=
  owns w a Heap.nullptr [] ∧ owns w b p C ∧ Heap.released (heap w) = R.

(** [resources.push_back(ResourceManager(size))]: a temporary is built,
    the new element is move constructed from it, the temporary is
    destroyed.  The vector is the list of its elements; [reserve(count)]
    before the loop rules out any reallocation. *)
Definition push_back_temporary (size : nat) : M world nat :=
  temporary <- ctor size ;;
  element <- move_ctor temporary ;;
  dtor temporary ;;
  ret element.

(** The loop of [create_multiple_resources] with [n] passes left. *)
Fixpoint push_resources (n : nat) (size : nat) (resources : list nat)
  : M world (list nat) :=
  match n with
  | O => ret resources
  | S n' =>
      element <- push_back_temporary size ;;
      push_resources n' size (resources ++ [element])
  end.



(** [create_multiple_resources(size_t count, size_t size)] when all the
    storage is granted *)
Definition create_multiple_resources (count size : nat) : M world (list nat) :=
  push_resources count size [].

(** *** With the refusal of storage

    The constructors and assignments above are the runs in which the
    storage asked for is granted.  Here they are as the calls are: the
    answer of the allocator to the one request a call makes is [granted],
    and a refusal leaves the call by an exception at that point. *)

Module Throwing.

(** [size > 0 ? new int[size] : nullptr] *)
Definition new_or_null (granted : bool) (size : nat)
  : M world (outcome Heap.ptr) :=
  if decide (0 < size) then on_heap (Heap.new_int_array granted size)
  else ret (Returned Heap.nullptr).

(** [ResourceManager::ResourceManager(size_t size)]: an exception in the
    initialiser of [data_] leaves no object and nothing counted. *)
Definition ctor (granted : bool) (size : nat) : M world (outcome nat) :=
  r <- new_or_null granted size ;;
  match r with
  | Thrown => ret Thrown
  | Returned p =>
      this <- begin_object (Obj p size) ;;
      o <- object this ;;
      (if data_ o is Some _
       then on_heap (Heap.fill (data_ o) (size_ o) 0)
       else ret tt) ;;
      on_stats incr_default ;;
      ret (Returned this)
  end.

(** [ResourceManager::ResourceManager(const ResourceManager& other)] *)
Definition copy_ctor (granted : bool) (other : nat) : M world (outcome nat) :=
  src <- object other ;;
  r <- new_or_null granted (size_ src) ;;
  match r with
  | Thrown => ret Thrown
  | Returned p =>
      this <- begin_object (Obj p (size_ src)) ;;
      o <- object this ;;
      src <- object other ;;
      (if data_ o is Some _
       then if data_ src is Some _
            then on_heap (Heap.copy (data_ src) (size_ o) (data_ o))
            else ret tt
       else ret tt) ;;
      on_stats incr_copy ;;
      ret (Returned this)
  end.

(** [ResourceManager::operator=(const ResourceManager& other)]: the
    exception leaves [*this] as it is after [delete[] data_] and
    [size_ = other.size_]. *)
Definition copy_assign (granted : bool) (this other : nat)
  : M world (outcome unit) :=
  if decide (this ≠ other) then
    o <- object this ;;
    on_heap (Heap.delete_array (data_ o)) ;;
    src <- object other ;;
    update this (set_size (size_ src)) ;;
    o <- object this ;;
    r <- new_or_null granted (size_ o) ;;
    match r with
    | Thrown => ret Thrown
    | Returned p =>
        update this (set_data p) ;;
        o <- object this ;;
        src <- object other ;;
        (if data_ o is Some _
         then if data_ src is Some _
              then on_heap (Heap.copy (data_ src) (size_ o) (data_ o))
              else ret tt
         else ret tt) ;;
        ret (Returned tt)
    end
  else ret (Returned tt).

(** [resources.push_back(ResourceManager(size))] *)
Definition push_back_temporary (granted : bool) (size : nat)
  : M world (outcome nat) :=
  r <- ctor granted size ;;
  match r with
  | Thrown => ret Thrown
  | Returned temporary =>
      element <- move_ctor temporary ;;
      dtor temporary ;;
      ret (Returned element)
  end.

(** The destructor of the vector: the elements are destroyed, here from
    the first on (the order is the library's). *)
Fixpoint destroy_all (resources : list nat) : M world unit :=
  match resources with
  | [] => ret tt
  | r :: rest => dtor r ;; destroy_all rest
  end.

(** The loop of [create_multiple_resources] at pass [i] with [n] passes
    left; [granted i] is the allocator's answer in pass [i].  An
    exception unwinds through the vector. *)
Fixpoint push_resources (granted : nat → bool) (i n : nat) (size : nat)
    (resources : list nat) : M world (outcome (list nat)) :=
  match n with
  | O => ret (Returned resources)
  | S n' =>
      r <- push_back_temporary (granted i) size ;;
      match r with
      | Thrown => destroy_all resources ;; ret Thrown
      | Returned element =>
          push_resources granted (S i) n' size (resources ++ [element])
      end
  end.

(** [resources.reserve(count)] is refused whenever [count] elements of
    16 bytes are more than any vector holds (from 2^60 elements on in
    every library); below that the library and the allocator answer, and
    [reserved] is their answer. *)
Definition reserve_refused (reserved : bool) (count : nat) : bool :=
  bool_decide (2 ^ 60 ≤ Z.of_nat count)%Z || negb reserved.

(** [create_multiple_resources(size_t count, size_t size)] *)
Definition create_multiple_resources (reserved : bool) (granted : nat → bool)
    (count size : nat) : M world (outcome (list nat)) :=
  if reserve_refused reserved count then ret Thrown
  else push_resources granted 0 count size [].

End Throwing.

(** Whether a request for [size] elements by this class is refused: a
    size of 0 asks for nothing. *)
Definition refused (granted : bool) (size : nat) : bool :=
  bool_decide (0 < size) && Heap.refused granted size.

(** The ownership discipline, for ResourceManager, with what its
    constructors add: a buffer that has a block has a positive size, and
    every size is one that [new] accepts. *)
Definition sound (w : world) : Prop :=
  disciplined data_ size_ w ∧
  map_Forall (fun _ o => (data_ o ≠ Heap.nullptr → 0 < size_ o) ∧
                         (Z.of_nat (size_ o) < 2 ^ 62)%Z) (objs w).

(** A call of a member function, constructors and destructor included,
    with the allocator's answer where the call asks for storage. *)
Inductive call :=
| NewDefault
| New (granted : bool) (size : nat)
| NewCopy (granted : bool) (other : nat)
| NewMove (other : nat)
| AssignCopy (granted : bool) (this other : nat)
| AssignMove (this other : nat)
| Delete (this : nat)
| Inspect (this : nat).

Definition invoke (c : call) : M world (outcome unit) :=
  match c with
  | NewDefault => ctor_default ;; ret (Returned tt)
  | New granted size => r <- Throwing.ctor granted size ;; ret (void r)
  | NewCopy granted other => r <- Throwing.copy_ctor granted other ;; ret (void r)
  | NewMove other => move_ctor other ;; ret (Returned tt)
  | AssignCopy granted this other => Throwing.copy_assign granted this other
  | AssignMove this other => move_assign this other ;; ret (Returned tt)
  | Delete this => dtor this ;; ret (Returned tt)
  | Inspect this =>
      size this ;; data this ;; is_valid this ;; ret (Returned tt)
  end.

(** The objects a call is made on. *)
Definition operands (c : call) : list nat :=
  match c with
  | NewDefault => []
  | New _ _ => []
  | NewCopy _ other => [other]
  | NewMove other => [other]
  | AssignCopy _ this other => [this; other]
  | AssignMove this other => [this; other]
  | Delete this => [this]
  | Inspect this => [this]
  end.

(** The storage the call asks for is granted, or it asks for none. *)
Definition granted_to (c : call) : Prop :=
  match c with
  | New granted size => refused granted size = false
  | NewCopy granted _ => granted = true
  | AssignCopy granted _ _ => granted = true
  | _ => True
  end.

(** The call is a copy assignment. *)
Definition assigns_copy (c : call) : Prop :=
  match c with
  | AssignCopy _ _ _ => True
  | _ => False
  end.

(** The call is an assignment. *)
Definition assigns (c : call) : Prop :=
  match c with
  | AssignCopy _ _ _ => True
  | AssignMove _ _ => True
  | _ => False
  end.

(** A sequence of calls, up to the first that throws. *)
Fixpoint invoke_all (cs : list call) : M world (outcome unit) :=
  match cs with
  | [] => ret (Returned tt)
  | c :: cs' =>
      r <- invoke c ;;
      match r with
      | Returned _ => invoke_all cs'
      | Thrown => ret Thrown
      end
  end.

(** The constructions counted. *)
Definition constructed (c : counters) : Z :=
  (default_constructions_ c + copy_constructions_ c + move_constructions_ c)%Z.

(** Every counter is between 0 and [B]. *)
Definition within (B : Z) (c : counters) : Prop :=
  (0 ≤ default_constructions_ c ≤ B ∧ 0 ≤ copy_constructions_ c ≤ B ∧
   0 ≤ move_constructions_ c ≤ B ∧ 0 ≤ destructions_ c ≤ B)%Z.

End ResourceManager.

(** ** LargeBuffer (move_semantics.hh, move_semantics.cc) *)

Module LargeBuffer.

(** The members [int* data_] and [size_t size_], as for ResourceManager. *)
Record t := Obj { data_ : Heap.ptr; size_ : nat }.

Record counters := Counters {
  copy_count_ : Z;
  move_count_ : Z
}.

Definition world := store t counters.

Definition set_data (p : Heap.ptr) (o : t) : t := Obj p (size_ o).
Definition set_size (n : nat) (o : t) : t := Obj (data_ o) n.

Definition incr_copy (c : counters) : counters :=
  Counters (size_incr (copy_count_ c)) (move_count_ c).
Definition incr_move (c : counters) : counters :=
  Counters (copy_count_ c) (size_incr (move_count_ c)).

(** [for (size_t i = 0; i < size_; ++i) data_[i] = value;] ([size_] is
    not assigned in the body, so the bound is read once). *)
Definition fill_loop (this : nat) (value : Z) : M world unit :=
  o <- object this ;;
  for_range 0 (size_ o) (fun i =>
    o <- object this ;;
    on_heap (Heap.store (data_ o) i value)).

(** [for (size_t i = 0; i < size_; ++i) data_[i] = other.data_[i];] *)
Definition copy_loop (this other : nat) : M world unit :=
  o <- object this ;;
  for_range 0 (size_ o) (fun i =>
    src <- object other ;;
    v <- on_heap (Heap.load (data_ src) i) ;;
    o <- object this ;;
    on_heap (Heap.store (data_ o) i v)).

(** [LargeBuffer::LargeBuffer(size_t size)] *)
Definition ctor (size : nat) : M world nat :=
  p <- on_heap (Heap.new_array size) ;;
  this <- begin_object (Obj p size) ;;
  fill_loop this 0 ;;
  ret this.

(** [LargeBuffer::LargeBuffer(const LargeBuffer& other)] *)
Definition copy_ctor (other : nat) : M world nat :=
  src <- object other ;;
  p <- on_heap (Heap.new_array (size_ src)) ;;
  this <- begin_object (Obj p (size_ src)) ;;
  copy_loop this other ;;
  on_stats incr_copy ;;
  ret this.

(** [LargeBuffer::operator=(const LargeBuffer& other)] *)
Definition copy_assign (this other : nat) : M world unit :=
  if decide (this ≠ other) then
    o <- object this ;;
    on_heap (Heap.delete_array (data_ o)) ;;
    src <- object other ;;
    update this (set_size (size_ src)) ;;
    o <- object this ;;
    p <- on_heap (Heap.new_array (size_ o)) ;;
    update this (set_data p) ;;
    copy_loop this other ;;
    on_stats incr_copy
  else ret tt.

(** [LargeBuffer::LargeBuffer(LargeBuffer&& other)] *)
Definition move_ctor (other : nat) : M world nat :=
  src <- object other ;;
  this <- begin_object (Obj (data_ src) (size_ src)) ;;
  update other (set_data Heap.nullptr) ;;
  update other (set_size 0) ;;
  on_stats incr_move ;;
  ret this.

(** [LargeBuffer::operator=(LargeBuffer&& other)] *)
Definition move_assign (this other : nat) : M world unit :=
  if decide (this ≠ other) then
    o <- object this ;;
    on_heap (Heap.delete_array (data_ o)) ;;
    src <- object other ;;
    update this (set_data (data_ src)) ;;
    src <- object other ;;
    update this (set_size (size_ src)) ;;
    update other (set_data Heap.nullptr) ;;
    update other (set_size 0) ;;
    on_stats incr_move
  else ret tt.

(** [LargeBuffer::~LargeBuffer()] *)
Definition dtor (this : nat) : M world unit :=
  o <- object this ;;
  on_heap (Heap.delete_array (data_ o)) ;;
  end_object this.

(** [LargeBuffer::size()] *)
Definition size (this : nat) : M world nat :=
  o <- object this ;; ret (size_ o).

(** [LargeBuffer::fill(int value)] *)
Definition fill (this : nat) (value : Z) : M world unit :=
  fill_loop this value.

(** [LargeBuffer::reset_counts()] *)
Definition reset_counts : M world unit :=
  on_stats (fun _ => Counters 0 0).

(** Object [this] is live, its data pointer is [p] and its elements are
    [C]: [size_] is the length of [C], and a non-null [p] designates a
    live block holding exactly [C]. *)
Definition owns (w : world) (this : nat) (p : Heap.ptr) (C : list Z) : Prop :=
  objs w !! this = Some (Obj p (length C)) ∧
  match p with
  | Some a => Heap.blocks (heap w) !! a = Some (Some <$> C)
  | None => C = []
  end.

(** Every live object owns what its members say. *)
Definition wf (w : world) : Prop :=
  ∀ this o, objs w !! this = Some o → ∃ C, owns w this (data_ o) C.

(** One construction of each kind, as a caller's statement. *)
Inductive op :=
| Create (size : nat)
| Duplicate (other : nat)
| Transfer (other : nat).

Definition step (c : op) : M world unit :=
  match c with
  | Create size => ctor size ;; ret tt
  | Duplicate other => copy_ctor other ;; ret tt
  | Transfer other => move_ctor other ;; ret tt
  end.

Fixpoint run (cs : list op) : M world unit :=
  match cs with
  | [] => ret tt
  | c :: cs' => step c ;; run cs'
  end.

(** The objects a statement reads. *)
Definition reads (c : op) : list nat :=
  match c with
  | Create _ => []
  | Duplicate other => [other]
  | Transfer other => [other]
  end.

(** What a statement does to the counters: no counter records the
    constructions from a size. *)
Definition count (st : counters) (c : op) : counters :=
  match c with
  | Create _ => st
  | Duplicate _ => incr_copy st
  | Transfer _ => incr_move st
  end.

(** Two stores to run examples on: no object at all, and one buffer
    holding the elements 5 and 7. *)
Definition initial : world := Store Heap.empty ∅ (Counters 0 0).
Definition sample : world :=
  Store (Heap.mk {[0 := [Some 5%Z; Some 7%Z]]} [])
        {[0 := Obj (Some 0) 2]} (Counters 0 0).

(** A store with two buffers: 5, 7 at object 0 and 9 at object 1. *)
Definition pair : world :=
  Store (Heap.mk {[0 := [Some 5%Z; Some 7%Z]; 1 := [Some 9%Z]]} [])
        {[0 := Obj (Some 0) 2; 1 := Obj (Some 1) 1]} (Counters 0 0).

(** What a caller can do with one instance short of ending its lifetime:
    query it, fill it, duplicate it, transfer out of it. *)
Inductive probe :=
| Query
| Fill (value : Z)
| Copy
| Move.

Definition probe_step (this : nat) (c : probe) : M world unit :=
  match c with
  | Query => size this ;; ret tt
  | Fill value => fill this value
  | Copy => copy_ctor this ;; ret tt
  | Move => move_ctor this ;; ret tt
  end.

Fixpoint probes (this : nat) (cs : list probe) : M world unit :=
  match cs with
  | [] => ret tt
  | c :: cs' => probe_step this c ;; probes this cs'
  end.

(** The state kept while a moved-from buffer [a] is operated on: [a] owns
    nothing, the destination [b] of the transfer owns the block, and the
    log of released blocks is [R]. *)
Definition moved (a b : nat) (p : Heap.ptr) (C : list Z) (R : list nat)
    (w : world) : Prop :=
  owns w a Heap.nullptr [] ∧ owns w b p C ∧ Heap.released (heap w) = R.

(** [create_buffer(size_t size)] when the storage is granted.  The local
    [buf] is returned by name: the compiler either builds it in the
    result object ([elide]) or moves it there and destroys the local. *)
Definition create_buffer (elide : bool) (size : nat) : M world nat :=
  buf <- ctor size ;;
  fill buf 42 ;;
  if elide then ret buf
  else
    result <- move_ctor buf ;;
    dtor buf ;;
    ret result.

(** [process_copy(LargeBuffer buf)], on its parameter object: returning a
    by-value parameter moves it into the result. *)
Definition process_copy (buf : nat) : M world nat :=
  fill buf 100 ;;
  move_ctor buf.

(** The call [process_copy(x)] on an lvalue [x]: the parameter is
    copy-constructed from [x] and destroyed when the call is over. *)
Definition call_process_copy (x : nat) : M world nat :=
  buf <- copy_ctor x ;;
  result <- process_copy buf ;;
  dtor buf ;;
  ret result.

(** [process_move(LargeBuffer&& buf)]: [return std::move(buf)] moves the
    referenced object into the result. *)
Definition process_move (buf : nat) : M world nat :=
  fill buf 200 ;;
  move_ctor buf.

(** *** With the refusal of storage

    As for ResourceManager: the functions above are the runs in which the
    storage asked for is granted, these are the calls as they are. *)

Module Throwing.

(** [LargeBuffer::LargeBuffer(size_t size)]: an exception in the
    initialiser of [data_] leaves no object. *)
Definition ctor (granted : bool) (size : nat) : M world (outcome nat) :=
  r <- on_heap (Heap.new_int_array granted size) ;;
  match r with
  | Thrown => ret Thrown
  | Returned p =>
      this <- begin_object (Obj p size) ;;
      fill_loop this 0 ;;
      ret (Returned this)
  end.

(** [LargeBuffer::LargeBuffer(const LargeBuffer& other)] *)
Definition copy_ctor (granted : bool) (other : nat) : M world (outcome nat) :=
  src <- object other ;;
  r <- on_heap (Heap.new_int_array granted (size_ src)) ;;
  match r with
  | Thrown => ret Thrown
  | Returned p =>
      this <- begin_object (Obj p (size_ src)) ;;
      copy_loop this other ;;
      on_stats incr_copy ;;
      ret (Returned this)
  end.

(** [LargeBuffer::operator=(const LargeBuffer& other)]: the exception
    leaves [*this] as it is after [delete[] data_] and
    [size_ = other.size_]. *)
Definition copy_assign (granted : bool) (this other : nat)
  : M world (outcome unit) :=
  if decide (this ≠ other) then
    o <- object this ;;
    on_heap (Heap.delete_array (data_ o)) ;;
    src <- object other ;;
    update this (set_size (size_ src)) ;;
    o <- object this ;;
    r <- on_heap (Heap.new_int_array granted (size_ o)) ;;
    match r with
    | Thrown => ret Thrown
    | Returned p =>
        update this (set_data p) ;;
        copy_loop this other ;;
        on_stats incr_copy ;;
        ret (Returned tt)
    end
  else ret (Returned tt).

(** [create_buffer(size_t size)] *)
Definition create_buffer (granted : bool) (elide : bool) (size : nat)
  : M world (outcome nat) :=
  r <- ctor granted size ;;
  match r with
  | Thrown => ret Thrown
  | Returned buf =>
      fill buf 42 ;;
      if elide then ret (Returned buf)
      else
        result <- move_ctor buf ;;
        dtor buf ;;
        ret (Returned result)
  end.

End Throwing.

(** The ownership discipline, for LargeBuffer; every size is one that
    [new] accepts. *)
Definition sound (w : world) : Prop :=
  disciplined data_ size_ w ∧
  map_Forall (fun _ o => (Z.of_nat (size_ o) < 2 ^ 62)%Z) (objs w).

(** A call of a member function, constructors and destructor included,
    with the allocator's answer where the call asks for storage. *)
Inductive call :=
| New (granted : bool) (size : nat)
| NewCopy (granted : bool) (other : nat)
| NewMove (other : nat)
| AssignCopy (granted : bool) (this other : nat)
| AssignMove (this other : nat)
| Delete (this : nat)
| FillWith (this : nat) (value : Z)
| GetSize (this : nat).

Definition invoke (c : call) : M world (outcome unit) :=
  match c with
  | New granted size => r <- Throwing.ctor granted size ;; ret (void r)
  | NewCopy granted other => r <- Throwing.copy_ctor granted other ;; ret (void r)
  | NewMove other => move_ctor other ;; ret (Returned tt)
  | AssignCopy granted this other => Throwing.copy_assign granted this other
  | AssignMove this other => move_assign this other ;; ret (Returned tt)
  | Delete this => dtor this ;; ret (Returned tt)
  | FillWith this value => fill this value ;; ret (Returned tt)
  | GetSize this => size this ;; ret (Returned tt)
  end.

(** The objects a call is made on. *)
Definition operands (c : call) : list nat :=
  match c with
  | New _ _ => []
  | NewCopy _ other => [other]
  | NewMove other => [other]
  | AssignCopy _ this other => [this; other]
  | AssignMove this other => [this; other]
  | Delete this => [this]
  | FillWith this _ => [this]
  | GetSize this => [this]
  end.

(** The storage the call asks for is granted, or it asks for none. *)
Definition granted_to (c : call) : Prop :=
  match c with
  | New granted size => Heap.refused granted size = false
  | NewCopy granted _ => granted = true
  | AssignCopy granted _ _ => granted = true
  | _ => True
  end.

(** The call is a copy assignment. *)
Definition assigns_copy (c : call) : Prop :=
  match c with
  | AssignCopy _ _ _ => True
  | _ => False
  end.

(** A sequence of calls, up to the first that throws. *)
Fixpoint invoke_all (cs : list call) : M world (outcome unit) :=
  match cs with
  | [] => ret (Returned tt)
  | c :: cs' =>
      r <- invoke c ;;
      match r with
      | Returned _ => invoke_all cs'
      | Thrown => ret Thrown
      end
  end.

End LargeBuffer.

(** ** Move-only handles

    What [std::move] leaves in a [std::string] it was moved out of: the
    standard only promises a valid string; the library implementations
    leave it empty. *)
Definition moved_from_string : string := EmptyString.

(** *** MoveOnlyResource (constructor_rules.hh, constructor_rules.cc)

    Its table has no copy operation: the copy constructor and the copy
    assignment are declared [= delete]. *)

Module MoveOnlyResource.

Record t := Obj { name_ : string; valid_ : bool }.

Definition world := store t unit.

Definition set_name (s : string) (o : t) : t := Obj s (valid_ o).
Definition set_valid (b : bool) (o : t) : t := Obj (name_ o) b.

(** [MoveOnlyResource::MoveOnlyResource(const std::string& name)] *)
Definition ctor (name : string) : M world nat :=
  begin_object (Obj name true).

(** [MoveOnlyResource::~MoveOnlyResource()] *)
Definition dtor (this : nat) : M world unit :=
  update this (set_valid false) ;;
  end_object this.

(** [MoveOnlyResource::MoveOnlyResource(MoveOnlyResource&& other)] *)
Definition move_ctor (other : nat) : M world nat :=
  src <- object other ;;
  update other (set_name moved_from_string) ;;
  let name := name_ src in
  src <- object other ;;
  this <- begin_object (Obj name (valid_ src)) ;;
  update other (set_valid false) ;;
  ret this.

(** [MoveOnlyResource::operator=(MoveOnlyResource&& other)] *)
Definition move_assign (this other : nat) : M world unit :=
  if decide (this ≠ other) then
    src <- object other ;;
    update this (set_name (name_ src)) ;;
    update other (set_name moved_from_string) ;;
    src <- object other ;;
    update this (set_valid (valid_ src)) ;;
    update other (set_valid false)
  else ret tt.

(** Accessors [name()] and [is_valid()]. *)
Definition name (this : nat) : M world string :=
  o <- object this ;; ret (name_ o).
Definition is_valid (this : nat) : M world bool :=
  o <- object this ;; ret (valid_ o).

(** The operations a caller has on handles: acquisition, the two
    transfers and release.  There is no duplication: the copy constructor
    and the copy assignment are deleted. *)
Inductive call :=
| Acquire (name : string)
| Transfer (other : nat)
| TransferTo (this other : nat)
| Release (this : nat).

(** To speak of the acquisitions, the table is run together with a
    record, which the program does not have, of the acquisition each
    handle got what it holds from; the acquisitions are numbered as they
    are made. *)
Record tracked := Tracked {
  table : world;
  origin : gmap nat nat;
  acquisitions : nat
}.

(** Handle [dst] now holds what handle [src] held. *)
Definition carry (src dst : nat) (g : gmap nat nat) : gmap nat nat :=
  partial_alter (fun _ => g !! src) dst g.

Definition invoke (c : call) : M tracked unit := fun t =>
  match c with
  | Acquire name =>
      match ctor name (table t) with
      | Some (h, w) =>
          Some (tt, Tracked w (<[h := acquisitions t]> (origin t))
                            (S (acquisitions t)))
      | None => None
      end
  | Transfer other =>
      match move_ctor other (table t) with
      | Some (h, w) =>
          Some (tt, Tracked w (carry other h (origin t)) (acquisitions t))
      | None => None
      end
  | TransferTo this other =>
      match move_assign this other (table t) with
      | Some (_, w) =>
          Some (tt, Tracked w (carry other this (origin t)) (acquisitions t))
      | None => None
      end
  | Release this =>
      match dtor this (table t) with
      | Some (_, w) =>
          Some (tt, Tracked w (delete this (origin t)) (acquisitions t))
      | None => None
      end
  end.

Fixpoint invoke_all (cs : list call) : M tracked unit :=
  match cs with
  | [] => ret tt
  | c :: cs' => invoke c ;; invoke_all cs'
  end.

Definition valid_at (w : world) (h : nat) : Prop :=
  ∃ o, objs w !! h = Some o ∧ valid_ o = true.

(** For each acquisition at most one live handle is valid. *)
Definition one_per_acquisition (t : tracked) : Prop :=
  ∀ h1 h2 a,
    valid_at (table t) h1 → valid_at (table t) h2 →
    origin t !! h1 = Some a → origin t !! h2 = Some a → h1 = h2.

(** The record covers exactly the live handles, with acquisitions that
    were made. *)
Definition tracks (t : tracked) : Prop :=
  (∀ h, is_Some (origin t !! h) ↔ is_Some (objs (table t) !! h)) ∧
  (∀ h a, origin t !! h = Some a → a < acquisitions t).

(** The table with no handle, to run examples on. *)
Definition initial : world := Store Heap.empty ∅ tt.

(** No handle and no acquisition yet. *)
Definition start : tracked := Tracked initial ∅ 0.

(** The table with one valid handle. *)
Definition sample : world := Store Heap.empty {[0 := Obj "resource1" true]} tt.

(** The table with two valid handles. *)
Definition pair : world :=
  Store Heap.empty {[0 := Obj "resource1" true; 1 := Obj "resource2" true]} tt.

End MoveOnlyResource.

(** *** FileGuard (smart_pointers.hh, smart_pointers.cc) *)

Module FileGuard.

Record t := Obj { filename_ : string; is_open_ : bool }.

Definition world := store t unit.

Definition set_filename (s : string) (o : t) : t := Obj s (is_open_ o).
Definition set_is_open (b : bool) (o : t) : t := Obj (filename_ o) b.

(** [FileGuard::FileGuard(const std::string& filename)] *)
Definition ctor (filename : string) : M world nat :=
  begin_object (Obj filename true).

(** [FileGuard::close()] *)
Definition close (this : nat) : M world unit :=
  o <- object this ;;
  if is_open_ o then update this (set_is_open false) else ret tt.

(** [FileGuard::~FileGuard()] *)
Definition dtor (this : nat) : M world unit :=
  close this ;;
  end_object this.

(** [FileGuard::FileGuard(FileGuard&& other)] *)
Definition move_ctor (other : nat) : M world nat :=
  src <- object other ;;
  update other (set_filename moved_from_string) ;;
  let filename := filename_ src in
  src <- object other ;;
  this <- begin_object (Obj filename (is_open_ src)) ;;
  update other (set_is_open false) ;;
  ret this.

(** [FileGuard::operator=(FileGuard&& other)] *)
Definition move_assign (this other : nat) : M world unit :=
  if decide (this ≠ other) then
    close this ;;
    src <- object other ;;
    update this (set_filename (filename_ src)) ;;
    update other (set_filename moved_from_string) ;;
    src <- object other ;;
    update this (set_is_open (is_open_ src)) ;;
    update other (set_is_open false)
  else ret tt.

(** Accessors [is_open()] and [filename()]. *)
Definition is_open (this : nat) : M world bool :=
  o <- object this ;; ret (is_open_ o).
Definition filename (this : nat) : M world string :=
  o <- object this ;; ret (filename_ o).

(** The operations a caller has on handles: acquisition, the two
    transfers and release.  There is no duplication: the copy constructor
    and the copy assignment are deleted. *)
Inductive call :=
| Acquire (filename : string)
| Transfer (other : nat)
| TransferTo (this other : nat)
| Release (this : nat).

(** To speak of the acquisitions, the table is run together with a
    record, which the program does not have, of the acquisition each
    handle got what it holds from; the acquisitions are numbered as they
    are made. *)
Record tracked := Tracked {
  table : world;
  origin : gmap nat nat;
  acquisitions : nat
}.

(** Handle [dst] now holds what handle [src] held. *)
Definition carry (src dst : nat) (g : gmap nat nat) : gmap nat nat :=
  partial_alter (fun _ => g !! src) dst g.

Definition invoke (c : call) : M tracked unit := fun t =>
  match c with
  | Acquire filename =>
      match ctor filename (table t) with
      | Some (h, w) =>
          Some (tt, Tracked w (<[h := acquisitions t]> (origin t))
                            (S (acquisitions t)))
      | None => None
      end
  | Transfer other =>
      match move_ctor other (table t) with
      | Some (h, w) =>
          Some (tt, Tracked w (carry other h (origin t)) (acquisitions t))
      | None => None
      end
  | TransferTo this other =>
      match move_assign this other (table t) with
      | Some (_, w) =>
          Some (tt, Tracked w (carry other this (origin t)) (acquisitions t))
      | None => None
      end
  | Release this =>
      match dtor this (table t) with
      | Some (_, w) =>
          Some (tt, Tracked w (delete this (origin t)) (acquisitions t))
      | None => None
      end
  end.

Fixpoint invoke_all (cs : list call) : M tracked unit :=
  match cs with
  | [] => ret tt
  | c :: cs' => invoke c ;; invoke_all cs'
  end.

Definition valid_at (w : world) (h : nat) : Prop :=
  ∃ o, objs w !! h = Some o ∧ is_open_ o = true.

(** For each acquisition at most one live handle is valid. *)
Definition one_per_acquisition (t : tracked) : Prop :=
  ∀ h1 h2 a,
    valid_at (table t) h1 → valid_at (table t) h2 →
    origin t !! h1 = Some a → origin t !! h2 = Some a → h1 = h2.

(** The record covers exactly the live handles, with acquisitions that
    were made. *)
Definition tracks (t : tracked) : Prop :=
  (∀ h, is_Some (origin t !! h) ↔ is_Some (objs (table t) !! h)) ∧
  (∀ h a, origin t !! h = Some a → a < acquisitions t).

(** The table with no handle, to run examples on. *)
Definition initial : world := Store Heap.empty ∅ tt.

(** No handle and no acquisition yet. *)
Definition start : tracked := Tracked initial ∅ 0.

(** The table with one open guard. *)
Definition sample : world := Store Heap.empty {[0 := Obj "test.txt" true]} tt.

(** The table with two open guards. *)
Definition pair : world :=
  Store Heap.empty {[0 := Obj "file1.txt" true; 1 := Obj "file2.txt" true]} tt.

End FileGuard.

(** ** Resource and its shared owners (smart_pointers.hh, smart_pointers.cc)

    [std::shared_ptr<Resource>] is the standard library's: a control block
    per managed object counts the owners, the managed object is destroyed
    when the count reaches zero, copying adds an owner, moving hands the
    ownership over and leaves the source empty. *)

Module Resource.

Record t := Obj { id_ : Z }.

Record world := World {
  resources : gmap nat t;
  instance_count_ : Z;
  use_counts : gmap nat nat;
  shared_ptrs : gmap nat (option nat)
}.

(** [Resource::Resource(int id)] *)
Definition ctor (id : Z) : M world nat := fun w =>
  let this := fresh (dom (resources w)) in
  Some (this, World (<[this := Obj id]> (resources w))
                    (int_incr (instance_count_ w))
                    (use_counts w) (shared_ptrs w)).

(** [Resource::~Resource()] *)
Definition dtor (this : nat) : M world unit := fun w =>
  match resources w !! this with
  | Some _ =>
      Some (tt, World (delete this (resources w))
                      (int_decr (instance_count_ w))
                      (use_counts w) (shared_ptrs w))
  | None => None
  end.

(** [Resource::instance_count()] *)
Definition instance_count : M world Z := gets instance_count_.

(** [Resource::id()] *)
Definition id (this : nat) : M world Z := fun w =>
  match resources w !! this with
  | Some o => Some (id_ o, w)
  | None => None
  end.

(** The owners' table. *)
Definition begin_ptr (holds : option nat) : M world nat := fun w =>
  let this := fresh (dom (shared_ptrs w)) in
  Some (this, World (resources w) (instance_count_ w) (use_counts w)
                    (<[this := holds]> (shared_ptrs w))).

Definition held (this : nat) : M world (option nat) := fun w =>
  match shared_ptrs w !! this with
  | Some holds => Some (holds, w)
  | None => None
  end.

Definition set_held (this : nat) (holds : option nat) : M world unit := fun w =>
  match shared_ptrs w !! this with
  | Some _ => Some (tt, World (resources w) (instance_count_ w) (use_counts w)
                              (<[this := holds]> (shared_ptrs w)))
  | None => None
  end.

Definition end_ptr (this : nat) : M world unit := fun w =>
  match shared_ptrs w !! this with
  | Some _ => Some (tt, World (resources w) (instance_count_ w) (use_counts w)
                              (delete this (shared_ptrs w)))
  | None => None
  end.

Definition owners (r : nat) : M world nat := fun w =>
  match use_counts w !! r with
  | Some n => Some (n, w)
  | None => None
  end.

Definition set_owners (r : nat) (n : option nat) : M world unit :=
  modify (fun w => World (resources w) (instance_count_ w)
                         (match n with
                          | Some k => <[r := k]> (use_counts w)
                          | None => delete r (use_counts w)
                          end)
                         (shared_ptrs w)).

(** [std::make_shared<Resource>(id)] *)
Definition make_shared (id : Z) : M world nat :=
  r <- ctor id ;;
  set_owners r (Some 1) ;;
  begin_ptr (Some r).

(** [std::shared_ptr<Resource>::shared_ptr(const shared_ptr& other)] *)
Definition sp_copy (other : nat) : M world nat :=
  holds <- held other ;;
  (match holds with
   | Some r => n <- owners r ;; set_owners r (Some (S n))
   | None => ret tt
   end) ;;
  begin_ptr holds.

(** [std::shared_ptr<Resource>::shared_ptr(shared_ptr&& other)] *)
Definition sp_move (other : nat) : M world nat :=
  holds <- held other ;;
  this <- begin_ptr holds ;;
  set_held other None ;;
  ret this.

(** [std::shared_ptr<Resource>::~shared_ptr()] *)
Definition sp_dtor (this : nat) : M world unit :=
  holds <- held this ;;
  (match holds with
   | Some r =>
       n <- owners r ;;
       match n with
       | O => abort
       | S O => dtor r ;; set_owners r None
       | S (S m) => set_owners r (Some (S m))
       end
   | None => ret tt
   end) ;;
  end_ptr this.

(** [std::shared_ptr<Resource>::use_count()] *)
Definition use_count (this : nat) : M world nat :=
  holds <- held this ;;
  match holds with
  | Some r => owners r
  | None => ret 0
  end.

(** [create_shared_resource(int id)] *)
Definition create_shared_resource (id : Z) : M world nat :=
  make_shared id.

(** [for (int i = 0; i < copies; ++i) result.push_back(resource);] with
    [n] iterations left; the vector is the list of its elements. *)
Fixpoint push_copies (resource : nat) (n : nat) (result : list nat)
  : M world (list nat) :=
  match n with
  | O => ret result
  | S n' =>
      c <- sp_copy resource ;;
      push_copies resource n' (result ++ [c])
  end.

(** [share_resource(std::shared_ptr<Resource> resource, int copies)]:
    the parameter is a copy of the caller's pointer [arg], destroyed
    when the call returns. *)
Definition share_resource (arg : nat) (copies : Z) : M world (list nat) :=
  resource <- sp_copy arg ;;
  result <- push_copies resource (Z.to_nat copies) [] ;;
  sp_dtor resource ;;
  ret result.

(** Release the owners of a list, one after the other. *)
Fixpoint release_all (ps : list nat) : M world unit :=
  match ps with
  | [] => ret tt
  | p :: ps' => sp_dtor p ;; release_all ps'
  end.

(** The store with no resource and no owner. *)
Definition initial : world := World ∅ 0 ∅ ∅.

(** Pointer [p] is live and owns resource [r]. *)
Definition holds (w : world) (p r : nat) : Prop :=
  shared_ptrs w !! p = Some (Some r).

(** [Resource::instance_count()] is the number of [Resource] objects
    alive. *)
Definition exact (w : world) : Prop :=
  instance_count_ w = Z.of_nat (base.size (resources w)).

(** A call on shared pointers to resources; what it returns is dropped. *)
Inductive call :=
| Create (id : Z)
| Copy (other : nat)
| Move (other : nat)
| Drop (this : nat)
| Share (arg : nat) (copies : Z)
| UseCount (this : nat).

Definition invoke (c : call) : M world unit :=
  match c with
  | Create id => create_shared_resource id ;; ret tt
  | Copy other => sp_copy other ;; ret tt
  | Move other => sp_move other ;; ret tt
  | Drop this => sp_dtor this
  | Share arg copies => share_resource arg copies ;; ret tt
  | UseCount this => use_count this ;; ret tt
  end.

Fixpoint invoke_all (cs : list call) : M world unit :=
  match cs with
  | [] => ret tt
  | c :: cs' => invoke c ;; invoke_all cs'
  end.

(** A computation that, from a store where the count is exact and there
    is room for [k] more resources, leaves the count exact and adds at
    most [k] resources. *)
Definition grows {A} (k : nat) (c : M world A) : Prop :=
  ∀ w a w', c w = Some (a, w') → exact w →
    (Z.of_nat (base.size (resources w)) + Z.of_nat k < 2 ^ 31)%Z →
    exact w' ∧ base.size (resources w') ≤ base.size (resources w) + k.

End Resource.
(** ** Node and the singly linked list (smart_pointers.hh, smart_pointers.cc)

    A [std::unique_ptr<Node>] is null or owns exactly one node, so a chain
    of nodes is a value: the pointer is an [option], and a member function
    that changes the node in place returns the node it leaves. *)

Module Node.

(** [int value_] and [std::unique_ptr<Node> next_]. *)
#[warnings="-register-all"]
Inductive t := mk { value_ : Z; next_ : option t }.

(** [Node::Node(int value)] *)
Definition ctor (value : Z) : t := mk value None.

(** Accessors [value()] and [next()]. *)
Definition value (this : t) : Z := value_ this.
Definition next (this : t) : option t := next_ this.

(** [Node::append(std::unique_ptr<Node> node)] *)
Fixpoint append (this : t) (node : option t) : t :=
  match next_ this with
  | Some n => mk (value_ this) (Some (append n node))
  | None => mk (value_ this) node
  end.

(** [create_list(const std::vector<int>& values)]: [None] would be a read
    of [values[i]] outside the vector. *)
Definition create_list (values : list Z) : option (option t) :=
  if decide (values = []) then Some None
  else
    match values !! 0 with
    | Some v0 =>
        match for_range 1 (length values - 1)
                (fun i head =>
                   match values !! i with
                   | Some v => Some (tt, append head (Some (ctor v)))
                   | None => None
                   end) (ctor v0) with
        | Some (_, head) => Some (Some head)
        | None => None
        end
    | None => None
    end.

(** The loop of [count_nodes], entered with [current] not null:
    [++count; current = current->next();]. *)
Fixpoint count_loop (current : t) (count : Z) : Z :=
  match next current with
  | Some n => count_loop n (size_incr count)
  | None => size_incr count
  end.

(** [count_nodes(const Node* head)] *)
Definition count_nodes (head : option t) : Z :=
  match head with
  | Some h => count_loop h 0
  | None => 0%Z
  end.

(** The values met from a node on, following [next()] to the end. *)
Fixpoint values_from (this : t) : list Z :=
  value this :: match next this with
                | Some n => values_from n
                | None => []
                end.

Definition values_of (head : option t) : list Z :=
  match head with
  | Some h => values_from h
  | None => []
  end.

End Node.

(** ** The toy library (hello/hello_lib.cc) *)

Module Hello.

(** The 64-bit unsigned value of an integer expression. *)
Definition uint64 (z : Z) : Z := (z mod 2 ^ 64)%Z.

Definition INT_MAX : Z := (2 ^ 31 - 1)%Z.

(** [for (int i = ...; i <= n; ++i) { temp = a + b; a = b; b = temp; }]
    with [count] passes left; [None] is [++i] at [INT_MAX]. *)
Fixpoint fibonacci_loop (count : nat) (i a b : Z) : option Z :=
  match count with
  | O => Some b
  | S k =>
      let temp := uint64 (a + b) in
      if decide (i = INT_MAX) then None
      else fibonacci_loop k (i + 1) b temp
  end.

(** [fibonacci(int n)] *)
Definition fibonacci (n : Z) : option Z :=
  if decide (n ≤ 1)%Z then Some (uint64 n)
  else fibonacci_loop (Z.to_nat (n - 1)) 2 0 1.

(** The Fibonacci numbers. *)
Fixpoint Fib (n : nat) : Z :=
  match n with
  | O => 0
  | S m => match m with
           | O => 1
           | S k => Fib m + Fib k
           end
  end%Z.

(** The same numbers by accumulation, to compute with. *)
Fixpoint Fib_from (n : nat) (a b : Z) : Z :=
  match n with
  | O => a
  | S k => Fib_from k b (a + b)
  end.

(** [double] is IEEE 754 binary64, with rounding to nearest, ties to
    even: the conversion of a [uint64_t], [std::sqrt], and the conversion
    back, which drops the fraction and is undefined outside the range of
    [uint64_t]. *)
Definition double_of_uint64 (n : Z) : SpecFloat.spec_float :=
  SpecFloat.binary_normalize 53 1024 n 0 false.

Definition double_sqrt (x : SpecFloat.spec_float) : SpecFloat.spec_float :=
  SpecFloat.SFsqrt 53 1024 x.

Definition uint64_of_double (x : SpecFloat.spec_float) : option Z :=
  match x with
  | SpecFloat.S754_zero _ => Some 0%Z
  | SpecFloat.S754_finite false m e =>
      let v := match e with
               | Z0 => Zpos m
               | Zpos _ => (Zpos m * 2 ^ e)%Z
               | Zneg _ => (Zpos m / 2 ^ (- e))%Z
               end in
      if decide (v < 2 ^ 64)%Z then Some v else None
  | SpecFloat.S754_finite true m e =>
      if decide (Zpos m < 2 ^ (- e))%Z then Some 0%Z else None
  | _ => None
  end.

(** [static_cast<uint64_t>(std::sqrt(n))] *)
Definition sqrt_limit (n : Z) : option Z :=
  uint64_of_double (double_sqrt (double_of_uint64 n)).

(** [for (uint64_t i = ...; i <= limit; i += 2) if (n % i == 0) return
    false; return true;] with [fuel] tests of the loop condition left;
    [None] is a loop that has not ended by then. *)
Fixpoint is_prime_loop (fuel : nat) (n limit i : Z) : option bool :=
  match fuel with
  | O => None
  | S k =>
      if decide (i ≤ limit)%Z then
        if decide (n mod i = 0)%Z then Some false
        else is_prime_loop k n limit (uint64 (i + 2))
      else Some true
  end.

(** [is_prime(uint64_t n)] *)
Definition is_prime (n : Z) : option bool :=
  if decide (n < 2)%Z then Some false
  else if decide (n = 2)%Z then Some true
  else if decide (n mod 2 = 0)%Z then Some false
  else match sqrt_limit n with
       | Some limit => is_prime_loop (S (Z.to_nat limit)) n limit 3
       | None => None
       end.

(** [for (uint64_t i = ...; i <= n; ++i) if (is_prime(i))
    primes.push_back(i);] with [fuel] tests of the loop condition left. *)
Fixpoint primes_loop (fuel : nat) (n i : Z) (primes : list Z)
  : option (list Z) :=
  match fuel with
  | O => None
  | S k =>
      if decide (i ≤ n)%Z then
        match is_prime i with
        | Some b =>
            primes_loop k n (uint64 (i + 1))
                        (if b then primes ++ [i] else primes)
        | None => None
        end
      else Some primes
  end.

(** [primes_up_to(uint64_t n)] *)
Definition primes_up_to (n : Z) : option (list Z) :=
  primes_loop (S (Z.to_nat n)) n 2 [].

(** The square root taken in [double] is not below the integer square
    root of [n], and below [n]. *)
Definition sqrt_accurate (n : Z) : bool :=
  match sqrt_limit n with
  | Some limit => bool_decide (Z.sqrt n ≤ limit < n)%Z
  | None => false
  end.

End Hello.

Section HeapFacts.
Import Heap.

Lemma mk_eta h : mk (blocks h) (released h) = h.
Proof. by destruct h. Qed.

Lemma fresh_addr_not_live h : blocks h !! fresh_addr h = None.
Proof.
  apply not_elem_of_dom. unfold fresh_addr.
  pose proof (is_fresh (dom (blocks h) ∪ list_to_set (released h) : gset nat)).
  set_solver.
Qed.

Lemma fresh_addr_not_released h : fresh_addr h ∉ released h.
Proof.
  unfold fresh_addr.
  pose proof (is_fresh (dom (blocks h) ∪ list_to_set (released h) : gset nat)).
  set_solver.
Qed.

Lemma store_loop a v c : ∀ i h blk,
  blocks h !! a = Some blk → i + c ≤ length blk →
  for_range i c (fun j => store (Some a) j v) h =
  Some (tt, mk (<[a := take i blk ++ replicate c (Some v) ++ drop (i + c) blk]>
                  (blocks h)) (released h)).
Proof.
  induction c as [|c IH]; intros i h blk Hblk Hlen; simpl.
  - rewrite Nat.add_0_r, take_drop, insert_id by done.
    by rewrite mk_eta.
  - unfold bind at 1. unfold store at 1. rewrite Hblk.
    destruct (decide (i < length blk)) as [Hi|]; [|lia].
    rewrite (IH (S i) _ (<[i:=Some v]> blk));
      [|apply lookup_insert_eq|rewrite length_insert; lia].
    simpl. rewrite insert_insert_eq. do 3 f_equal.
    rewrite (take_S_r _ _ (Some v)) by (by apply list_lookup_insert_eq).
    rewrite take_insert_ge by lia.
    rewrite drop_insert_lt by lia.
    rewrite <- app_assoc. simpl.
    by replace (S (i + c)) with (i + S c) by lia.
Qed.

Lemma fill_spec a n v h blk :
  blocks h !! a = Some blk → length blk = n →
  fill (Some a) n v h =
  Some (tt, mk (<[a := replicate n (Some v)]> (blocks h)) (released h)).
Proof.
  intros Hblk Hlen. unfold fill.
  erewrite store_loop by (done || lia). simpl.
  by rewrite drop_ge, app_nil_r by lia.
Qed.

Lemma copy_loop a b (C : list Z) c : ∀ i h blk,
  a ≠ b →
  blocks h !! a = Some (Some <$> C) → blocks h !! b = Some blk →
  i + c ≤ length blk → i + c ≤ length C →
  for_range i c (fun j => v <- load (Some a) j ;; store (Some b) j v) h =
  Some (tt, mk (<[b := take i blk ++ (Some <$> take c (drop i C))
                        ++ drop (i + c) blk]> (blocks h)) (released h)).
Proof.
  induction c as [|c IH]; intros i h blk Hab Ha Hb Hlen HlenC; simpl.
  - rewrite Nat.add_0_r, take_drop, insert_id by done.
    by rewrite mk_eta.
  - destruct (lookup_lt_is_Some_2 C i) as [x Hx]; [lia|].
    unfold bind at 1. unfold bind at 1. unfold load at 1. rewrite Ha.
    rewrite list_lookup_fmap, Hx. simpl.
    unfold store at 1. rewrite Hb.
    destruct (decide (i < length blk)) as [Hi|]; [|lia].
    rewrite (IH (S i) _ (<[i:=Some x]> blk));
      [|done|by simpl; rewrite lookup_insert_ne|apply lookup_insert_eq
       |rewrite length_insert; lia|lia].
    simpl. rewrite insert_insert_eq. do 3 f_equal.
    rewrite (take_S_r _ _ (Some x)) by (by apply list_lookup_insert_eq).
    rewrite take_insert_ge by lia.
    rewrite drop_insert_lt by lia.
    rewrite <- app_assoc. simpl.
    rewrite (drop_S C x i Hx). simpl.
    by replace (S (i + c)) with (i + S c) by lia.
Qed.

Lemma copy_spec a b (C : list Z) n h blk :
  a ≠ b →
  blocks h !! a = Some (Some <$> C) → blocks h !! b = Some blk →
  length blk = n → length C = n →
  copy (Some a) n (Some b) h =
  Some (tt, mk (<[b := Some <$> C]> (blocks h)) (released h)).
Proof.
  intros Hab Ha Hb Hlen HlenC. unfold copy.
  erewrite copy_loop by (done || lia). simpl.
  rewrite drop_0, drop_ge, app_nil_r by lia.
  by rewrite take_ge by lia.
Qed.
Lemma store_exec a i v h (C : list Z) :
  blocks h !! a = Some (Some <$> C) → i < length C →
  store (Some a) i v h = Some (tt, with_block h a (<[i := v]> C)).
Proof.
  intros Hblk Hi. unfold store, with_block. rewrite Hblk, length_fmap.
  destruct (decide (i < length C)); [|lia].
  by rewrite list_fmap_insert.
Qed.
End HeapFacts.
Section StoreFacts.
Context {O C : Type}.
Implicit Types w : store O C.

Lemma store_eta w : Store (heap w) (objs w) (stats w) = w.
Proof. by destruct w. Qed.

Lemma fresh_object_not_live w : objs w !! fresh (dom (objs w)) = None.
Proof. apply not_elem_of_dom, is_fresh. Qed.

Lemma live_not_fresh w this o :
  objs w !! this = Some o → this ≠ fresh (dom (objs w)).
Proof. intros H ->. by rewrite fresh_object_not_live in H. Qed.

(** A loop whose body only acts on the heap is a loop on the heap. *)
Lemma for_range_on_heap (body : nat → M Heap.t unit)
      (wbody : nat → M (store O C) unit) c : ∀ i w,
  (∀ j h, wbody j (Store h (objs w) (stats w)) =
          on_heap (body j) (Store h (objs w) (stats w))) →
  for_range i c wbody w = on_heap (for_range i c body) w.
Proof.
  induction c as [|c IH]; intros i w Hbody; simpl.
  - unfold on_heap, ret. simpl. by rewrite store_eta.
  - unfold bind, on_heap at 1.
    rewrite <- (store_eta w) at 1. rewrite Hbody. unfold on_heap at 1. simpl.
    destruct (body i (heap w)) as [[[] h']|]; [|done].
    rewrite IH by done. done.
Qed.
End StoreFacts.

(** ** ResourceManager: what each member function does to the store *)

Arguments Heap.fill : simpl never.
Arguments Heap.copy : simpl never.
Arguments Heap.store : simpl never.
Arguments Heap.load : simpl never.
Arguments for_range : simpl never.

Ltac store_ne :=
  solve [ done | by eapply live_not_fresh | symmetry; by eapply live_not_fresh ].

Ltac run_store :=
  repeat (simpl;
          first [ rewrite lookup_insert_eq
                | rewrite lookup_insert_ne by store_ne
                | match goal with
                  | H : objs _ !! _ = Some _ |- _ => rewrite H
                  end ]);
  simpl.

Section RMFacts.
Import ResourceManager.
Implicit Types w : world.

Lemma RM_ctor_zero w :
  ctor 0 w =
  Some (fresh (dom (objs w)),
        Store (heap w) (<[fresh (dom (objs w)) := Obj None 0]> (objs w))
              (incr_default (stats w))).
Proof.
  unfold ctor, new_or_null, bind, begin_object, object, on_stats, modify, ret.
  simpl. by rewrite lookup_insert_eq.
Qed.

Lemma RM_ctor_pos n w :
  0 < n →
  ctor n w =
  Some (fresh (dom (objs w)),
        Store (Heap.with_block (heap w) (Heap.fresh_addr (heap w)) (replicate n 0%Z))
              (<[fresh (dom (objs w)) := Obj (Some (Heap.fresh_addr (heap w))) n]> (objs w))
              (incr_default (stats w))).
Proof.
  intros Hn.
  unfold ctor, new_or_null, bind, begin_object, object, on_stats, on_heap, modify, ret.
  destruct (decide (0 < n)); [|lia]. simpl.
  rewrite lookup_insert_eq. simpl.
  erewrite fill_spec; [|apply lookup_insert_eq|by rewrite length_replicate].
  simpl. rewrite insert_insert_eq. unfold Heap.with_block.
  by rewrite fmap_replicate.
Qed.

Lemma RM_copy_ctor_empty w other p :
  objs w !! other = Some (Obj p 0) →
  copy_ctor other w =
  Some (fresh (dom (objs w)),
        Store (heap w) (<[fresh (dom (objs w)) := Obj None 0]> (objs w))
              (incr_copy (stats w))).
Proof.
  intros Ho.
  unfold copy_ctor, new_or_null, bind, begin_object, object, on_stats, modify, ret.
  by run_store.
Qed.

Lemma RM_copy_ctor_block w other a (C : list Z) :
  owns w other (Some a) C → 0 < length C →
  copy_ctor other w =
  Some (fresh (dom (objs w)),
        Store (Heap.with_block (heap w) (Heap.fresh_addr (heap w)) C)
              (<[fresh (dom (objs w)) := Obj (Some (Heap.fresh_addr (heap w))) (length C)]>
                 (objs w))
              (incr_copy (stats w))).
Proof.
  intros [Ho Hblk] Hlen.
  unfold copy_ctor, new_or_null, bind, begin_object, object, on_stats, on_heap,
    modify, ret.
  run_store.
  destruct (decide (0 < length C)); [|lia]. run_store.
  assert (a ≠ Heap.fresh_addr (heap w)) as Hne.
  { intros ->. by rewrite fresh_addr_not_live in Hblk. }
  erewrite copy_spec;
    [|done|by simpl; rewrite lookup_insert_ne|apply lookup_insert_eq
     |by rewrite length_replicate|done].
  simpl. by rewrite insert_insert_eq.
Qed.

Lemma RM_move_ctor_exec w other o :
  objs w !! other = Some o →
  move_ctor other w =
  Some (fresh (dom (objs w)),
        Store (heap w)
              (<[other := Obj None 0]> (<[fresh (dom (objs w)) := o]> (objs w)))
              (incr_move (stats w))).
Proof.
  intros Ho.
  unfold move_ctor, bind, begin_object, object, update, on_stats, modify, ret.
  run_store. rewrite insert_insert_eq. by destruct o.
Qed.

Lemma RM_dtor_null w this n :
  objs w !! this = Some (Obj None n) →
  dtor this w =
  Some (tt, Store (heap w) (delete this (objs w)) (incr_destructions (stats w))).
Proof.
  intros Ho.
  unfold dtor, bind, object, end_object, on_stats, on_heap, modify, ret.
  by run_store.
Qed.

Lemma RM_dtor_block w this a n blk :
  objs w !! this = Some (Obj (Some a) n) →
  Heap.blocks (heap w) !! a = Some blk →
  dtor this w =
  Some (tt, Store (Heap.mk (delete a (Heap.blocks (heap w)))
                           (a :: Heap.released (heap w)))
                  (delete this (objs w)) (incr_destructions (stats w))).
Proof.
  intros Ho Hblk.
  unfold dtor, bind, object, end_object, on_stats, on_heap, modify, ret.
  run_store. rewrite Hblk. by run_store.
Qed.

Lemma RM_self_copy_assign w this : copy_assign this this w = Some (tt, w).
Proof. unfold copy_assign. by destruct (decide (this ≠ this)). Qed.

Lemma RM_self_move_assign w this : move_assign this this w = Some (tt, w).
Proof. unfold move_assign. by destruct (decide (this ≠ this)). Qed.
Local Ltac exists_store p :=
  eexists _, p; split; [done|]; unfold owns; simpl;
  repeat split; simplify_map_eq; try done.

Lemma RM_copy_assign_spec w this other pd Cd ps Cs :
  this ≠ other →
  owns w this pd Cd → owns w other ps Cs →
  (∀ a, pd = Some a → ps ≠ Some a) →
  ∃ w' p',
    copy_assign this other w = Some (tt, w') ∧
    stats w' = stats w ∧
    Heap.released (heap w') = Heap.released_by pd ++ Heap.released (heap w) ∧
    owns w' this p' Cs ∧ owns w' other ps Cs ∧
    (∀ a, p' = Some a → ps ≠ Some a).
Proof.
  intros Hne [Ht Hd] [Ho Hs] Hdisj.
  unfold copy_assign. destruct (decide (this ≠ other)); [|done].
  unfold new_or_null, bind, object, update, on_stats, on_heap, modify, ret.
  rewrite Ht. simpl.
  set (h1 := Heap.release pd (heap w)).
  assert (Heap.delete_array pd (heap w) = Some (tt, h1)) as ->.
  { destruct pd as [a|]; simpl; [by rewrite Hd|done]. }
  assert (Heap.released h1 = Heap.released_by pd ++ Heap.released (heap w)) as Hrel.
  { by destruct pd. }
  assert (match ps with
          | Some a => Heap.blocks h1 !! a = Some (Some <$> Cs)
          | None => Cs = []
          end) as Hs1.
  { destruct ps as [a|]; [|done]. destruct pd as [a'|]; [|done].
    simpl. rewrite lookup_delete_ne; [done|]. intros ->. by eapply Hdisj. }
  run_store.
  destruct (decide (0 < length Cs)) as [Hlen|Hlen]; run_store.
  - destruct ps as [a|]; [|subst Cs; simpl in Hlen; lia].
    assert (a ≠ Heap.fresh_addr h1) as Hfr.
    { intros ->. by rewrite fresh_addr_not_live in Hs1. }
    erewrite copy_spec;
      [|done|by simpl; rewrite lookup_insert_ne|apply lookup_insert_eq
       |by rewrite length_replicate|done].
    exists_store (Some (Heap.fresh_addr h1)).
    intros ? [= <-] [= ->]. done.
  - assert (Cs = []) as -> by (destruct Cs; [done|simpl in Hlen; lia]).
    exists_store (@None nat).
Qed.

Lemma RM_move_assign_spec w this other pd Cd ps Cs :
  this ≠ other →
  owns w this pd Cd → owns w other ps Cs →
  (∀ a, pd = Some a → ps ≠ Some a) →
  ∃ w',
    move_assign this other w = Some (tt, w') ∧
    stats w' = stats w ∧
    Heap.released (heap w') = Heap.released_by pd ++ Heap.released (heap w) ∧
    owns w' this ps Cs ∧ owns w' other None [].
Proof.
  intros Hne [Ht Hd] [Ho Hs] Hdisj.
  unfold move_assign. destruct (decide (this ≠ other)); [|done].
  unfold bind, object, update, on_stats, on_heap, modify, ret.
  rewrite Ht. simpl.
  set (h1 := Heap.release pd (heap w)).
  assert (Heap.delete_array pd (heap w) = Some (tt, h1)) as ->.
  { destruct pd as [a|]; simpl; [by rewrite Hd|done]. }
  assert (Heap.released h1 = Heap.released_by pd ++ Heap.released (heap w)) as Hrel.
  { by destruct pd. }
  assert (match ps with
          | Some a => Heap.blocks h1 !! a = Some (Some <$> Cs)
          | None => Cs = []
          end) as Hs1.
  { destruct ps as [a|]; [|done]. destruct pd as [a'|]; [|done].
    simpl. rewrite lookup_delete_ne; [done|]. intros ->. by eapply Hdisj. }
  run_store.
  eexists. split; [done|]. unfold owns. simpl.
  repeat split; simplify_map_eq; done.
Qed.
(** Well-formedness is kept when a new object is added that owns nothing
    or a block that was not live. *)
Lemma RM_wf_new_null w st :
  wf w →
  wf (Store (heap w) (<[fresh (dom (objs w)) := Obj None 0]> (objs w)) st).
Proof.
  intros Hwf this o. simpl. intros Hl.
  destruct (decide (this = fresh (dom (objs w)))) as [->|Hne].
  - rewrite lookup_insert_eq in Hl. injection Hl as <-.
    exists []. split; simpl; [by rewrite lookup_insert_eq|done].
  - rewrite lookup_insert_ne in Hl by done.
    destruct (Hwf _ _ Hl) as (C & Ho & Hb). exists C.
    split; simpl; [by rewrite lookup_insert_ne|done].
Qed.

Lemma RM_wf_new_block w q C st :
  wf w → Heap.blocks (heap w) !! q = None →
  wf (Store (Heap.with_block (heap w) q C)
            (<[fresh (dom (objs w)) := Obj (Some q) (length C)]> (objs w)) st).
Proof.
  intros Hwf Hq this o. simpl. intros Hl.
  destruct (decide (this = fresh (dom (objs w)))) as [->|Hne].
  - rewrite lookup_insert_eq in Hl. injection Hl as <-.
    exists C. split; simpl; by rewrite lookup_insert_eq.
  - rewrite lookup_insert_ne in Hl by done.
    destruct (Hwf _ _ Hl) as (C' & Ho & Hb). exists C'.
    split; simpl; [by rewrite lookup_insert_ne|].
    destruct (data_ o) as [a|]; [|done].
    rewrite lookup_insert_ne; [done|]. intros ->. congruence.
Qed.

Lemma RM_wf_moved w other o st :
  wf w → objs w !! other = Some o →
  wf (Store (heap w)
            (<[other := Obj None 0]> (<[fresh (dom (objs w)) := o]> (objs w))) st).
Proof.
  intros Hwf Ho this o'. simpl. intros Hl.
  destruct (decide (this = other)) as [->|Hne].
  - rewrite lookup_insert_eq in Hl. injection Hl as <-.
    exists []. split; simpl; [by rewrite lookup_insert_eq|done].
  - rewrite lookup_insert_ne in Hl by done.
    destruct (decide (this = fresh (dom (objs w)))) as [->|Hne'].
    + rewrite lookup_insert_eq in Hl. injection Hl as <-.
      destruct (Hwf _ _ Ho) as (C & Ho' & Hb). exists C.
      split; simpl; [|done].
      rewrite lookup_insert_ne, lookup_insert_eq by done.
      rewrite Ho in Ho'. by injection Ho' as ->.
    + rewrite lookup_insert_ne in Hl by done.
      destruct (Hwf _ _ Hl) as (C & Ho' & Hb). exists C.
      split; simpl; [|done]. by rewrite !lookup_insert_ne.
Qed.

Lemma RM_ctor_total n w :
  wf w →
  ∃ this w', ctor n w = Some (this, w') ∧ wf w' ∧
             dom (objs w) ⊆ dom (objs w') ∧
             stats w' = incr_default (stats w).
Proof.
  intros Hwf. destruct (decide (0 < n)) as [Hn|Hn].
  - rewrite RM_ctor_pos by done. eexists _, _. split; [done|].
    split; [|simpl; split; [set_solver|done]].
    rewrite <- (length_replicate n 0%Z) at 2.
    apply RM_wf_new_block; [done|apply fresh_addr_not_live].
  - assert (n = 0) as -> by lia. rewrite RM_ctor_zero.
    eexists _, _. split; [done|].
    split; [by apply RM_wf_new_null|simpl; split; [set_solver|done]].
Qed.

Lemma RM_copy_ctor_total other w :
  wf w → is_Some (objs w !! other) →
  ∃ this w', copy_ctor other w = Some (this, w') ∧ wf w' ∧
             dom (objs w) ⊆ dom (objs w') ∧
             stats w' = incr_copy (stats w).
Proof.
  intros Hwf [o Ho]. destruct (Hwf _ _ Ho) as (C & Hown).
  destruct (decide (0 < length C)) as [Hn|Hn].
  - destruct (data_ o) as [a|] eqn:Hd.
    + rewrite (RM_copy_ctor_block _ _ _ _ Hown Hn). eexists _, _. split; [done|].
      split; [|simpl; split; [set_solver|done]].
      apply RM_wf_new_block; [done|apply fresh_addr_not_live].
    + destruct Hown as [_ ->]. simpl in Hn. lia.
  - assert (length C = 0) as Hlen by lia.
    destruct Hown as [Ho' _]. rewrite Hlen in Ho'.
    rewrite (RM_copy_ctor_empty _ _ _ Ho'). eexists _, _. split; [done|].
    split; [by apply RM_wf_new_null|simpl; split; [set_solver|done]].
Qed.

Lemma RM_move_ctor_total other w :
  wf w → is_Some (objs w !! other) →
  ∃ this w', move_ctor other w = Some (this, w') ∧ wf w' ∧
             dom (objs w) ⊆ dom (objs w') ∧
             stats w' = incr_move (stats w).
Proof.
  intros Hwf [o Ho]. rewrite (RM_move_ctor_exec _ _ _ Ho).
  eexists _, _. split; [done|].
  split; [by apply RM_wf_moved|simpl; split; [set_solver|done]].
Qed.

Lemma RM_run_total cs : ∀ w,
  wf w →
  (∀ c x, c ∈ cs → x ∈ reads c → is_Some (objs w !! x)) →
  ∃ w', run cs w = Some (tt, w') ∧ wf w' ∧
        dom (objs w) ⊆ dom (objs w') ∧
        stats w' = foldl count (stats w) cs.
Proof.
  induction cs as [|c cs IH]; intros w Hwf Hlive; simpl.
  - by exists w.
  - assert (∃ w1, step c w = Some (tt, w1) ∧ wf w1 ∧
                  dom (objs w) ⊆ dom (objs w1) ∧
                  stats w1 = count (stats w) c) as (w1 & Hs & Hwf1 & Hd1 & Hst1).
    { destruct c as [n|x|x]; simpl; unfold bind, ret.
      - destruct (RM_ctor_total n w Hwf) as (this & w1 & -> & ? & ? & ?).
        by exists w1.
      - destruct (RM_copy_ctor_total x w Hwf) as (this & w1 & -> & ? & ? & ?).
        { apply (Hlive (Duplicate x)); [left|simpl; left]. }
        by exists w1.
      - destruct (RM_move_ctor_total x w Hwf) as (this & w1 & -> & ? & ? & ?).
        { apply (Hlive (Transfer x)); [left|simpl; left]. }
        by exists w1. }
    destruct (IH w1 Hwf1) as (w' & Hr & Hwf' & Hd' & Hst').
    { intros c' x Hc' Hx. apply elem_of_dom, Hd1, elem_of_dom.
      apply (Hlive c' x); [by right|done]. }
    exists w'. unfold bind. rewrite Hs, Hr.
    split; [done|]. split; [done|]. split; [set_solver|]. by rewrite Hst', Hst1.
Qed.
End RMFacts.

(** ** LargeBuffer: what each member function does to the store *)

Section LBFacts.
Import LargeBuffer.
Implicit Types w : world.

Lemma LB_fill_loop_block w this a n v blk :
  objs w !! this = Some (Obj (Some a) n) →
  Heap.blocks (heap w) !! a = Some blk → length blk = n →
  fill_loop this v w =
  Some (tt, Store (Heap.with_block (heap w) a (replicate n v)) (objs w) (stats w)).
Proof.
  intros Ho Hblk Hlen. unfold fill_loop, bind at 1, object at 1. rewrite Ho. simpl.
  rewrite (for_range_on_heap (fun i => Heap.store (Some a) i v)).
  - unfold on_heap. change (for_range 0 n _) with (Heap.fill (Some a) n v).
    erewrite fill_spec by done. unfold Heap.with_block.
    by rewrite fmap_replicate.
  - intros j h. unfold bind, object. simpl. by rewrite Ho.
Qed.

Lemma LB_fill_loop_empty w this p v :
  objs w !! this = Some (Obj p 0) →
  fill_loop this v w = Some (tt, w).
Proof.
  intros Ho. unfold fill_loop, bind at 1, object at 1. by rewrite Ho.
Qed.

Lemma LB_copy_loop_block w this other a b n (C : list Z) blk :
  a ≠ b →
  objs w !! this = Some (Obj (Some b) n) →
  objs w !! other = Some (Obj (Some a) n) →
  Heap.blocks (heap w) !! a = Some (Some <$> C) →
  Heap.blocks (heap w) !! b = Some blk →
  length blk = n → length C = n →
  copy_loop this other w =
  Some (tt, Store (Heap.with_block (heap w) b C) (objs w) (stats w)).
Proof.
  intros Hab Ht Ho Ha Hb Hlen HlenC.
  unfold copy_loop, bind at 1, object at 1. rewrite Ht. simpl.
  rewrite (for_range_on_heap
             (fun i => v <- Heap.load (Some a) i ;; Heap.store (Some b) i v)).
  - unfold on_heap. change (for_range 0 n _) with (Heap.copy (Some a) n (Some b)).
    by erewrite copy_spec.
  - intros j h. unfold bind, object, on_heap. simpl. rewrite Ho. simpl.
    destruct (Heap.load (Some a) j h) as [[v h']|]; [|done].
    simpl. by rewrite Ht.
Qed.

Lemma LB_copy_loop_empty w this other p :
  objs w !! this = Some (Obj p 0) →
  copy_loop this other w = Some (tt, w).
Proof.
  intros Ho. unfold copy_loop, bind at 1, object at 1. by rewrite Ho.
Qed.

Lemma LB_ctor_exec n w :
  ctor n w =
  Some (fresh (dom (objs w)),
        Store (Heap.with_block (heap w) (Heap.fresh_addr (heap w)) (replicate n 0%Z))
              (<[fresh (dom (objs w)) := Obj (Some (Heap.fresh_addr (heap w))) n]> (objs w))
              (stats w)).
Proof.
  unfold ctor, bind, begin_object, on_heap, ret. simpl.
  erewrite LB_fill_loop_block;
    [|apply lookup_insert_eq|apply lookup_insert_eq|by rewrite length_replicate].
  unfold Heap.with_block. simpl. by rewrite insert_insert_eq.
Qed.

Lemma LB_copy_ctor_exec w other p (C : list Z) :
  owns w other p C →
  copy_ctor other w =
  Some (fresh (dom (objs w)),
        Store (Heap.with_block (heap w) (Heap.fresh_addr (heap w)) C)
              (<[fresh (dom (objs w)) := Obj (Some (Heap.fresh_addr (heap w))) (length C)]>
                 (objs w))
              (incr_copy (stats w))).
Proof.
  intros [Ho Hblk].
  unfold copy_ctor, bind, begin_object, object, on_stats, on_heap, modify, ret.
  rewrite Ho. simpl.
  destruct p as [a|].
  - assert (a ≠ Heap.fresh_addr (heap w)) as Hne.
    { intros ->. by rewrite fresh_addr_not_live in Hblk. }
    erewrite LB_copy_loop_block;
      [|exact Hne|apply lookup_insert_eq
       |by simpl; rewrite lookup_insert_ne by store_ne
       |by simpl; rewrite lookup_insert_ne
       |apply lookup_insert_eq|by rewrite length_replicate|done].
    unfold Heap.with_block. simpl. by rewrite insert_insert_eq.
  - subst C. erewrite LB_copy_loop_empty by apply lookup_insert_eq.
    done.
Qed.

Lemma LB_move_ctor_exec w other o :
  objs w !! other = Some o →
  move_ctor other w =
  Some (fresh (dom (objs w)),
        Store (heap w)
              (<[other := Obj None 0]> (<[fresh (dom (objs w)) := o]> (objs w)))
              (incr_move (stats w))).
Proof.
  intros Ho.
  unfold move_ctor, bind, begin_object, object, update, on_stats, modify, ret.
  run_store. rewrite insert_insert_eq. by destruct o.
Qed.

Lemma LB_dtor_null w this n :
  objs w !! this = Some (Obj None n) →
  dtor this w = Some (tt, Store (heap w) (delete this (objs w)) (stats w)).
Proof.
  intros Ho.
  unfold dtor, bind, object, end_object, on_heap, ret.
  by run_store.
Qed.

Lemma LB_dtor_block w this a n blk :
  objs w !! this = Some (Obj (Some a) n) →
  Heap.blocks (heap w) !! a = Some blk →
  dtor this w =
  Some (tt, Store (Heap.mk (delete a (Heap.blocks (heap w)))
                           (a :: Heap.released (heap w)))
                  (delete this (objs w)) (stats w)).
Proof.
  intros Ho Hblk.
  unfold dtor, bind, object, end_object, on_heap, ret.
  run_store. rewrite Hblk. by run_store.
Qed.

Lemma LB_self_copy_assign w this : copy_assign this this w = Some (tt, w).
Proof. unfold copy_assign. by destruct (decide (this ≠ this)). Qed.

Lemma LB_self_move_assign w this : move_assign this this w = Some (tt, w).
Proof. unfold move_assign. by destruct (decide (this ≠ this)). Qed.

Lemma LB_fill_spec w this p (C : list Z) v :
  owns w this p C →
  fill this v w =
  Some (tt, Store (match p with
                   | Some a => Heap.with_block (heap w) a (replicate (length C) v)
                   | None => heap w
                   end) (objs w) (stats w)).
Proof.
  intros [Ho Hblk]. unfold fill. destruct p as [a|].
  - erewrite LB_fill_loop_block; [done|done|done|by rewrite length_fmap].
  - subst C. erewrite LB_fill_loop_empty by done. by rewrite store_eta.
Qed.
Local Ltac exists_store p :=
  eexists _, p; split; [done|]; unfold owns; simpl;
  repeat split; simplify_map_eq; try done.

Lemma LB_copy_assign_spec w this other pd Cd ps Cs :
  this ≠ other →
  owns w this pd Cd → owns w other ps Cs →
  (∀ a, pd = Some a → ps ≠ Some a) →
  ∃ w' q,
    copy_assign this other w = Some (tt, w') ∧
    stats w' = incr_copy (stats w) ∧
    Heap.released (heap w') = Heap.released_by pd ++ Heap.released (heap w) ∧
    owns w' this (Some q) Cs ∧ owns w' other ps Cs ∧
    ps ≠ Some q.
Proof.
  intros Hne [Ht Hd] [Ho Hs] Hdisj.
  unfold copy_assign. destruct (decide (this ≠ other)); [|done].
  unfold bind, object, update, on_stats, on_heap, modify, ret.
  rewrite Ht. simpl.
  set (h1 := Heap.release pd (heap w)).
  assert (Heap.delete_array pd (heap w) = Some (tt, h1)) as ->.
  { destruct pd as [a|]; simpl; [by rewrite Hd|done]. }
  assert (Heap.released h1 = Heap.released_by pd ++ Heap.released (heap w)) as Hrel.
  { by destruct pd. }
  assert (match ps with
          | Some a => Heap.blocks h1 !! a = Some (Some <$> Cs)
          | None => Cs = []
          end) as Hs1.
  { destruct ps as [a|]; [|done]. destruct pd as [a'|]; [|done].
    simpl. rewrite lookup_delete_ne; [done|]. intros ->. by eapply Hdisj. }
  run_store. rewrite insert_insert_eq.
  destruct ps as [a|].
  - assert (a ≠ Heap.fresh_addr h1) as Hfr.
    { intros ->. by rewrite fresh_addr_not_live in Hs1. }
    erewrite LB_copy_loop_block;
      [|exact Hfr|apply lookup_insert_eq
       |by simpl; rewrite lookup_insert_ne
       |by simpl; rewrite lookup_insert_ne
       |apply lookup_insert_eq|by rewrite length_replicate|done].
    unfold Heap.with_block. simpl. rewrite insert_insert_eq.
    exists_store (Heap.fresh_addr h1).
    intros [= ->]. done.
  - subst Cs. erewrite LB_copy_loop_empty by apply lookup_insert_eq.
    exists_store (Heap.fresh_addr h1).
Qed.

Lemma LB_move_assign_spec w this other pd Cd ps Cs :
  this ≠ other →
  owns w this pd Cd → owns w other ps Cs →
  (∀ a, pd = Some a → ps ≠ Some a) →
  ∃ w',
    move_assign this other w = Some (tt, w') ∧
    stats w' = incr_move (stats w) ∧
    Heap.released (heap w') = Heap.released_by pd ++ Heap.released (heap w) ∧
    owns w' this ps Cs ∧ owns w' other None [].
Proof.
  intros Hne [Ht Hd] [Ho Hs] Hdisj.
  unfold move_assign. destruct (decide (this ≠ other)); [|done].
  unfold bind, object, update, on_stats, on_heap, modify, ret.
  rewrite Ht. simpl.
  set (h1 := Heap.release pd (heap w)).
  assert (Heap.delete_array pd (heap w) = Some (tt, h1)) as ->.
  { destruct pd as [a|]; simpl; [by rewrite Hd|done]. }
  assert (Heap.released h1 = Heap.released_by pd ++ Heap.released (heap w)) as Hrel.
  { by destruct pd. }
  assert (match ps with
          | Some a => Heap.blocks h1 !! a = Some (Some <$> Cs)
          | None => Cs = []
          end) as Hs1.
  { destruct ps as [a|]; [|done]. destruct pd as [a'|]; [|done].
    simpl. rewrite lookup_delete_ne; [done|]. intros ->. by eapply Hdisj. }
  run_store.
  eexists. split; [done|]. unfold owns. simpl.
  repeat split; simplify_map_eq; done.
Qed.

Lemma LB_wf_new_block w q C st :
  wf w → Heap.blocks (heap w) !! q = None →
  wf (Store (Heap.with_block (heap w) q C)
            (<[fresh (dom (objs w)) := Obj (Some q) (length C)]> (objs w)) st).
Proof.
  intros Hwf Hq this o. simpl. intros Hl.
  destruct (decide (this = fresh (dom (objs w)))) as [->|Hne].
  - rewrite lookup_insert_eq in Hl. injection Hl as <-.
    exists C. split; simpl; by rewrite lookup_insert_eq.
  - rewrite lookup_insert_ne in Hl by done.
    destruct (Hwf _ _ Hl) as (C' & Ho & Hb). exists C'.
    split; simpl; [by rewrite lookup_insert_ne|].
    destruct (data_ o) as [a|]; [|done].
    rewrite lookup_insert_ne; [done|]. intros ->. congruence.
Qed.

Lemma LB_wf_moved w other o st :
  wf w → objs w !! other = Some o →
  wf (Store (heap w)
            (<[other := Obj None 0]> (<[fresh (dom (objs w)) := o]> (objs w))) st).
Proof.
  intros Hwf Ho this o'. simpl. intros Hl.
  destruct (decide (this = other)) as [->|Hne].
  - rewrite lookup_insert_eq in Hl. injection Hl as <-.
    exists []. split; simpl; [by rewrite lookup_insert_eq|done].
  - rewrite lookup_insert_ne in Hl by done.
    destruct (decide (this = fresh (dom (objs w)))) as [->|Hne'].
    + rewrite lookup_insert_eq in Hl. injection Hl as <-.
      destruct (Hwf _ _ Ho) as (C & Ho' & Hb). exists C.
      split; simpl; [|done].
      rewrite lookup_insert_ne, lookup_insert_eq by done.
      rewrite Ho in Ho'. by injection Ho' as ->.
    + rewrite lookup_insert_ne in Hl by done.
      destruct (Hwf _ _ Hl) as (C & Ho' & Hb). exists C.
      split; simpl; [|done]. by rewrite !lookup_insert_ne.
Qed.

Lemma LB_ctor_total n w :
  wf w →
  ∃ this w', ctor n w = Some (this, w') ∧ wf w' ∧
             dom (objs w) ⊆ dom (objs w') ∧ stats w' = stats w.
Proof.
  intros Hwf. rewrite LB_ctor_exec. eexists _, _. split; [done|].
  split; [|simpl; split; [set_solver|done]].
  rewrite <- (length_replicate n 0%Z) at 2.
  apply LB_wf_new_block; [done|apply fresh_addr_not_live].
Qed.

Lemma LB_copy_ctor_total other w :
  wf w → is_Some (objs w !! other) →
  ∃ this w', copy_ctor other w = Some (this, w') ∧ wf w' ∧
             dom (objs w) ⊆ dom (objs w') ∧
             stats w' = incr_copy (stats w).
Proof.
  intros Hwf [o Ho]. destruct (Hwf _ _ Ho) as (C & Hown).
  rewrite (LB_copy_ctor_exec _ _ _ _ Hown). eexists _, _. split; [done|].
  split; [|simpl; split; [set_solver|done]].
  apply LB_wf_new_block; [done|apply fresh_addr_not_live].
Qed.

Lemma LB_move_ctor_total other w :
  wf w → is_Some (objs w !! other) →
  ∃ this w', move_ctor other w = Some (this, w') ∧ wf w' ∧
             dom (objs w) ⊆ dom (objs w') ∧
             stats w' = incr_move (stats w).
Proof.
  intros Hwf [o Ho]. rewrite (LB_move_ctor_exec _ _ _ Ho).
  eexists _, _. split; [done|].
  split; [by apply LB_wf_moved|simpl; split; [set_solver|done]].
Qed.

Lemma LB_run_total cs : ∀ w,
  wf w →
  (∀ c x, c ∈ cs → x ∈ reads c → is_Some (objs w !! x)) →
  ∃ w', run cs w = Some (tt, w') ∧ wf w' ∧
        dom (objs w) ⊆ dom (objs w') ∧
        stats w' = foldl count (stats w) cs.
Proof.
  induction cs as [|c cs IH]; intros w Hwf Hlive; simpl.
  - by exists w.
  - assert (∃ w1, step c w = Some (tt, w1) ∧ wf w1 ∧
                  dom (objs w) ⊆ dom (objs w1) ∧
                  stats w1 = count (stats w) c) as (w1 & Hs & Hwf1 & Hd1 & Hst1).
    { destruct c as [n|x|x]; simpl; unfold bind, ret.
      - destruct (LB_ctor_total n w Hwf) as (this & w1 & -> & ? & ? & ?).
        by exists w1.
      - destruct (LB_copy_ctor_total x w Hwf) as (this & w1 & -> & ? & ? & ?).
        { apply (Hlive (Duplicate x)); [left|simpl; left]. }
        by exists w1.
      - destruct (LB_move_ctor_total x w Hwf) as (this & w1 & -> & ? & ? & ?).
        { apply (Hlive (Transfer x)); [left|simpl; left]. }
        by exists w1. }
    destruct (IH w1 Hwf1) as (w' & Hr & Hwf' & Hd' & Hst').
    { intros c' x Hc' Hx. apply elem_of_dom, Hd1, elem_of_dom.
      apply (Hlive c' x); [by right|done]. }
    exists w'. unfold bind. rewrite Hs, Hr.
    split; [done|]. split; [done|]. split; [set_solver|]. by rewrite Hst', Hst1.
Qed.
End LBFacts.

(** ** OwnedBuffer: creation, transfer, duplication, self-assignment *)

(** C1: transferring buffer [a] (length [length C], contents [C], storage
    [p]) into a new buffer [b] succeeds; afterwards [a] has length 0 and
    holds no buffer, and [b] has the length and the contents of [a] in the
    very storage [p]; the heap itself is untouched.  Both for
    ResourceManager and for LargeBuffer. *)
Theorem transfer_moves_storage
    (wr : ResourceManager.world) (wl : LargeBuffer.world)
    (a a' : nat) (p p' : Heap.ptr) (C C' : list Z) :
  ResourceManager.owns wr a p C →
  LargeBuffer.owns wl a' p' C' →
  (∃ b w',
      ResourceManager.move_ctor a wr = Some (b, w') ∧
      objs wr !! b = None ∧
      ResourceManager.owns w' a Heap.nullptr [] ∧
      ResourceManager.owns w' b p C ∧
      heap w' = heap wr ∧
      ResourceManager.size a w' = Some (0, w') ∧
      ResourceManager.is_valid a w' = Some (false, w') ∧
      ResourceManager.size b w' = Some (length C, w') ∧
      ResourceManager.data b w' = Some (p, w')) ∧
  (∃ b w',
      LargeBuffer.move_ctor a' wl = Some (b, w') ∧
      objs wl !! b = None ∧
      LargeBuffer.owns w' a' Heap.nullptr [] ∧
      LargeBuffer.owns w' b p' C' ∧
      heap w' = heap wl ∧
      LargeBuffer.size a' w' = Some (0, w') ∧
      LargeBuffer.size b w' = Some (length C', w')).
Proof.
  intros [Ha Hp] [Ha' Hp']. split.
  - rewrite (RM_move_ctor_exec _ _ _ Ha).
    assert (a ≠ fresh (dom (objs wr))) as Hne by by eapply live_not_fresh.
    eexists _, _. split; [done|].
    split; [apply fresh_object_not_live|].
    unfold ResourceManager.owns, ResourceManager.size, ResourceManager.is_valid,
      ResourceManager.data, bind, object, ret. simpl.
    rewrite lookup_insert_eq, lookup_insert_ne, lookup_insert_eq by done.
    by repeat split.
  - rewrite (LB_move_ctor_exec _ _ _ Ha').
    assert (a' ≠ fresh (dom (objs wl))) as Hne by by eapply live_not_fresh.
    eexists _, _. split; [done|].
    split; [apply fresh_object_not_live|].
    unfold LargeBuffer.owns, LargeBuffer.size, bind, object, ret. simpl.
    rewrite lookup_insert_eq, lookup_insert_ne, lookup_insert_eq by done.
    by repeat split.
Qed.

(** C7: self-assignment, by copy or by move, returns with the whole store
    unchanged: the object, its length, its storage and contents, the log of
    released blocks and the counters.  Both for ResourceManager and for
    LargeBuffer. *)
Theorem self_assignment_changes_nothing :
  (∀ (w : ResourceManager.world) a,
      ResourceManager.copy_assign a a w = Some (tt, w) ∧
      ResourceManager.move_assign a a w = Some (tt, w)) ∧
  (∀ (w : LargeBuffer.world) a,
      LargeBuffer.copy_assign a a w = Some (tt, w) ∧
      LargeBuffer.move_assign a a w = Some (tt, w)).
Proof.
  split; intros w a; split.
  - apply RM_self_copy_assign.
  - apply RM_self_move_assign.
  - apply LB_self_copy_assign.
  - apply LB_self_move_assign.
Qed.


(** The transfer out of the sample buffers holding 5 and 7. *)
Lemma transfer_moves_storage_witness :
  ResourceManager.owns ResourceManager.sample 0 (Some 0) [5; 7]%Z ∧
  LargeBuffer.owns LargeBuffer.sample 0 (Some 0) [5; 7]%Z ∧
  (∃ b w',
      ResourceManager.move_ctor 0 ResourceManager.sample = Some (b, w') ∧
      ResourceManager.owns w' 0 Heap.nullptr [] ∧
      ResourceManager.owns w' b (Some 0) [5; 7]%Z) ∧
  (∃ b w',
      LargeBuffer.move_ctor 0 LargeBuffer.sample = Some (b, w') ∧
      LargeBuffer.owns w' 0 Heap.nullptr [] ∧
      LargeBuffer.owns w' b (Some 0) [5; 7]%Z).
Proof.
  assert (ResourceManager.owns ResourceManager.sample 0 (Some 0) [5; 7]%Z) as Hr
    by (split; reflexivity).
  assert (LargeBuffer.owns LargeBuffer.sample 0 (Some 0) [5; 7]%Z) as Hl
    by (split; reflexivity).
  split; [exact Hr|]. split; [exact Hl|].
  destruct (transfer_moves_storage _ _ _ _ _ _ _ _ Hr Hl)
    as [(b & w' & ? & _ & ? & ? & _) (b' & w'' & ? & _ & ? & ? & _)].
  split; [by exists b, w'|by exists b', w''].
Defined.



(** C3: duplicating buffer [a] (storage [p], contents [C]) succeeds and
    gives a new buffer [b] of the same length with element-wise equal
    contents in storage [q] of its own; [a] is as before.  Writing to the
    storage of one never changes the other: for ResourceManager, a write
    through either data pointer at any index in range; for LargeBuffer,
    [fill] on either buffer. *)
Theorem duplicate_is_independent
    (wr : ResourceManager.world) (wl : LargeBuffer.world)
    (a a' : nat) (p p' : Heap.ptr) (C C' : list Z) :
  ResourceManager.owns wr a p C →
  LargeBuffer.owns wl a' p' C' →
  (∃ b w' q,
      ResourceManager.copy_ctor a wr = Some (b, w') ∧
      objs wr !! b = None ∧
      ResourceManager.owns w' a p C ∧
      ResourceManager.owns w' b q C ∧
      ResourceManager.size b w' = Some (length C, w') ∧
      (∀ x, q = Some x → p ≠ Some x) ∧
      (∀ i v, i < length C → ∃ h',
          Heap.store q i v (heap w') = Some (tt, h') ∧
          ResourceManager.owns (Store h' (objs w') (stats w')) a p C ∧
          ResourceManager.owns (Store h' (objs w') (stats w')) b q (<[i := v]> C)) ∧
      (∀ i v, i < length C → ∃ h',
          Heap.store p i v (heap w') = Some (tt, h') ∧
          ResourceManager.owns (Store h' (objs w') (stats w')) a p (<[i := v]> C) ∧
          ResourceManager.owns (Store h' (objs w') (stats w')) b q C)) ∧
  (∃ b w' q,
      LargeBuffer.copy_ctor a' wl = Some (b, w') ∧
      objs wl !! b = None ∧
      LargeBuffer.owns w' a' p' C' ∧
      LargeBuffer.owns w' b (Some q) C' ∧
      LargeBuffer.size b w' = Some (length C', w') ∧
      p' ≠ Some q ∧
      (∀ v, ∃ w'',
          LargeBuffer.fill b v w' = Some (tt, w'') ∧
          LargeBuffer.owns w'' a' p' C' ∧
          LargeBuffer.owns w'' b (Some q) (replicate (length C') v)) ∧
      (∀ v, ∃ w'',
          LargeBuffer.fill a' v w' = Some (tt, w'') ∧
          LargeBuffer.owns w'' a' p' (replicate (length C') v) ∧
          LargeBuffer.owns w'' b (Some q) C')).
Proof.
  intros Hr Hl. split.
  - pose proof Hr as [Ha Hp].
    assert (a ≠ fresh (dom (objs wr))) as Hne by by eapply live_not_fresh.
    destruct (decide (0 < length C)) as [Hn|Hn].
    + destruct p as [pa|]; [|subst C; simpl in Hn; lia].
      assert (pa ≠ Heap.fresh_addr (heap wr)) as Hfr.
      { intros ->. by rewrite fresh_addr_not_live in Hp. }
      rewrite (RM_copy_ctor_block _ _ _ _ Hr Hn).
      set (w' := Store _ _ _).
      assert (ResourceManager.owns w' a (Some pa) C) as Ha1.
      { split; simpl; by rewrite lookup_insert_ne. }
      assert (ResourceManager.owns w' (fresh (dom (objs wr)))
                (Some (Heap.fresh_addr (heap wr))) C) as Hb1.
      { split; simpl; by rewrite lookup_insert_eq. }
      exists (fresh (dom (objs wr))), w', (Some (Heap.fresh_addr (heap wr))).
      split; [done|].
      split; [apply fresh_object_not_live|].
      split; [done|]. split; [done|].
      split.
      { unfold ResourceManager.size, bind, object, ret. by rewrite (proj1 Hb1). }
      split; [by intros x [= <-] [= ->]|].
      split; intros i v Hi.
      * eexists. split; [apply store_exec; [apply Hb1|done]|].
        unfold ResourceManager.owns. simpl.
        rewrite length_insert, !lookup_insert_eq.
        by rewrite !lookup_insert_ne by done.
      * eexists. split; [apply store_exec; [apply Ha1|done]|].
        unfold ResourceManager.owns. simpl.
        rewrite length_insert, !lookup_insert_eq.
        by rewrite !lookup_insert_ne, lookup_insert_eq by done.
    + assert (C = []) as -> by (destruct C; [done|simpl in Hn; lia]).
      simpl in Ha. rewrite (RM_copy_ctor_empty _ _ _ Ha).
      eexists _, _, Heap.nullptr. split; [done|].
      split; [apply fresh_object_not_live|].
      unfold ResourceManager.owns, ResourceManager.size, bind, object, ret. simpl.
      rewrite !lookup_insert_eq. rewrite !lookup_insert_ne by done.
      repeat split; try done; intros; simpl in *; lia.
  - pose proof Hl as [Ha Hp].
    assert (a' ≠ fresh (dom (objs wl))) as Hne by by eapply live_not_fresh.
    assert (p' ≠ Some (Heap.fresh_addr (heap wl))) as Hfr.
    { intros ->. by rewrite fresh_addr_not_live in Hp. }
    rewrite (LB_copy_ctor_exec _ _ _ _ Hl).
    set (w' := Store _ _ _).
    assert (LargeBuffer.owns w' a' p' C') as Ha1.
    { split; simpl; [by rewrite lookup_insert_ne|].
      destruct p' as [pa|]; [|done]. rewrite lookup_insert_ne; [done|congruence]. }
    assert (LargeBuffer.owns w' (fresh (dom (objs wl)))
              (Some (Heap.fresh_addr (heap wl))) C') as Hb1.
    { split; simpl; by rewrite lookup_insert_eq. }
    eexists _, w', _. split; [done|].
    split; [apply fresh_object_not_live|].
    split; [done|]. split; [done|].
    split.
    { unfold LargeBuffer.size, bind, object, ret. by rewrite (proj1 Hb1). }
    split; [done|]. split; intros v.
    + rewrite (LB_fill_spec _ _ _ _ v Hb1). eexists. split; [done|].
      unfold LargeBuffer.owns. simpl.
      rewrite !lookup_insert_eq, length_replicate.
      rewrite lookup_insert_ne by done.
      repeat split; try done.
      destruct p' as [pa|]; [|done]. rewrite !lookup_insert_ne by congruence. done.
    + rewrite (LB_fill_spec _ _ _ _ v Ha1). eexists. split; [done|].
      unfold LargeBuffer.owns. simpl.
      rewrite !lookup_insert_eq, length_replicate.
      rewrite lookup_insert_ne by done.
      destruct p' as [pa|]; simpl.
      * rewrite lookup_insert_eq, lookup_insert_ne, lookup_insert_eq by congruence.
        done.
      * rewrite lookup_insert_eq. by subst C'.
Qed.

(** The duplication of the sample buffers holding 5 and 7. *)
Lemma duplicate_is_independent_witness :
  ResourceManager.owns ResourceManager.sample 0 (Some 0) [5; 7]%Z ∧
  LargeBuffer.owns LargeBuffer.sample 0 (Some 0) [5; 7]%Z ∧
  (∃ b w' q,
      ResourceManager.copy_ctor 0 ResourceManager.sample = Some (b, w') ∧
      ResourceManager.owns w' 0 (Some 0) [5; 7]%Z ∧
      ResourceManager.owns w' b q [5; 7]%Z) ∧
  (∃ b w' q,
      LargeBuffer.copy_ctor 0 LargeBuffer.sample = Some (b, w') ∧
      LargeBuffer.owns w' 0 (Some 0) [5; 7]%Z ∧
      LargeBuffer.owns w' b (Some q) [5; 7]%Z).
Proof.
  assert (ResourceManager.owns ResourceManager.sample 0 (Some 0) [5; 7]%Z) as Hr
    by (split; reflexivity).
  assert (LargeBuffer.owns LargeBuffer.sample 0 (Some 0) [5; 7]%Z) as Hl
    by (split; reflexivity).
  split; [exact Hr|]. split; [exact Hl|].
  destruct (duplicate_is_independent _ _ _ _ _ _ _ _ Hr Hl)
    as [(b & w' & q & ? & _ & ? & ? & _) (b' & w'' & q' & ? & _ & ? & ? & _)].
  split; [by exists b, w', q|by exists b', w'', q'].
Defined.

(** ** OwnedBuffer: the counters *)

Lemma size_incr_small (c : Z) :
  (0 ≤ c < 2 ^ 64 - 1)%Z → size_incr c = (c + 1)%Z.
Proof. intros Hc. unfold size_incr, size_wrap. apply Z.mod_small. lia. Qed.

Lemma int_incr_small (c : Z) :
  (- 2 ^ 31 ≤ c < 2 ^ 31 - 1)%Z → int_incr c = (c + 1)%Z.
Proof.
  intros Hc. unfold int_incr, int_wrap. rewrite Z.mod_small by lia. lia.
Qed.

Lemma int_decr_small (c : Z) :
  (- 2 ^ 31 < c < 2 ^ 31)%Z → int_decr c = (c - 1)%Z.
Proof.
  intros Hc. unfold int_decr, int_wrap. rewrite Z.mod_small by lia. lia.
Qed.

(** C9, as the code has it: for distinct buffers [d] and [s] with storage
    of their own, both assignment forms first release the block [d] owned
    and then give [d] the contents of [s].  LargeBuffer's copy assignment
    adds one to [copy_count_] and its move assignment adds one to
    [move_count_] (in [size_t] arithmetic, so exactly one below the
    maximum), the other counter staying as it was; ResourceManager's
    assignments leave all four counters unchanged. *)
Theorem assignment_counters
    (wr : ResourceManager.world) (wl : LargeBuffer.world)
    (d s d' s' : nat) (pd ps pd' ps' : Heap.ptr) (Cd Cs Cd' Cs' : list Z) :
  d ≠ s →
  ResourceManager.owns wr d pd Cd → ResourceManager.owns wr s ps Cs →
  (∀ a, pd = Some a → ps ≠ Some a) →
  d' ≠ s' →
  LargeBuffer.owns wl d' pd' Cd' → LargeBuffer.owns wl s' ps' Cs' →
  (∀ a, pd' = Some a → ps' ≠ Some a) →
  (∃ w' q,
      LargeBuffer.copy_assign d' s' wl = Some (tt, w') ∧
      LargeBuffer.copy_count_ (stats w') =
        size_incr (LargeBuffer.copy_count_ (stats wl)) ∧
      ((0 ≤ LargeBuffer.copy_count_ (stats wl) < 2 ^ 64 - 1)%Z →
       LargeBuffer.copy_count_ (stats w') =
         (LargeBuffer.copy_count_ (stats wl) + 1)%Z) ∧
      LargeBuffer.move_count_ (stats w') = LargeBuffer.move_count_ (stats wl) ∧
      Heap.released (heap w') = Heap.released_by pd' ++ Heap.released (heap wl) ∧
      LargeBuffer.owns w' d' (Some q) Cs' ∧ LargeBuffer.owns w' s' ps' Cs') ∧
  (∃ w',
      LargeBuffer.move_assign d' s' wl = Some (tt, w') ∧
      LargeBuffer.move_count_ (stats w') =
        size_incr (LargeBuffer.move_count_ (stats wl)) ∧
      ((0 ≤ LargeBuffer.move_count_ (stats wl) < 2 ^ 64 - 1)%Z →
       LargeBuffer.move_count_ (stats w') =
         (LargeBuffer.move_count_ (stats wl) + 1)%Z) ∧
      LargeBuffer.copy_count_ (stats w') = LargeBuffer.copy_count_ (stats wl) ∧
      Heap.released (heap w') = Heap.released_by pd' ++ Heap.released (heap wl) ∧
      LargeBuffer.owns w' d' ps' Cs' ∧ LargeBuffer.owns w' s' Heap.nullptr []) ∧
  (∃ w' q,
      ResourceManager.copy_assign d s wr = Some (tt, w') ∧
      stats w' = stats wr ∧
      Heap.released (heap w') = Heap.released_by pd ++ Heap.released (heap wr) ∧
      ResourceManager.owns w' d q Cs ∧ ResourceManager.owns w' s ps Cs) ∧
  (∃ w',
      ResourceManager.move_assign d s wr = Some (tt, w') ∧
      stats w' = stats wr ∧
      Heap.released (heap w') = Heap.released_by pd ++ Heap.released (heap wr) ∧
      ResourceManager.owns w' d ps Cs ∧ ResourceManager.owns w' s Heap.nullptr []).
Proof.
  intros Hne Hd Hs Hdisj Hne' Hd' Hs' Hdisj'.
  split; [|split; [|split]].
  - destruct (LB_copy_assign_spec _ _ _ _ _ _ _ Hne' Hd' Hs' Hdisj')
      as (w' & q & Hrun & Hst & Hrel & Hod & Hos & _).
    exists w', q. rewrite Hst. simpl.
    split; [done|]. split; [done|].
    split; [intros Hc; by apply size_incr_small|done].
  - destruct (LB_move_assign_spec _ _ _ _ _ _ _ Hne' Hd' Hs' Hdisj')
      as (w' & Hrun & Hst & Hrel & Hod & Hos).
    exists w'. rewrite Hst. simpl.
    split; [done|]. split; [done|].
    split; [intros Hc; by apply size_incr_small|done].
  - destruct (RM_copy_assign_spec _ _ _ _ _ _ _ Hne Hd Hs Hdisj)
      as (w' & q & Hrun & Hst & Hrel & Hod & Hos & _).
    by exists w', q.
  - destruct (RM_move_assign_spec _ _ _ _ _ _ _ Hne Hd Hs Hdisj)
      as (w' & Hrun & Hst & Hrel & Hod & Hos).
    by exists w'.
Qed.

(** Assignment of the buffer holding 5 and 7 to the buffer holding 9. *)
Lemma assignment_counters_witness :
  (∃ w' q,
      LargeBuffer.copy_assign 1 0 LargeBuffer.pair = Some (tt, w') ∧
      LargeBuffer.copy_count_ (stats w') = 1%Z ∧
      Heap.released (heap w') = [1] ∧
      LargeBuffer.owns w' 1 (Some q) [5; 7]%Z) ∧
  (∃ w',
      ResourceManager.move_assign 1 0 ResourceManager.pair = Some (tt, w') ∧
      stats w' = ResourceManager.Counters 0 0 0 0 ∧
      Heap.released (heap w') = [1] ∧
      ResourceManager.owns w' 1 (Some 0) [5; 7]%Z).
Proof.
  assert (ResourceManager.owns ResourceManager.pair 1 (Some 1) [9]%Z) as Hd
    by (split; reflexivity).
  assert (ResourceManager.owns ResourceManager.pair 0 (Some 0) [5; 7]%Z) as Hs
    by (split; reflexivity).
  assert (LargeBuffer.owns LargeBuffer.pair 1 (Some 1) [9]%Z) as Hd'
    by (split; reflexivity).
  assert (LargeBuffer.owns LargeBuffer.pair 0 (Some 0) [5; 7]%Z) as Hs'
    by (split; reflexivity).
  assert (∀ a, Some 1 = Some a → Some 0 ≠ Some a) as Hdisj
    by (intros a [= <-]; discriminate).
  assert (1 ≠ 0) as Hne by discriminate.
  destruct (assignment_counters _ _ _ _ _ _ _ _ _ _ _ _ _ _
              Hne Hd Hs Hdisj Hne Hd' Hs' Hdisj)
    as ((w1 & q & H1 & H1c & _ & _ & H1r & H1o & _) & _ & _ &
        (w2 & H2 & H2s & H2r & H2o & _)).
  split; [by exists w1, q|by exists w2].
Defined.

(** C9 fails as stated for ResourceManager: its copy assignment between
    two distinct buffers does not add one to the duplication counter, and
    its move assignment does not add one to the transfer counter. *)
Lemma assignment_counters_counterexample :
  ¬ (∃ w',
        ResourceManager.copy_assign 1 0 ResourceManager.pair = Some (tt, w') ∧
        ResourceManager.copy_constructions_ (stats w') =
          (ResourceManager.copy_constructions_ (stats ResourceManager.pair) + 1)%Z) ∧
  ¬ (∃ w',
        ResourceManager.move_assign 1 0 ResourceManager.pair = Some (tt, w') ∧
        ResourceManager.move_constructions_ (stats w') =
          (ResourceManager.move_constructions_ (stats ResourceManager.pair) + 1)%Z).
Proof.
  split; intros (w' & H & Hc); vm_compute in H; injection H as <-;
    vm_compute in Hc; discriminate.
Qed.
Lemma Permutation_three {A} (a b c : A) (l : list A) :
  l ≡ₚ [a; b; c] →
  l ∈ [[a; b; c]; [b; a; c]; [b; c; a]; [a; c; b]; [c; a; b]; [c; b; a]].
Proof.
  intros Hp. symmetry in Hp. apply permutations_Permutation in Hp.
  exact Hp.
Qed.

Lemma RM_wf_stats (w : ResourceManager.world) st :
  ResourceManager.wf w → ResourceManager.wf (Store (heap w) (objs w) st).
Proof. intros Hwf this o Ho. exact (Hwf this o Ho). Qed.

Lemma LB_wf_stats (w : LargeBuffer.world) st :
  LargeBuffer.wf w → LargeBuffer.wf (Store (heap w) (objs w) st).
Proof. intros Hwf this o Ho. exact (Hwf this o Ho). Qed.

(** C8: after the counters are reset, one creation, one duplication of a
    live buffer [x] and one transfer out of a live buffer [y], run in any
    of their orders [cs], all succeed and leave the counters of
    ResourceManager at construction 1, duplication 1, transfer 1
    (destruction 0), and the two counters of LargeBuffer at duplication 1,
    transfer 1. *)
Theorem counters_after_reset
    (wr : ResourceManager.world) (wl : LargeBuffer.world)
    (n x y n' x' y' : nat)
    (cs : list ResourceManager.op) (cs' : list LargeBuffer.op) :
  ResourceManager.wf wr →
  is_Some (objs wr !! x) → is_Some (objs wr !! y) →
  cs ≡ₚ [ResourceManager.Create n; ResourceManager.Duplicate x;
         ResourceManager.Transfer y] →
  LargeBuffer.wf wl →
  is_Some (objs wl !! x') → is_Some (objs wl !! y') →
  cs' ≡ₚ [LargeBuffer.Create n'; LargeBuffer.Duplicate x';
          LargeBuffer.Transfer y'] →
  (∃ w', (ResourceManager.reset_stats ;; ResourceManager.run cs) wr = Some (tt, w') ∧
         stats w' = ResourceManager.Counters 1 1 1 0) ∧
  (∃ w', (LargeBuffer.reset_counts ;; LargeBuffer.run cs') wl = Some (tt, w') ∧
         stats w' = LargeBuffer.Counters 1 1).
Proof.
  intros Hwf Hx Hy Hp Hwf' Hx' Hy' Hp'. split.
  - unfold bind, ResourceManager.reset_stats, on_stats, modify.
    destruct (RM_run_total cs (Store (heap wr) (objs wr)
                                     (ResourceManager.Counters 0 0 0 0)))
      as (w' & Hrun & _ & _ & Hst).
    { by apply RM_wf_stats. }
    { intros c z Hc Hz. simpl. rewrite Hp in Hc.
      apply elem_of_cons in Hc as [->|Hc]; [by apply elem_of_nil in Hz|].
      apply elem_of_cons in Hc as [->|Hc];
        [by apply list_elem_of_singleton in Hz as ->|].
      apply list_elem_of_singleton in Hc as ->.
      by apply list_elem_of_singleton in Hz as ->. }
    exists w'. split; [done|]. rewrite Hst. simpl.
    apply Permutation_three in Hp.
    repeat (apply elem_of_cons in Hp as [->|Hp]; [reflexivity|]).
    by apply elem_of_nil in Hp.
  - unfold bind, LargeBuffer.reset_counts, on_stats, modify.
    destruct (LB_run_total cs' (Store (heap wl) (objs wl)
                                      (LargeBuffer.Counters 0 0)))
      as (w' & Hrun & _ & _ & Hst).
    { by apply LB_wf_stats. }
    { intros c z Hc Hz. simpl. rewrite Hp' in Hc.
      apply elem_of_cons in Hc as [->|Hc]; [by apply elem_of_nil in Hz|].
      apply elem_of_cons in Hc as [->|Hc];
        [by apply list_elem_of_singleton in Hz as ->|].
      apply list_elem_of_singleton in Hc as ->.
      by apply list_elem_of_singleton in Hz as ->. }
    exists w'. split; [done|]. rewrite Hst. simpl.
    apply Permutation_three in Hp'.
    repeat (apply elem_of_cons in Hp' as [->|Hp']; [reflexivity|]).
    by apply elem_of_nil in Hp'.
Qed.

(** Duplicate, create, transfer, in this order, on the sample stores. *)
Lemma counters_after_reset_witness :
  (∃ w', (ResourceManager.reset_stats ;;
          ResourceManager.run [ResourceManager.Duplicate 0;
                               ResourceManager.Create 3;
                               ResourceManager.Transfer 0])
           ResourceManager.sample = Some (tt, w') ∧
         stats w' = ResourceManager.Counters 1 1 1 0) ∧
  (∃ w', (LargeBuffer.reset_counts ;;
          LargeBuffer.run [LargeBuffer.Duplicate 0;
                           LargeBuffer.Create 3;
                           LargeBuffer.Transfer 0])
           LargeBuffer.sample = Some (tt, w') ∧
         stats w' = LargeBuffer.Counters 1 1).
Proof.
  apply (counters_after_reset ResourceManager.sample LargeBuffer.sample 3 0 0 3 0 0).
  - intros this o Ho. unfold ResourceManager.sample in Ho. simpl in Ho.
    apply lookup_singleton_Some in Ho as [<- <-].
    exists [5; 7]%Z. split; reflexivity.
  - by eexists.
  - by eexists.
  - apply perm_swap.
  - intros this o Ho. unfold LargeBuffer.sample in Ho. simpl in Ho.
    apply lookup_singleton_Some in Ho as [<- <-].
    exists [5; 7]%Z. split; reflexivity.
  - by eexists.
  - by eexists.
  - apply perm_swap.
Defined.

(** ** Moved-from instances *)

Section MovedFrom.

Lemma LB_probe_moved a b p C R c w :
  a ≠ b → LargeBuffer.moved a b p C R w →
  ∃ w', LargeBuffer.probe_step a c w = Some (tt, w') ∧ LargeBuffer.moved a b p C R w'.
Proof.
  intros Hab (Ha & Hb & HR).
  assert (a ≠ fresh (dom (objs w))) as Hfa by (eapply live_not_fresh, Ha).
  assert (b ≠ fresh (dom (objs w))) as Hfb by (eapply live_not_fresh, Hb).
  destruct c as [|v| |]; simpl; unfold bind, ret.
  - unfold LargeBuffer.size, bind, object, ret. rewrite (proj1 Ha).
    by exists w.
  - rewrite (LB_fill_spec _ _ _ _ v Ha). unfold Heap.nullptr.
    rewrite store_eta. by exists w.
  - rewrite (LB_copy_ctor_exec _ _ _ _ Ha). eexists. split; [done|].
    destruct Ha as [Ha _], Hb as [Hb Hp].
    unfold LargeBuffer.moved, LargeBuffer.owns. simpl.
    rewrite !lookup_insert_ne by done.
    repeat split; try done.
    destruct p as [x|]; [|done].
    rewrite lookup_insert_ne; [done|].
    intros <-. by rewrite fresh_addr_not_live in Hp.
  - rewrite (LB_move_ctor_exec _ _ _ (proj1 Ha)). eexists. split; [done|].
    destruct Ha as [Ha _], Hb as [Hb Hp].
    unfold LargeBuffer.moved, LargeBuffer.owns. simpl.
    rewrite lookup_insert_eq, !lookup_insert_ne by done.
    by repeat split.
Qed.

Lemma LB_probes_moved a b p C R cs : ∀ w,
  a ≠ b → LargeBuffer.moved a b p C R w →
  ∃ w', LargeBuffer.probes a cs w = Some (tt, w') ∧ LargeBuffer.moved a b p C R w'.
Proof.
  induction cs as [|c cs IH]; intros w Hab Hm; simpl.
  - by exists w.
  - destruct (LB_probe_moved a b p C R c w Hab Hm) as (w1 & Hs & Hm1).
    destruct (IH w1 Hab Hm1) as (w' & Hr & Hm').
    exists w'. unfold bind. by rewrite Hs, Hr.
Qed.

Lemma LB_dtor_spec w this p C :
  LargeBuffer.owns w this p C →
  LargeBuffer.dtor this w =
  Some (tt, Store (Heap.release p (heap w)) (delete this (objs w)) (stats w)).
Proof.
  intros [Ho Hp]. destruct p as [x|].
  - by erewrite LB_dtor_block.
  - by erewrite LB_dtor_null.
Qed.


Lemma RM_probe_moved a b p C R c w :
  a ≠ b → ResourceManager.moved a b p C R w →
  ∃ w', ResourceManager.probe_step a c w = Some (tt, w') ∧
        ResourceManager.moved a b p C R w'.
Proof.
  intros Hab (Ha & Hb & HR).
  assert (a ≠ fresh (dom (objs w))) as Hfa by (eapply live_not_fresh, Ha).
  assert (b ≠ fresh (dom (objs w))) as Hfb by (eapply live_not_fresh, Hb).
  destruct c as [| |]; simpl; unfold bind, ret.
  - unfold ResourceManager.size, ResourceManager.data, ResourceManager.is_valid,
      bind, object, ret. repeat (rewrite (proj1 Ha); simpl).
    by exists w.
  - rewrite (RM_copy_ctor_empty _ _ _ (proj1 Ha)). eexists. split; [done|].
    destruct Ha as [Ha _], Hb as [Hb Hp].
    unfold ResourceManager.moved, ResourceManager.owns. simpl.
    rewrite !lookup_insert_ne by done.
    by repeat split.
  - rewrite (RM_move_ctor_exec _ _ _ (proj1 Ha)). eexists. split; [done|].
    destruct Ha as [Ha _], Hb as [Hb Hp].
    unfold ResourceManager.moved, ResourceManager.owns. simpl.
    rewrite lookup_insert_eq, !lookup_insert_ne by done.
    by repeat split.
Qed.

Lemma RM_probes_moved a b p C R cs : ∀ w,
  a ≠ b → ResourceManager.moved a b p C R w →
  ∃ w', ResourceManager.probes a cs w = Some (tt, w') ∧
        ResourceManager.moved a b p C R w'.
Proof.
  induction cs as [|c cs IH]; intros w Hab Hm; simpl.
  - by exists w.
  - destruct (RM_probe_moved a b p C R c w Hab Hm) as (w1 & Hs & Hm1).
    destruct (IH w1 Hab Hm1) as (w' & Hr & Hm').
    exists w'. unfold bind. by rewrite Hs, Hr.
Qed.

Lemma RM_dtor_spec w this p C :
  ResourceManager.owns w this p C →
  ResourceManager.dtor this w =
  Some (tt, Store (Heap.release p (heap w)) (delete this (objs w))
                  (ResourceManager.incr_destructions (stats w))).
Proof.
  intros [Ho Hp]. destruct p as [x|].
  - by erewrite RM_dtor_block.
  - by erewrite RM_dtor_null.
Qed.

End MovedFrom.

(** ** MoveOnlyResource: what each member function does to the table *)

Section MORFacts.
Import MoveOnlyResource.
Implicit Types w : world.

Lemma MOR_move_ctor_spec w other o :
  objs w !! other = Some o →
  ∃ w', move_ctor other w = Some (fresh (dom (objs w)), w') ∧
        ∀ h, objs w' !! h =
             if decide (h = other) then Some (Obj moved_from_string false)
             else if decide (h = fresh (dom (objs w))) then Some o
             else objs w !! h.
Proof.
  intros Ho.
  assert (other ≠ fresh (dom (objs w))) as Hne by by eapply live_not_fresh.
  unfold move_ctor, bind, begin_object, object, update, ret.
  run_store. rewrite !dom_insert_lookup_L by done. run_store.
  eexists. split; [done|]. intros h. simpl.
  repeat case_decide; simplify_map_eq; by destruct o.
Qed.

Lemma MOR_move_assign_spec w this other ot o :
  this ≠ other →
  objs w !! this = Some ot → objs w !! other = Some o →
  ∃ w', move_assign this other w = Some (tt, w') ∧
        ∀ h, objs w' !! h =
             if decide (h = other) then Some (Obj moved_from_string false)
             else if decide (h = this) then Some o
             else objs w !! h.
Proof.
  intros Hne Ht Ho.
  unfold move_assign. destruct (decide (this ≠ other)); [|done].
  unfold bind, object, update, ret.
  run_store. eexists. split; [done|]. intros h. simpl.
  repeat case_decide; simplify_map_eq; by destruct o.
Qed.

Lemma MOR_dtor_spec w this o :
  objs w !! this = Some o →
  ∃ w', dtor this w = Some (tt, w') ∧
        ∀ h, objs w' !! h = if decide (h = this) then None else objs w !! h.
Proof.
  intros Ho. unfold dtor, bind, update, end_object.
  run_store. eexists. split; [done|]. intros h. simpl.
  case_decide; by simplify_map_eq.
Qed.

(** A call that returns was made on live objects. *)
Lemma MOR_move_ctor_live w other r :
  move_ctor other w = Some r → is_Some (objs w !! other).
Proof.
  unfold move_ctor, bind, object. destruct (objs w !! other); [eauto|done].
Qed.

Lemma MOR_move_assign_live w this other r :
  this ≠ other → move_assign this other w = Some r →
  is_Some (objs w !! this) ∧ is_Some (objs w !! other).
Proof.
  intros Hne. unfold move_assign. destruct (decide (this ≠ other)); [|done].
  unfold bind, object, update.
  destruct (objs w !! other) as [o|] eqn:Ho; [|done]. simpl.
  destruct (objs w !! this) as [ot|] eqn:Ht; [eauto|done].
Qed.

Lemma MOR_dtor_live w this r :
  dtor this w = Some r → is_Some (objs w !! this).
Proof.
  unfold dtor, bind, update. destruct (objs w !! this); [eauto|done].
Qed.

Lemma MOR_carry_lookup (src dst h : nat) (g : gmap nat nat) :
  carry src dst g !! h = if decide (h = dst) then g !! src else g !! h.
Proof.
  unfold carry. case_decide as Hh.
  - subst h. apply lookup_partial_alter_eq.
  - by apply lookup_partial_alter_ne.
Qed.

(** What a transfer does to validity. *)
Lemma MOR_transfer_valid w w' other dst o :
  objs w !! other = Some o → dst ≠ other →
  (∀ h, objs w' !! h =
        if decide (h = other) then Some (Obj moved_from_string false)
        else if decide (h = dst) then Some o
        else objs w !! h) →
  ∀ h, valid_at w' h →
       h ≠ other ∧ (h = dst ∧ valid_at w other ∨ h ≠ dst ∧ valid_at w h).
Proof.
  intros Ho Hne Hl h (oh & Hh & Hv). rewrite Hl in Hh.
  destruct (decide (h = other)); [by injection Hh as <-|].
  split; [done|].
  destruct (decide (h = dst)) as [->|].
  - left. split; [done|]. injection Hh as <-. by exists o.
  - right. split; [done|]. by exists oh.
Qed.

Lemma MOR_transfer_consistent t w' other dst o :
  objs (table t) !! other = Some o → dst ≠ other →
  (∀ h, objs w' !! h =
        if decide (h = other) then Some (Obj moved_from_string false)
        else if decide (h = dst) then Some o
        else objs (table t) !! h) →
  tracks t → one_per_acquisition t →
  tracks (Tracked w' (carry other dst (origin t)) (acquisitions t)) ∧
  one_per_acquisition (Tracked w' (carry other dst (origin t)) (acquisitions t)).
Proof.
  intros Ho Hne Hl [Hdom Hbound] Hone.
  assert (is_Some (origin t !! other)) as Hoo by (apply Hdom; by eexists).
  split; [split|]; simpl.
  - intros h. rewrite MOR_carry_lookup, Hl.
    destruct (decide (h = dst)) as [->|].
    + destruct (decide (dst = other)); [done|]. split; [by eexists|done].
    + destruct (decide (h = other)) as [->|]; [|apply Hdom].
      split; [by eexists|done].
  - intros h a. rewrite MOR_carry_lookup. case_decide; apply Hbound.
  - intros h1 h2 a V1 V2. simpl in *. rewrite !MOR_carry_lookup.
    destruct (MOR_transfer_valid _ _ _ _ _ Ho Hne Hl _ V1) as [? [[-> W1]|[? W1]]],
             (MOR_transfer_valid _ _ _ _ _ Ho Hne Hl _ V2) as [? [[-> W2]|[? W2]]];
      repeat case_decide; try done; intros O1 O2.
    + destruct (Hone _ _ _ W1 W2 O1 O2). done.
    + destruct (Hone _ _ _ W1 W2 O1 O2). done.
    + by apply (Hone _ _ a).
Qed.

Lemma MOR_invoke_consistent c t t' :
  invoke c t = Some (tt, t') →
  tracks t → one_per_acquisition t →
  tracks t' ∧ one_per_acquisition t'.
Proof.
  intros Hs Ht Hone. pose proof Ht as [Hdom Hbound].
  destruct c as [name|other|this other|this]; simpl in Hs.
  - unfold ctor, begin_object in Hs. injection Hs as <-.
    pose proof (fresh_object_not_live (table t)) as Hfresh.
    split; [split|]; simpl.
    + intros h. destruct (decide (h = fresh (dom (objs (table t))))) as [->|].
      * rewrite !lookup_insert_eq. split; by eexists.
      * rewrite !lookup_insert_ne by done. apply Hdom.
    + intros h a. destruct (decide (h = fresh (dom (objs (table t))))) as [->|].
      * rewrite lookup_insert_eq. intros [= <-]. lia.
      * rewrite lookup_insert_ne by done. intros Ha.
        specialize (Hbound _ _ Ha). lia.
    + assert (∀ h a, valid_at (Store (heap (table t))
                       (<[fresh (dom (objs (table t))) := Obj name true]>
                          (objs (table t))) (stats (table t))) h →
                     <[fresh (dom (objs (table t))) := acquisitions t]>
                       (origin t) !! h = Some a →
                     h = fresh (dom (objs (table t))) ∧ a = acquisitions t ∨
                     h ≠ fresh (dom (objs (table t))) ∧ a < acquisitions t ∧
                     valid_at (table t) h ∧ origin t !! h = Some a) as Hback.
      { intros h a (o & Hh & Hv) Ha. simpl in Hh.
        destruct (decide (h = fresh (dom (objs (table t))))) as [->|].
        - left. rewrite lookup_insert_eq in Ha. by injection Ha as <-.
        - right. rewrite lookup_insert_ne in Ha by done.
          rewrite lookup_insert_ne in Hh by done.
          split_and!; [done|by eapply Hbound|by exists o|done]. }
      intros h1 h2 a V1 V2 O1 O2.
      destruct (Hback _ _ V1 O1) as [[-> ->]|(? & ? & W1 & P1)],
               (Hback _ _ V2 O2) as [[-> ?]|(? & ? & W2 & P2)];
        try done; try lia.
      by apply (Hone _ _ a).
  - destruct (move_ctor other (table t)) as [[dst w1]|] eqn:Hm; [|done].
    injection Hs as <-.
    destruct (MOR_move_ctor_live _ _ _ Hm) as [o Ho].
    destruct (MOR_move_ctor_spec _ _ _ Ho) as (w2 & Hm2 & Hl).
    rewrite Hm in Hm2. injection Hm2 as -> <-.
    apply (MOR_transfer_consistent _ _ _ _ o); try done.
    intros Heq. symmetry in Heq. revert Heq. by eapply live_not_fresh.
  - destruct (move_assign this other (table t)) as [[[] w1]|] eqn:Hm; [|done].
    injection Hs as <-.
    destruct (decide (this = other)) as [->|Hne].
    { unfold move_assign in Hm. destruct (decide (other ≠ other)); [done|].
      injection Hm as <-.
      assert (carry other other (origin t) = origin t) as ->.
      { apply map_eq. intros h. rewrite MOR_carry_lookup.
        by case_decide; subst. }
      by destruct t. }
    destruct (MOR_move_assign_live _ _ _ _ Hne Hm) as [[ot Hto] [o Ho]].
    destruct (MOR_move_assign_spec _ _ _ _ _ Hne Hto Ho) as (w2 & Hm2 & Hl).
    rewrite Hm in Hm2. injection Hm2 as <-.
    by apply (MOR_transfer_consistent _ _ _ _ o).
  - destruct (dtor this (table t)) as [[[] w1]|] eqn:Hm; [|done].
    injection Hs as <-.
    destruct (MOR_dtor_live _ _ _ Hm) as [o Ho].
    destruct (MOR_dtor_spec _ _ _ Ho) as (w2 & Hm2 & Hl).
    rewrite Hm in Hm2. injection Hm2 as <-.
    split; [split|]; simpl.
    + intros h. rewrite Hl. destruct (decide (h = this)) as [->|].
      * rewrite lookup_delete_eq. split; by intros [? ?].
      * rewrite lookup_delete_ne by done. apply Hdom.
    + intros h a. destruct (decide (h = this)) as [->|].
      * by rewrite lookup_delete_eq.
      * rewrite lookup_delete_ne by done. apply Hbound.
    + intros h1 h2 a (o1 & H1 & V1) (o2 & H2 & V2).
      rewrite Hl in H1, H2.
      destruct (decide (h1 = this)); [done|]. destruct (decide (h2 = this)); [done|].
      simpl. rewrite !lookup_delete_ne by done.
      apply Hone; [by exists o1|by exists o2].
Qed.

(** After each call of a sequence that runs. *)
Lemma MOR_invoke_all_consistent cs : ∀ t t',
  invoke_all cs t = Some (tt, t') →
  tracks t → one_per_acquisition t →
  ∀ k, ∃ tk, invoke_all (take k cs) t = Some (tt, tk) ∧
             tracks tk ∧ one_per_acquisition tk.
Proof.
  induction cs as [|c cs IH]; intros t t' Hr Ht Hone k; simpl in Hr.
  - rewrite take_nil. by exists t.
  - destruct k as [|k]; [by exists t|]. simpl.
    unfold bind in Hr |- *.
    destruct (invoke c t) as [[[] t1]|] eqn:Hs; [|done].
    destruct (MOR_invoke_consistent _ _ _ Hs Ht Hone) as [Ht1 Hone1].
    by apply (IH t1 t').
Qed.
End MORFacts.

(** ** FileGuard: what each member function does to the table *)

Section FGFacts.
Import FileGuard.
Implicit Types w : world.

Lemma FG_move_ctor_spec w other o :
  objs w !! other = Some o →
  ∃ w', move_ctor other w = Some (fresh (dom (objs w)), w') ∧
        ∀ h, objs w' !! h =
             if decide (h = other) then Some (Obj moved_from_string false)
             else if decide (h = fresh (dom (objs w))) then Some o
             else objs w !! h.
Proof.
  intros Ho.
  assert (other ≠ fresh (dom (objs w))) as Hne by by eapply live_not_fresh.
  unfold move_ctor, bind, begin_object, object, update, ret.
  run_store. rewrite !dom_insert_lookup_L by done. run_store.
  eexists. split; [done|]. intros h. simpl.
  repeat case_decide; simplify_map_eq; by destruct o.
Qed.

Lemma FG_move_assign_spec w this other ot o :
  this ≠ other →
  objs w !! this = Some ot → objs w !! other = Some o →
  ∃ w', move_assign this other w = Some (tt, w') ∧
        ∀ h, objs w' !! h =
             if decide (h = other) then Some (Obj moved_from_string false)
             else if decide (h = this) then Some o
             else objs w !! h.
Proof.
  intros Hne Ht Ho.
  unfold move_assign. destruct (decide (this ≠ other)); [|done].
  unfold close, bind, object, update, ret.
  run_store. destruct (is_open_ ot); run_store.
  all: eexists; (split; [done|]); intros h; simpl.
  all: repeat case_decide; simplify_map_eq; by destruct o.
Qed.

Lemma FG_dtor_spec w this o :
  objs w !! this = Some o →
  ∃ w', dtor this w = Some (tt, w') ∧
        ∀ h, objs w' !! h = if decide (h = this) then None else objs w !! h.
Proof.
  intros Ho. unfold dtor, close, bind, object, update, end_object, ret.
  run_store. destruct (is_open_ o); run_store.
  all: eexists; (split; [done|]); intros h; simpl.
  all: case_decide; by simplify_map_eq.
Qed.

(** A call that returns was made on live objects. *)
Lemma FG_move_ctor_live w other r :
  move_ctor other w = Some r → is_Some (objs w !! other).
Proof.
  unfold move_ctor, bind, object. destruct (objs w !! other); [eauto|done].
Qed.

Lemma FG_move_assign_live w this other r :
  this ≠ other → move_assign this other w = Some r →
  is_Some (objs w !! this) ∧ is_Some (objs w !! other).
Proof.
  intros Hne. unfold move_assign. destruct (decide (this ≠ other)); [|done].
  unfold close, bind, object, update.
  destruct (objs w !! this) as [ot|] eqn:Ht; [|done]. intros Hr. split; [eauto|].
  destruct (objs w !! other) as [o|] eqn:Ho; [eauto|].
  destruct (is_open_ ot); simpl in Hr; [rewrite Ht in Hr; simpl in Hr|].
  - by rewrite lookup_insert_ne, Ho in Hr.
  - by rewrite Ho in Hr.
Qed.

Lemma FG_dtor_live w this r :
  dtor this w = Some r → is_Some (objs w !! this).
Proof.
  unfold dtor, close, bind, object. destruct (objs w !! this); [eauto|done].
Qed.

Lemma FG_carry_lookup (src dst h : nat) (g : gmap nat nat) :
  carry src dst g !! h = if decide (h = dst) then g !! src else g !! h.
Proof.
  unfold carry. case_decide as Hh.
  - subst h. apply lookup_partial_alter_eq.
  - by apply lookup_partial_alter_ne.
Qed.

(** What a transfer does to validity. *)
Lemma FG_transfer_valid w w' other dst o :
  objs w !! other = Some o → dst ≠ other →
  (∀ h, objs w' !! h =
        if decide (h = other) then Some (Obj moved_from_string false)
        else if decide (h = dst) then Some o
        else objs w !! h) →
  ∀ h, valid_at w' h →
       h ≠ other ∧ (h = dst ∧ valid_at w other ∨ h ≠ dst ∧ valid_at w h).
Proof.
  intros Ho Hne Hl h (oh & Hh & Hv). rewrite Hl in Hh.
  destruct (decide (h = other)); [by injection Hh as <-|].
  split; [done|].
  destruct (decide (h = dst)) as [->|].
  - left. split; [done|]. injection Hh as <-. by exists o.
  - right. split; [done|]. by exists oh.
Qed.

Lemma FG_transfer_consistent t w' other dst o :
  objs (table t) !! other = Some o → dst ≠ other →
  (∀ h, objs w' !! h =
        if decide (h = other) then Some (Obj moved_from_string false)
        else if decide (h = dst) then Some o
        else objs (table t) !! h) →
  tracks t → one_per_acquisition t →
  tracks (Tracked w' (carry other dst (origin t)) (acquisitions t)) ∧
  one_per_acquisition (Tracked w' (carry other dst (origin t)) (acquisitions t)).
Proof.
  intros Ho Hne Hl [Hdom Hbound] Hone.
  assert (is_Some (origin t !! other)) as Hoo by (apply Hdom; by eexists).
  split; [split|]; simpl.
  - intros h. rewrite FG_carry_lookup, Hl.
    destruct (decide (h = dst)) as [->|].
    + destruct (decide (dst = other)); [done|]. split; [by eexists|done].
    + destruct (decide (h = other)) as [->|]; [|apply Hdom].
      split; [by eexists|done].
  - intros h a. rewrite FG_carry_lookup. case_decide; apply Hbound.
  - intros h1 h2 a V1 V2. simpl in *. rewrite !FG_carry_lookup.
    destruct (FG_transfer_valid _ _ _ _ _ Ho Hne Hl _ V1) as [? [[-> W1]|[? W1]]],
             (FG_transfer_valid _ _ _ _ _ Ho Hne Hl _ V2) as [? [[-> W2]|[? W2]]];
      repeat case_decide; try done; intros O1 O2.
    + destruct (Hone _ _ _ W1 W2 O1 O2). done.
    + destruct (Hone _ _ _ W1 W2 O1 O2). done.
    + by apply (Hone _ _ a).
Qed.

Lemma FG_invoke_consistent c t t' :
  invoke c t = Some (tt, t') →
  tracks t → one_per_acquisition t →
  tracks t' ∧ one_per_acquisition t'.
Proof.
  intros Hs Ht Hone. pose proof Ht as [Hdom Hbound].
  destruct c as [filename|other|this other|this]; simpl in Hs.
  - unfold ctor, begin_object in Hs. injection Hs as <-.
    pose proof (fresh_object_not_live (table t)) as Hfresh.
    split; [split|]; simpl.
    + intros h. destruct (decide (h = fresh (dom (objs (table t))))) as [->|].
      * rewrite !lookup_insert_eq. split; by eexists.
      * rewrite !lookup_insert_ne by done. apply Hdom.
    + intros h a. destruct (decide (h = fresh (dom (objs (table t))))) as [->|].
      * rewrite lookup_insert_eq. intros [= <-]. lia.
      * rewrite lookup_insert_ne by done. intros Ha.
        specialize (Hbound _ _ Ha). lia.
    + assert (∀ h a, valid_at (Store (heap (table t))
                       (<[fresh (dom (objs (table t))) := Obj filename true]>
                          (objs (table t))) (stats (table t))) h →
                     <[fresh (dom (objs (table t))) := acquisitions t]>
                       (origin t) !! h = Some a →
                     h = fresh (dom (objs (table t))) ∧ a = acquisitions t ∨
                     h ≠ fresh (dom (objs (table t))) ∧ a < acquisitions t ∧
                     valid_at (table t) h ∧ origin t !! h = Some a) as Hback.
      { intros h a (o & Hh & Hv) Ha. simpl in Hh.
        destruct (decide (h = fresh (dom (objs (table t))))) as [->|].
        - left. rewrite lookup_insert_eq in Ha. by injection Ha as <-.
        - right. rewrite lookup_insert_ne in Ha by done.
          rewrite lookup_insert_ne in Hh by done.
          split_and!; [done|by eapply Hbound|by exists o|done]. }
      intros h1 h2 a V1 V2 O1 O2.
      destruct (Hback _ _ V1 O1) as [[-> ->]|(? & ? & W1 & P1)],
               (Hback _ _ V2 O2) as [[-> ?]|(? & ? & W2 & P2)];
        try done; try lia.
      by apply (Hone _ _ a).
  - destruct (move_ctor other (table t)) as [[dst w1]|] eqn:Hm; [|done].
    injection Hs as <-.
    destruct (FG_move_ctor_live _ _ _ Hm) as [o Ho].
    destruct (FG_move_ctor_spec _ _ _ Ho) as (w2 & Hm2 & Hl).
    rewrite Hm in Hm2. injection Hm2 as -> <-.
    apply (FG_transfer_consistent _ _ _ _ o); try done.
    intros Heq. symmetry in Heq. revert Heq. by eapply live_not_fresh.
  - destruct (move_assign this other (table t)) as [[[] w1]|] eqn:Hm; [|done].
    injection Hs as <-.
    destruct (decide (this = other)) as [->|Hne].
    { unfold move_assign in Hm. destruct (decide (other ≠ other)); [done|].
      injection Hm as <-.
      assert (carry other other (origin t) = origin t) as ->.
      { apply map_eq. intros h. rewrite FG_carry_lookup.
        by case_decide; subst. }
      by destruct t. }
    destruct (FG_move_assign_live _ _ _ _ Hne Hm) as [[ot Hto] [o Ho]].
    destruct (FG_move_assign_spec _ _ _ _ _ Hne Hto Ho) as (w2 & Hm2 & Hl).
    rewrite Hm in Hm2. injection Hm2 as <-.
    by apply (FG_transfer_consistent _ _ _ _ o).
  - destruct (dtor this (table t)) as [[[] w1]|] eqn:Hm; [|done].
    injection Hs as <-.
    destruct (FG_dtor_live _ _ _ Hm) as [o Ho].
    destruct (FG_dtor_spec _ _ _ Ho) as (w2 & Hm2 & Hl).
    rewrite Hm in Hm2. injection Hm2 as <-.
    split; [split|]; simpl.
    + intros h. rewrite Hl. destruct (decide (h = this)) as [->|].
      * rewrite lookup_delete_eq. split; by intros [? ?].
      * rewrite lookup_delete_ne by done. apply Hdom.
    + intros h a. destruct (decide (h = this)) as [->|].
      * by rewrite lookup_delete_eq.
      * rewrite lookup_delete_ne by done. apply Hbound.
    + intros h1 h2 a (o1 & H1 & V1) (o2 & H2 & V2).
      rewrite Hl in H1, H2.
      destruct (decide (h1 = this)); [done|]. destruct (decide (h2 = this)); [done|].
      simpl. rewrite !lookup_delete_ne by done.
      apply Hone; [by exists o1|by exists o2].
Qed.

(** After each call of a sequence that runs. *)
Lemma FG_invoke_all_consistent cs : ∀ t t',
  invoke_all cs t = Some (tt, t') →
  tracks t → one_per_acquisition t →
  ∀ k, ∃ tk, invoke_all (take k cs) t = Some (tt, tk) ∧
             tracks tk ∧ one_per_acquisition tk.
Proof.
  induction cs as [|c cs IH]; intros t t' Hr Ht Hone k; simpl in Hr.
  - rewrite take_nil. by exists t.
  - destruct k as [|k]; [by exists t|]. simpl.
    unfold bind in Hr |- *.
    destruct (invoke c t) as [[[] t1]|] eqn:Hs; [|done].
    destruct (FG_invoke_consistent _ _ _ Hs Ht Hone) as [Ht1 Hone1].
    by apply (IH t1 t').
Qed.
End FGFacts.

Lemma FG_close_idempotent (w : FileGuard.world) this :
  (FileGuard.close this ;; FileGuard.close this) w = FileGuard.close this w.
Proof.
  unfold FileGuard.close, bind, object, update, ret.
  destruct (objs w !! this) as [o|] eqn:Ho; [|done].
  destruct (FileGuard.is_open_ o) eqn:Hopen; simpl.
  - rewrite Ho. simpl. by rewrite lookup_insert_eq.
  - by rewrite Ho, Hopen.
Qed.

Lemma released_by_release p h :
  Heap.released (Heap.release p h) = Heap.released_by p ++ Heap.released h.
Proof. by destruct p. Qed.

Lemma release_count_once x h h' :
  Heap.released h' = Heap.released_by (Some x) ++ Heap.released h →
  Heap.release_count x h' = S (Heap.release_count x h).
Proof.
  intros Hrel. unfold Heap.release_count. rewrite Hrel. simpl.
  by rewrite filter_cons_True.
Qed.

(** C2: after buffer [a] was transferred into [b], any sequence [cs] of
    queries, fills, duplications and transfers on the moved-from [a]
    succeeds and releases nothing; destroying [a] succeeds and releases
    nothing; destroying [b], before or after [a], releases the block [a]
    once owned, so that over both lifetimes the log of released blocks
    grows by exactly that block, once.  For a FileGuard [src] moved into
    [dst]: [src] reports closed, closing it again changes nothing, its
    destructor succeeds and leaves [dst] as it is; and [close] twice is
    [close] once on every guard. *)
Theorem moved_from_is_inert
    (wr : ResourceManager.world) (wl : LargeBuffer.world) (wg : FileGuard.world)
    (a a' src : nat) (p p' : Heap.ptr) (C C' : list Z) (o : FileGuard.t)
    (cs : list ResourceManager.probe) (cs' : list LargeBuffer.probe) :
  ResourceManager.owns wr a p C →
  LargeBuffer.owns wl a' p' C' →
  objs wg !! src = Some o →
  (∃ b w1 w2 w3 w4 v3 v4,
      ResourceManager.move_ctor a wr = Some (b, w1) ∧
      ResourceManager.probes a cs w1 = Some (tt, w2) ∧
      Heap.released (heap w2) = Heap.released (heap wr) ∧
      ResourceManager.dtor a w2 = Some (tt, w3) ∧
      Heap.released (heap w3) = Heap.released (heap wr) ∧
      ResourceManager.dtor b w3 = Some (tt, w4) ∧
      Heap.released (heap w4) = Heap.released_by p ++ Heap.released (heap wr) ∧
      ResourceManager.dtor b w2 = Some (tt, v3) ∧
      ResourceManager.dtor a v3 = Some (tt, v4) ∧
      Heap.released (heap v4) = Heap.released_by p ++ Heap.released (heap wr) ∧
      (∀ x, p = Some x →
            Heap.release_count x (heap w4) = S (Heap.release_count x (heap wr)) ∧
            Heap.release_count x (heap v4) = S (Heap.release_count x (heap wr)))) ∧
  (∃ b w1 w2 w3 w4 v3 v4,
      LargeBuffer.move_ctor a' wl = Some (b, w1) ∧
      LargeBuffer.probes a' cs' w1 = Some (tt, w2) ∧
      Heap.released (heap w2) = Heap.released (heap wl) ∧
      LargeBuffer.dtor a' w2 = Some (tt, w3) ∧
      Heap.released (heap w3) = Heap.released (heap wl) ∧
      LargeBuffer.dtor b w3 = Some (tt, w4) ∧
      Heap.released (heap w4) = Heap.released_by p' ++ Heap.released (heap wl) ∧
      LargeBuffer.dtor b w2 = Some (tt, v3) ∧
      LargeBuffer.dtor a' v3 = Some (tt, v4) ∧
      Heap.released (heap v4) = Heap.released_by p' ++ Heap.released (heap wl) ∧
      (∀ x, p' = Some x →
            Heap.release_count x (heap w4) = S (Heap.release_count x (heap wl)) ∧
            Heap.release_count x (heap v4) = S (Heap.release_count x (heap wl)))) ∧
  (∃ dst w1 w2,
      FileGuard.move_ctor src wg = Some (dst, w1) ∧
      FileGuard.is_open src w1 = Some (false, w1) ∧
      FileGuard.close src w1 = Some (tt, w1) ∧
      FileGuard.dtor src w1 = Some (tt, w2) ∧
      objs w2 !! src = None ∧
      objs w2 !! dst = Some o) ∧
  (∀ (w : FileGuard.world) this,
      (FileGuard.close this ;; FileGuard.close this) w = FileGuard.close this w).
Proof.
  intros Hr Hl Hg. split; [|split; [|split]].
  - pose proof Hr as [Ha Hp].
    assert (a ≠ fresh (dom (objs wr))) as Hne by by eapply live_not_fresh.
    rewrite (RM_move_ctor_exec _ _ _ Ha). set (w1 := Store _ _ _).
    assert (ResourceManager.moved a (fresh (dom (objs wr))) p C
              (Heap.released (heap wr)) w1) as Hm.
    { unfold ResourceManager.moved, ResourceManager.owns. simpl.
      by rewrite lookup_insert_eq, lookup_insert_ne, lookup_insert_eq. }
    destruct (RM_probes_moved _ _ _ _ _ cs w1 (ltac:(done)) Hm)
      as (w2 & Hrun & Ha2 & Hb2 & HR2).
    pose proof (RM_dtor_spec _ _ _ _ Ha2) as Hda.
    pose proof (RM_dtor_spec _ _ _ _ Hb2) as Hdb.
    set (w3 := Store _ _ _) in Hda. set (v3 := Store _ _ _) in Hdb.
    assert (ResourceManager.owns w3 (fresh (dom (objs wr))) p C) as Hb3.
    { destruct Hb2 as [Hb2 Hp2]. split; simpl; [|done].
      by rewrite lookup_delete_ne. }
    assert (ResourceManager.owns v3 a Heap.nullptr []) as Ha3.
    { destruct Ha2 as [Ha2 _]. split; simpl; [|done].
      rewrite lookup_delete_ne; done. }
    pose proof (RM_dtor_spec _ _ _ _ Hb3) as Hdb3.
    pose proof (RM_dtor_spec _ _ _ _ Ha3) as Hda3.
    eexists _, w1, w2, w3, _, v3, _.
    split; [done|]. split; [exact Hrun|]. split; [exact HR2|].
    split; [exact Hda|]. split; [exact HR2|].
    split; [exact Hdb3|]. simpl.
    split; [by rewrite released_by_release, HR2|].
    split; [exact Hdb|]. split; [exact Hda3|]. simpl.
    split; [by rewrite released_by_release, HR2|].
    intros x ->. split; apply release_count_once; simpl; by rewrite HR2.
  - pose proof Hl as [Ha Hp].
    assert (a' ≠ fresh (dom (objs wl))) as Hne by by eapply live_not_fresh.
    rewrite (LB_move_ctor_exec _ _ _ Ha). set (w1 := Store _ _ _).
    assert (LargeBuffer.moved a' (fresh (dom (objs wl))) p' C'
              (Heap.released (heap wl)) w1) as Hm.
    { unfold LargeBuffer.moved, LargeBuffer.owns. simpl.
      by rewrite lookup_insert_eq, lookup_insert_ne, lookup_insert_eq. }
    destruct (LB_probes_moved _ _ _ _ _ cs' w1 (ltac:(done)) Hm)
      as (w2 & Hrun & Ha2 & Hb2 & HR2).
    pose proof (LB_dtor_spec _ _ _ _ Ha2) as Hda.
    pose proof (LB_dtor_spec _ _ _ _ Hb2) as Hdb.
    set (w3 := Store _ _ _) in Hda. set (v3 := Store _ _ _) in Hdb.
    assert (LargeBuffer.owns w3 (fresh (dom (objs wl))) p' C') as Hb3.
    { destruct Hb2 as [Hb2 Hp2]. split; simpl; [|done].
      by rewrite lookup_delete_ne. }
    assert (LargeBuffer.owns v3 a' Heap.nullptr []) as Ha3.
    { destruct Ha2 as [Ha2 _]. split; simpl; [|done].
      rewrite lookup_delete_ne; done. }
    pose proof (LB_dtor_spec _ _ _ _ Hb3) as Hdb3.
    pose proof (LB_dtor_spec _ _ _ _ Ha3) as Hda3.
    eexists _, w1, w2, w3, _, v3, _.
    split; [done|]. split; [exact Hrun|]. split; [exact HR2|].
    split; [exact Hda|]. split; [exact HR2|].
    split; [exact Hdb3|]. simpl.
    split; [by rewrite released_by_release, HR2|].
    split; [exact Hdb|]. split; [exact Hda3|]. simpl.
    split; [by rewrite released_by_release, HR2|].
    intros x ->. split; apply release_count_once; simpl; by rewrite HR2.
  - destruct (FG_move_ctor_spec _ _ _ Hg) as (w1 & Hm & Hl1).
    assert (src ≠ fresh (dom (objs wg))) as Hne by by eapply live_not_fresh.
    assert (objs w1 !! src = Some (FileGuard.Obj moved_from_string false)) as Hs1.
    { rewrite Hl1. by rewrite decide_True. }
    destruct (FG_dtor_spec _ _ _ Hs1) as (w2 & Hd & Hl2).
    exists (fresh (dom (objs wg))), w1, w2.
    split; [done|].
    unfold FileGuard.is_open, FileGuard.close, bind, object, ret.
    rewrite Hs1. simpl.
    repeat (split; [done|]).
    rewrite !Hl2.
    split; repeat case_decide; try congruence.
    rewrite Hl1. repeat case_decide; congruence.
  - intros w this. apply FG_close_idempotent.
Qed.

(** The sample buffers and the sample guard, moved from and then probed. *)
Lemma moved_from_is_inert_witness :
  (∃ b w1 w2 w3 w4,
      ResourceManager.move_ctor 0 ResourceManager.sample = Some (b, w1) ∧
      ResourceManager.probes 0 [ResourceManager.Query; ResourceManager.Copy;
                                ResourceManager.Move] w1 = Some (tt, w2) ∧
      ResourceManager.dtor 0 w2 = Some (tt, w3) ∧
      ResourceManager.dtor b w3 = Some (tt, w4) ∧
      Heap.released (heap w4) = [0]) ∧
  (∃ b w1 w2 w3 w4,
      LargeBuffer.move_ctor 0 LargeBuffer.sample = Some (b, w1) ∧
      LargeBuffer.probes 0 [LargeBuffer.Query; LargeBuffer.Fill 3;
                            LargeBuffer.Copy; LargeBuffer.Move] w1 = Some (tt, w2) ∧
      LargeBuffer.dtor 0 w2 = Some (tt, w3) ∧
      LargeBuffer.dtor b w3 = Some (tt, w4) ∧
      Heap.released (heap w4) = [0]) ∧
  (∃ dst w1 w2,
      FileGuard.move_ctor 0 FileGuard.sample = Some (dst, w1) ∧
      FileGuard.close 0 w1 = Some (tt, w1) ∧
      FileGuard.dtor 0 w1 = Some (tt, w2) ∧
      objs w2 !! dst = Some (FileGuard.Obj "test.txt" true)).
Proof.
  assert (ResourceManager.owns ResourceManager.sample 0 (Some 0) [5; 7]%Z) as Hr
    by (split; reflexivity).
  assert (LargeBuffer.owns LargeBuffer.sample 0 (Some 0) [5; 7]%Z) as Hl
    by (split; reflexivity).
  assert (objs FileGuard.sample !! 0 = Some (FileGuard.Obj "test.txt" true)) as Hg
    by reflexivity.
  destruct (moved_from_is_inert _ _ _ _ _ _ _ _ _ _ _
              [ResourceManager.Query; ResourceManager.Copy; ResourceManager.Move]
              [LargeBuffer.Query; LargeBuffer.Fill 3; LargeBuffer.Copy;
               LargeBuffer.Move] Hr Hl Hg)
    as ((b & w1 & w2 & w3 & w4 & _ & _ & ? & ? & _ & ? & _ & ? & ? & _) &
        (b' & v1 & v2 & v3 & v4 & _ & _ & ? & ? & _ & ? & _ & ? & ? & _) &
        (dst & u1 & u2 & ? & _ & ? & ? & _ & ?) & _).
  split; [by exists b, w1, w2, w3, w4|].
  split; [by exists b', v1, v2, v3, v4|].
  by exists dst, u1, u2.
Defined.

(** ** ExclusiveHandle *)

(** C5: transferring a valid handle [src] named [N] succeeds, whatever
    else the table holds: into a new handle by the move constructor, and
    into any live handle [dst] other than [src] by the move assignment.
    Afterwards [src] is not valid, the destination is valid and carries
    the name [N].  Both for MoveOnlyResource and for FileGuard. *)
Theorem transfer_of_handle
    (wm : MoveOnlyResource.world) (wg : FileGuard.world)
    (src src' : nat) (N N' : string) :
  objs wm !! src = Some (MoveOnlyResource.Obj N true) →
  objs wg !! src' = Some (FileGuard.Obj N' true) →
  (∃ d w',
      MoveOnlyResource.move_ctor src wm = Some (d, w') ∧
      objs wm !! d = None ∧
      MoveOnlyResource.is_valid src w' = Some (false, w') ∧
      MoveOnlyResource.is_valid d w' = Some (true, w') ∧
      MoveOnlyResource.name d w' = Some (N, w')) ∧
  (∀ dst, is_Some (objs wm !! dst) → dst ≠ src →
    ∃ w',
      MoveOnlyResource.move_assign dst src wm = Some (tt, w') ∧
      MoveOnlyResource.is_valid src w' = Some (false, w') ∧
      MoveOnlyResource.is_valid dst w' = Some (true, w') ∧
      MoveOnlyResource.name dst w' = Some (N, w')) ∧
  (∃ d w',
      FileGuard.move_ctor src' wg = Some (d, w') ∧
      objs wg !! d = None ∧
      FileGuard.is_open src' w' = Some (false, w') ∧
      FileGuard.is_open d w' = Some (true, w') ∧
      FileGuard.filename d w' = Some (N', w')) ∧
  (∀ dst', is_Some (objs wg !! dst') → dst' ≠ src' →
    ∃ w',
      FileGuard.move_assign dst' src' wg = Some (tt, w') ∧
      FileGuard.is_open src' w' = Some (false, w') ∧
      FileGuard.is_open dst' w' = Some (true, w') ∧
      FileGuard.filename dst' w' = Some (N', w')).
Proof.
  intros Hs Hs'.
  assert (src ≠ fresh (dom (objs wm))) as Hfr by by eapply live_not_fresh.
  assert (src' ≠ fresh (dom (objs wg))) as Hfr' by by eapply live_not_fresh.
  split; [|split; [|split]].
  - destruct (MOR_move_ctor_spec _ _ _ Hs) as (w' & Hm & Hl).
    exists (fresh (dom (objs wm))), w'.
    split; [done|]. split; [apply fresh_object_not_live|].
    unfold MoveOnlyResource.is_valid, MoveOnlyResource.name, bind, object, ret.
    rewrite !Hl. repeat case_decide; try congruence. done.
  - intros dst [od Hd] Hne.
    destruct (MOR_move_assign_spec _ _ _ _ _ Hne Hd Hs) as (w' & Hm & Hl).
    exists w'. split; [done|].
    unfold MoveOnlyResource.is_valid, MoveOnlyResource.name, bind, object, ret.
    rewrite !Hl. repeat case_decide; try congruence. done.
  - destruct (FG_move_ctor_spec _ _ _ Hs') as (w' & Hm & Hl).
    exists (fresh (dom (objs wg))), w'.
    split; [done|]. split; [apply fresh_object_not_live|].
    unfold FileGuard.is_open, FileGuard.filename, bind, object, ret.
    rewrite !Hl. repeat case_decide; try congruence. done.
  - intros dst' [od' Hd'] Hne'.
    destruct (FG_move_assign_spec _ _ _ _ _ Hne' Hd' Hs') as (w' & Hm & Hl).
    exists w'. split; [done|].
    unfold FileGuard.is_open, FileGuard.filename, bind, object, ret.
    rewrite !Hl. repeat case_decide; try congruence. done.
Qed.

(** Transfers in the tables that hold the source alone, and a move
    assignment in the tables with two handles. *)
Lemma transfer_of_handle_witness :
  (∃ d w',
      MoveOnlyResource.move_ctor 0 MoveOnlyResource.sample = Some (d, w') ∧
      MoveOnlyResource.is_valid 0 w' = Some (false, w') ∧
      MoveOnlyResource.is_valid d w' = Some (true, w') ∧
      MoveOnlyResource.name d w' = Some ("resource1", w')) ∧
  (∃ d w',
      FileGuard.move_ctor 0 FileGuard.sample = Some (d, w') ∧
      FileGuard.is_open 0 w' = Some (false, w') ∧
      FileGuard.is_open d w' = Some (true, w') ∧
      FileGuard.filename d w' = Some ("test.txt", w')) ∧
  (∃ w',
      MoveOnlyResource.move_assign 1 0 MoveOnlyResource.pair = Some (tt, w') ∧
      MoveOnlyResource.is_valid 0 w' = Some (false, w') ∧
      MoveOnlyResource.is_valid 1 w' = Some (true, w') ∧
      MoveOnlyResource.name 1 w' = Some ("resource1", w')) ∧
  (∃ w',
      FileGuard.move_assign 1 0 FileGuard.pair = Some (tt, w') ∧
      FileGuard.is_open 0 w' = Some (false, w') ∧
      FileGuard.is_open 1 w' = Some (true, w') ∧
      FileGuard.filename 1 w' = Some ("file1.txt", w')).
Proof.
  destruct (transfer_of_handle MoveOnlyResource.sample FileGuard.sample
              0 0 "resource1" "test.txt")
    as ((d & w' & ? & _ & ? & ? & ?) & _ & (d' & w'' & ? & _ & ? & ? & ?) & _);
    try reflexivity.
  destruct (transfer_of_handle MoveOnlyResource.pair FileGuard.pair
              0 0 "resource1" "file1.txt")
    as (_ & Hm & _ & Hg); try reflexivity.
  destruct (Hm 1) as (wm' & ? & ? & ? & ?); [by eexists|discriminate|].
  destruct (Hg 1) as (wg' & ? & ? & ? & ?); [by eexists|discriminate|].
  split; [by exists d, w'|]. split; [by exists d', w''|].
  split; [by exists wm'|by exists wg'].
Defined.

(** C6: the operations on handles are acquisition, transfer by move
    construction and by move assignment, and release; there is no copy.
    With every handle recorded against the acquisition it got what it
    holds from, and at most one valid live handle per acquisition to
    start with (as in the table with no handle): after every call of a
    sequence that runs, at most one live handle is valid for each
    acquisition, every live handle is recorded, and the acquisitions
    recorded are ones that were made.  Both for MoveOnlyResource and for
    FileGuard. *)
Theorem at_most_one_valid_handle
    (tm tm' : MoveOnlyResource.tracked) (cm : list MoveOnlyResource.call)
    (tg tg' : FileGuard.tracked) (cg : list FileGuard.call) :
  MoveOnlyResource.tracks tm → MoveOnlyResource.one_per_acquisition tm →
  FileGuard.tracks tg → FileGuard.one_per_acquisition tg →
  MoveOnlyResource.invoke_all cm tm = Some (tt, tm') →
  FileGuard.invoke_all cg tg = Some (tt, tg') →
  (∀ k, ∃ tk,
      MoveOnlyResource.invoke_all (take k cm) tm = Some (tt, tk) ∧
      MoveOnlyResource.tracks tk ∧
      MoveOnlyResource.one_per_acquisition tk) ∧
  (∀ k, ∃ tk,
      FileGuard.invoke_all (take k cg) tg = Some (tt, tk) ∧
      FileGuard.tracks tk ∧
      FileGuard.one_per_acquisition tk).
Proof.
  intros Htm Hom Htg Hog Hrm Hrg. split.
  - by apply (MOR_invoke_all_consistent cm tm tm').
  - by apply (FG_invoke_all_consistent cg tg tg').
Qed.

(** From the table with no handle: two acquisitions, a move construction,
    a move assignment over the second handle and two releases.  At the
    end handle 1 alone is valid, for the first acquisition; after the
    third call handles 1 and 2 are valid, for different acquisitions. *)
Lemma at_most_one_valid_handle_witness :
  (∃ t3 t',
      MoveOnlyResource.invoke_all
        [MoveOnlyResource.Acquire "resource1";
         MoveOnlyResource.Acquire "resource2";
         MoveOnlyResource.Transfer 0] MoveOnlyResource.start = Some (tt, t3) ∧
      MoveOnlyResource.valid_at (MoveOnlyResource.table t3) 1 ∧
      MoveOnlyResource.valid_at (MoveOnlyResource.table t3) 2 ∧
      MoveOnlyResource.one_per_acquisition t3 ∧
      MoveOnlyResource.invoke_all
        [MoveOnlyResource.Acquire "resource1";
         MoveOnlyResource.Acquire "resource2";
         MoveOnlyResource.Transfer 0;
         MoveOnlyResource.TransferTo 1 2;
         MoveOnlyResource.Release 0;
         MoveOnlyResource.Release 2] MoveOnlyResource.start = Some (tt, t') ∧
      MoveOnlyResource.origin t' !! 1 = Some 0 ∧
      MoveOnlyResource.one_per_acquisition t') ∧
  (∃ t',
      FileGuard.invoke_all
        [FileGuard.Acquire "file1.txt";
         FileGuard.Acquire "file2.txt";
         FileGuard.TransferTo 1 0;
         FileGuard.Transfer 1;
         FileGuard.Release 1] FileGuard.start = Some (tt, t') ∧
      FileGuard.one_per_acquisition t').
Proof.
  assert (MoveOnlyResource.tracks MoveOnlyResource.start) as Htm.
  { split; intros h; simpl; [|done]. rewrite !lookup_empty. done. }
  assert (MoveOnlyResource.one_per_acquisition MoveOnlyResource.start) as Hom.
  { intros h1 h2 a (o & Ho & _). discriminate Ho. }
  assert (FileGuard.tracks FileGuard.start) as Htg.
  { split; intros h; simpl; [|done]. rewrite !lookup_empty. done. }
  assert (FileGuard.one_per_acquisition FileGuard.start) as Hog.
  { intros h1 h2 a (o & Ho & _). discriminate Ho. }
  assert (∃ t',
      MoveOnlyResource.invoke_all
        [MoveOnlyResource.Acquire "resource1";
         MoveOnlyResource.Acquire "resource2";
         MoveOnlyResource.Transfer 0;
         MoveOnlyResource.TransferTo 1 2;
         MoveOnlyResource.Release 0;
         MoveOnlyResource.Release 2] MoveOnlyResource.start = Some (tt, t') ∧
      MoveOnlyResource.origin t' !! 1 = Some 0) as (tm' & Hrm & Hor).
  { eexists. split; [vm_compute; reflexivity|]. reflexivity. }
  assert (∃ t',
      FileGuard.invoke_all
        [FileGuard.Acquire "file1.txt";
         FileGuard.Acquire "file2.txt";
         FileGuard.TransferTo 1 0;
         FileGuard.Transfer 1;
         FileGuard.Release 1] FileGuard.start = Some (tt, t')) as (tg' & Hrg).
  { eexists. vm_compute. reflexivity. }
  destruct (at_most_one_valid_handle _ _ _ _ _ _ Htm Hom Htg Hog Hrm Hrg)
    as [Hm Hg].
  split.
  - destruct (Hm 3) as (t3 & Hr3 & _ & Ho3).
    destruct (Hm 6) as (t6 & Hr6 & _ & Ho6).
    simpl take in Hr3, Hr6. rewrite Hrm in Hr6. injection Hr6 as <-.
    exists t3, tm'. split; [done|].
    assert (MoveOnlyResource.valid_at (MoveOnlyResource.table t3) 1 ∧
            MoveOnlyResource.valid_at (MoveOnlyResource.table t3) 2) as [V1 V2].
    { vm_compute in Hr3. injection Hr3 as <-.
      split; eexists; (split; [vm_compute; reflexivity|reflexivity]). }
    by split_and!.
  - destruct (Hg 5) as (t5 & Hr5 & _ & Ho5).
    simpl take in Hr5. rewrite Hrg in Hr5. injection Hr5 as <-.
    by exists tg'.
Defined.

(** ** Resource: shared ownership *)

Section ResourceFacts.
Import Resource.
Implicit Types w : world.

Lemma fresh_ptr_not_live w : shared_ptrs w !! fresh (dom (shared_ptrs w)) = None.
Proof. apply not_elem_of_dom, is_fresh. Qed.

Lemma make_shared_exec id w :
  make_shared id w =
  Some (fresh (dom (shared_ptrs w)),
        World (<[fresh (dom (resources w)) := Obj id]> (resources w))
              (int_incr (instance_count_ w))
              (<[fresh (dom (resources w)) := 1]> (use_counts w))
              (<[fresh (dom (shared_ptrs w)) := Some (fresh (dom (resources w)))]>
                 (shared_ptrs w))).
Proof. reflexivity. Qed.

Lemma sp_copy_exec w p r n :
  holds w p r → use_counts w !! r = Some n →
  sp_copy p w =
  Some (fresh (dom (shared_ptrs w)),
        World (resources w) (instance_count_ w)
              (<[r := S n]> (use_counts w))
              (<[fresh (dom (shared_ptrs w)) := Some r]> (shared_ptrs w))).
Proof.
  intros Hp Hn.
  unfold sp_copy, bind, held, owners, set_owners, begin_ptr, modify.
  rewrite Hp. simpl. by rewrite Hn.
Qed.

Lemma sp_dtor_shared w p r m :
  holds w p r → use_counts w !! r = Some (S (S m)) →
  sp_dtor p w =
  Some (tt, World (resources w) (instance_count_ w)
                  (<[r := S m]> (use_counts w))
                  (delete p (shared_ptrs w))).
Proof.
  intros Hp Hn.
  unfold sp_dtor, bind, held, owners, set_owners, end_ptr, modify.
  rewrite Hp. simpl. rewrite Hn. simpl. by rewrite Hp.
Qed.

Lemma sp_dtor_last w p r res :
  holds w p r → use_counts w !! r = Some 1 → resources w !! r = Some res →
  sp_dtor p w =
  Some (tt, World (delete r (resources w)) (int_decr (instance_count_ w))
                  (delete r (use_counts w))
                  (delete p (shared_ptrs w))).
Proof.
  intros Hp Hn Hr.
  unfold sp_dtor, bind, held, owners, set_owners, end_ptr, dtor, modify.
  rewrite Hp. simpl. rewrite Hn. simpl. rewrite Hr. simpl. by rewrite Hp.
Qed.

Lemma use_count_exec w p r n :
  holds w p r → use_counts w !! r = Some n → use_count p w = Some (n, w).
Proof.
  intros Hp Hn. unfold use_count, bind, held, owners. rewrite Hp. simpl.
  by rewrite Hn.
Qed.

(** The loop of [share_resource]: [n] new owners of [r], each at a place
    not in use before, and nothing else changes. *)
Lemma push_copies_spec resource r n : ∀ acc w c,
  holds w resource r → use_counts w !! r = Some c →
  ∃ new w',
    push_copies resource n acc w = Some (acc ++ new, w') ∧
    length new = n ∧ NoDup new ∧
    (∀ p, p ∈ new → shared_ptrs w !! p = None ∧ holds w' p r) ∧
    (∀ p, p ∉ new → shared_ptrs w' !! p = shared_ptrs w !! p) ∧
    use_counts w' = <[r := c + n]> (use_counts w) ∧
    resources w' = resources w ∧
    instance_count_ w' = instance_count_ w.
Proof.
  induction n as [|n IH]; intros acc w c Hp Hc; simpl.
  - exists [], w. unfold ret. rewrite app_nil_r, Nat.add_0_r.
    split_and!; try done.
    + apply NoDup_nil_2.
    + intros p Hin. by apply elem_of_nil in Hin.
    + by rewrite insert_id.
  - unfold bind. rewrite (sp_copy_exec _ _ _ _ Hp Hc).
    set (q := fresh (dom (shared_ptrs w))).
    set (w1 := World _ _ _ _).
    assert (resource ≠ q) as Hne.
    { intros Heq. unfold holds in Hp. rewrite Heq in Hp. unfold q in Hp.
      by rewrite fresh_ptr_not_live in Hp. }
    destruct (IH (acc ++ [q]) w1 (S c))
      as (new & w' & Hrun & Hlen & Hnd & Hnew & Hold & Huc & Hres & Hic).
    { unfold holds. simpl. by rewrite lookup_insert_ne. }
    { simpl. apply lookup_insert_eq. }
    exists (q :: new), w'. rewrite Hrun, <- app_assoc. simpl.
    assert (q ∉ new) as Hq.
    { intros Hin. destruct (Hnew _ Hin) as [Hnone _]. simpl in Hnone.
      by rewrite lookup_insert_eq in Hnone. }
    split_and!; try done.
    + by rewrite Hlen.
    + by apply NoDup_cons_2.
    + intros p Hin. apply elem_of_cons in Hin as [->|Hin].
      * split; [apply fresh_ptr_not_live|].
        unfold holds. rewrite Hold by done. simpl. apply lookup_insert_eq.
      * destruct (Hnew _ Hin) as [Hnone Hh]. split; [|done]. simpl in Hnone.
        destruct (decide (p = q)) as [->|Hpq];
          [by rewrite lookup_insert_eq in Hnone|].
        by rewrite lookup_insert_ne in Hnone.
    + intros p Hin. apply not_elem_of_cons in Hin as [Hpq Hin].
      rewrite Hold by done. simpl. by rewrite lookup_insert_ne.
    + rewrite Huc. simpl. rewrite insert_insert_eq. f_equal. lia.
Qed.

(** Releasing owners of [r] while another owner remains only counts
    down. *)
Lemma release_all_spec r rel : ∀ w m,
  NoDup rel → (∀ p, p ∈ rel → holds w p r) →
  use_counts w !! r = Some (length rel + S m) →
  ∃ w',
    release_all rel w = Some (tt, w') ∧
    use_counts w' = <[r := S m]> (use_counts w) ∧
    resources w' = resources w ∧
    instance_count_ w' = instance_count_ w ∧
    (∀ p, p ∉ rel → shared_ptrs w' !! p = shared_ptrs w !! p).
Proof.
  induction rel as [|q rel IH]; intros w m Hnd Hall Hc; simpl.
  - exists w. unfold ret. split_and!; try done. by rewrite insert_id.
  - apply NoDup_cons in Hnd as [Hq Hnd].
    unfold bind. simpl in Hc.
    rewrite (sp_dtor_shared _ _ _ (length rel + m) (Hall q (list_elem_of_here _ _)))
      by (rewrite Hc; f_equal; lia).
    set (w1 := World _ _ _ _).
    destruct (IH w1 m Hnd) as (w' & Hrun & Huc & Hres & Hic & Hold).
    { intros p Hin. unfold holds. simpl. rewrite lookup_delete_ne.
      - apply Hall. by right.
      - intros ->. done. }
    { simpl. rewrite lookup_insert_eq. f_equal. lia. }
    exists w'. rewrite Hrun. split_and!; try done.
    + rewrite Huc. simpl. by rewrite insert_insert_eq.
    + intros p Hin. apply not_elem_of_cons in Hin as [Hpq Hin].
      rewrite Hold by done. simpl. by rewrite lookup_delete_ne.
Qed.
Lemma share_resource_spec w arg r c k :
  holds w arg r → use_counts w !! r = Some (S c) →
  ∃ copies w',
    share_resource arg (Z.of_nat k) w = Some (copies, w') ∧
    length copies = k ∧ NoDup copies ∧
    (∀ p, p ∈ copies → shared_ptrs w !! p = None ∧ holds w' p r) ∧
    (∀ p, p ∉ copies → shared_ptrs w' !! p = shared_ptrs w !! p) ∧
    use_counts w' = <[r := S c + k]> (use_counts w) ∧
    resources w' = resources w ∧
    instance_count_ w' = instance_count_ w.
Proof.
  intros Hp Hc. unfold share_resource, bind at 1.
  rewrite (sp_copy_exec _ _ _ _ Hp Hc), Nat2Z.id.
  set (q := fresh (dom (shared_ptrs w))).
  set (w1 := World _ _ _ _).
  assert (holds w1 q r) as Hq by (unfold holds; simpl; apply lookup_insert_eq).
  assert (use_counts w1 !! r = Some (S (S c))) as Hc1 by apply lookup_insert_eq.
  destruct (push_copies_spec q r k [] w1 (S (S c)) Hq Hc1)
    as (new & w2 & Hrun & Hlen & Hnd & Hnew & Hold & Huc & Hres & Hic).
  unfold bind. rewrite Hrun. simpl.
  assert (q ∉ new) as Hqn.
  { intros Hin. destruct (Hnew _ Hin) as [Hnone _]. simpl in Hnone.
    by rewrite lookup_insert_eq in Hnone. }
  assert (holds w2 q r) as Hq2 by (unfold holds; by rewrite Hold).
  rewrite (sp_dtor_shared _ _ _ (c + k) Hq2)
    by (rewrite Huc, lookup_insert_eq; f_equal; lia).
  unfold ret. exists new, (World (resources w2) (instance_count_ w2)
      (<[r := S (c + k)]> (use_counts w2)) (delete q (shared_ptrs w2))).
  split_and!; try done.
  - intros p Hin. destruct (Hnew _ Hin) as [Hnone Hh]. simpl in Hnone.
    assert (p ≠ q) as Hpq by (intros ->; done).
    rewrite lookup_insert_ne in Hnone by done. split; [done|].
    unfold holds. simpl. by rewrite lookup_delete_ne.
  - intros p Hin. simpl. destruct (decide (p = q)) as [->|Hpq].
    + rewrite lookup_delete_eq. symmetry. apply fresh_ptr_not_live.
    + rewrite lookup_delete_ne, Hold by done. simpl. by rewrite lookup_insert_ne.
  - simpl. rewrite Huc. simpl. by rewrite !insert_insert_eq.
Qed.
End ResourceFacts.

(** ** SharedHandle *)

(** C4: creating a shared resource adds one to the live-instance counter
    (call the new value [c]) and returns a reference [r] with reference
    count 1.  For every [k], [share_resource(r, k)] returns [k] further
    references, leaves the counter at [c] and makes the reference count
    [k + 1].  Releasing any [k] of the [k + 1] references, in any order
    [rel], leaves the counter at [c] and the remaining reference [last]
    with count 1; releasing [last] then takes exactly one off the counter
    (in [int] arithmetic, so [c - 1] whenever [c] is above the minimum). *)
Theorem shared_resource_released_once (w0 : Resource.world) (id : Z) (k : nat) :
  ∃ r w1,
    Resource.create_shared_resource id w0 = Some (r, w1) ∧
    Resource.instance_count_ w1 = int_incr (Resource.instance_count_ w0) ∧
    Resource.use_count r w1 = Some (1, w1) ∧
    ∃ copies w2,
      Resource.share_resource r (Z.of_nat k) w1 = Some (copies, w2) ∧
      length copies = k ∧
      Resource.instance_count_ w2 = Resource.instance_count_ w1 ∧
      Resource.use_count r w2 = Some (S k, w2) ∧
      ∀ rel last,
        rel ++ [last] ≡ₚ r :: copies →
        ∃ w3 w4,
          Resource.release_all rel w2 = Some (tt, w3) ∧
          Resource.instance_count_ w3 = Resource.instance_count_ w1 ∧
          Resource.use_count last w3 = Some (1, w3) ∧
          Resource.sp_dtor last w3 = Some (tt, w4) ∧
          Resource.instance_count_ w4 = int_decr (Resource.instance_count_ w1) ∧
          ((- 2 ^ 31 < Resource.instance_count_ w1 < 2 ^ 31)%Z →
           Resource.instance_count_ w4 = (Resource.instance_count_ w1 - 1)%Z).
Proof.
  unfold Resource.create_shared_resource. rewrite make_shared_exec.
  set (r := fresh (dom (Resource.shared_ptrs w0))).
  set (rr := fresh (dom (Resource.resources w0))).
  set (w1 := Resource.World _ _ _ _).
  assert (Resource.holds w1 r rr) as Hr by apply lookup_insert_eq.
  assert (Resource.use_counts w1 !! rr = Some 1) as Hc by apply lookup_insert_eq.
  assert (Resource.resources w1 !! rr = Some (Resource.Obj id)) as Hres
    by apply lookup_insert_eq.
  exists r, w1. split; [done|]. split; [done|].
  split; [by apply (use_count_exec _ _ rr)|].
  destruct (share_resource_spec w1 r rr 0 k Hr Hc)
    as (copies & w2 & Hrun & Hlen & Hnd & Hnew & Hold & Huc & Hres2 & Hic2).
  assert (r ∉ copies) as Hrc.
  { intros Hin. destruct (Hnew _ Hin) as [Hnone _]. unfold Resource.holds in Hr.
    congruence. }
  assert (Resource.holds w2 r rr) as Hr2.
  { unfold Resource.holds. by rewrite Hold. }
  exists copies, w2. split; [done|]. split; [done|]. split; [done|].
  split.
  { apply (use_count_exec _ _ rr); [done|]. by rewrite Huc, lookup_insert_eq. }
  intros rel last Hperm.
  assert (NoDup (rel ++ [last])) as Hnd2.
  { rewrite Hperm. by apply NoDup_cons_2. }
  apply NoDup_app in Hnd2 as (Hndrel & Hdisj & _).
  assert (last ∉ rel) as Hlast.
  { intros Hin. apply (Hdisj _ Hin). left. }
  assert (∀ p, p ∈ rel ++ [last] → Resource.holds w2 p rr) as Hall.
  { intros p Hin. rewrite Hperm in Hin.
    apply elem_of_cons in Hin as [->|Hin]; [done|]. by apply Hnew. }
  assert (length rel = k) as Hlrel.
  { apply Permutation_length in Hperm. rewrite length_app in Hperm.
    simpl in Hperm. lia. }
  destruct (release_all_spec rr rel w2 0 Hndrel) as (w3 & Hrel & Huc3 & Hres3 & Hic3 & Hold3).
  { intros p Hin. apply Hall, elem_of_app. by left. }
  { rewrite Huc, lookup_insert_eq. f_equal. lia. }
  assert (Resource.holds w3 last rr) as Hl3.
  { unfold Resource.holds. rewrite Hold3 by done.
    apply Hall, elem_of_app. right. left. }
  assert (Resource.use_counts w3 !! rr = Some 1) as Hc3.
  { by rewrite Huc3, lookup_insert_eq. }
  eexists w3, _. split; [done|]. split; [congruence|].
  split; [by apply (use_count_exec _ _ rr)|].
  split.
  { apply (sp_dtor_last w3 last rr (Resource.Obj id)); [done|done|].
    by rewrite Hres3, Hres2. }
  simpl. rewrite Hic3, Hic2. split; [done|].
  intros Hrange. by apply int_decr_small.
Qed.

(** Resource 42, shared three times, the copies released first. *)
Lemma shared_resource_released_once_witness :
  ∃ r w1 copies w2 w3 w4,
    Resource.create_shared_resource 42 Resource.initial = Some (r, w1) ∧
    Resource.share_resource r 3 w1 = Some (copies, w2) ∧
    Resource.use_count r w2 = Some (4, w2) ∧
    Resource.release_all copies w2 = Some (tt, w3) ∧
    Resource.instance_count_ w3 = 1%Z ∧
    Resource.sp_dtor r w3 = Some (tt, w4) ∧
    Resource.instance_count_ w4 = 0%Z.
Proof.
  destruct (shared_resource_released_once Resource.initial 42 3)
    as (r & w1 & Hc & Hic & _ & copies & w2 & Hs & _ & _ & Hu & Hall).
  destruct (Hall copies r) as (w3 & w4 & Hrel & Hic3 & _ & Hd & Hic4 & _).
  { symmetry. apply Permutation_cons_append. }
  exists r, w1, copies, w2, w3, w4.
  rewrite Hic in Hic3, Hic4.
  split_and!; done.
Defined.

(** ** The linked list of nodes *)

Section NodeFacts.
Import Node.

Lemma node_ind (P : t → Prop) :
  (∀ v, P (mk v None)) →
  (∀ v n, P n → P (mk v (Some n))) →
  ∀ n, P n.
Proof.
  intros Hlast Hlink. fix IH 1. intros [v [n|]].
  - apply Hlink, IH.
  - apply Hlast.
Qed.

Lemma values_from_append this node :
  values_from (append this node) = values_from this ++ values_of node.
Proof.
  induction this as [v|v n IH] using node_ind; simpl.
  - by destruct node.
  - by rewrite IH.
Qed.

Lemma count_loop_length current : ∀ count,
  count_loop current count =
  size_wrap (count + Z.of_nat (length (values_from current))).
Proof.
  induction current as [v|v n IH] using node_ind; intros count; simpl.
  - unfold size_incr. f_equal.
  - rewrite IH. unfold size_incr, size_wrap.
    rewrite Zplus_mod_idemp_l. f_equal. lia.
Qed.

Lemma count_nodes_length head :
  count_nodes head = size_wrap (Z.of_nat (length (values_of head))).
Proof.
  destruct head as [h|]; simpl; [|done].
  by rewrite count_loop_length.
Qed.

Lemma create_list_loop (values : list Z) c : ∀ i head,
  i + c ≤ length values →
  ∃ head',
    for_range i c
      (fun i head =>
         match values !! i with
         | Some v => Some (tt, append head (Some (ctor v)))
         | None => None
         end) head = Some (tt, head') ∧
    values_from head' = values_from head ++ take c (drop i values).
Proof.
  induction c as [|c IH]; intros i head Hlen.
  - exists head. split; [done|]. by rewrite take_0, app_nil_r.
  - destruct (lookup_lt_is_Some_2 values i) as [v Hv]; [lia|].
    destruct (IH (S i) (append head (Some (ctor v)))) as (head' & Hrun & Hvals);
      [lia|].
    exists head'. split.
    + unfold for_range; fold (@for_range t). unfold bind. rewrite Hv. exact Hrun.
    + rewrite Hvals, values_from_append. simpl.
      rewrite (drop_S values v i Hv). simpl. by rewrite <- app_assoc.
Qed.

Lemma create_list_spec (values : list Z) :
  ∃ head, create_list values = Some head ∧ values_of head = values.
Proof.
  unfold create_list. destruct values as [|v0 values].
  - by exists None.
  - rewrite decide_False by done. simpl.
    destruct (create_list_loop (v0 :: values) (length values) 1 (ctor v0))
      as (head' & Hrun & Hvals); [simpl; lia|].
    simpl in Hrun. rewrite Nat.sub_0_r, Hrun.
    exists (Some head'). split; [done|]. simpl. rewrite Hvals. simpl.
    by rewrite drop_0, firstn_all.
Qed.
End NodeFacts.

(** X1: [create_list] always returns, without reading outside [values];
    the chain it returns carries exactly the elements of [values], in
    their order, and it is the null pointer exactly when [values] is
    empty. *)
Theorem create_list_round_trip (values : list Z) :
  ∃ head,
    Node.create_list values = Some head ∧
    Node.values_of head = values ∧
    (head = None ↔ values = []).
Proof.
  destruct (create_list_spec values) as (head & Hrun & Hvals).
  exists head. split; [done|]. split; [done|].
  split.
  - intros ->. by rewrite <- Hvals.
  - intros ->. destruct head as [h|]; [|done]. by destruct h.
Qed.

(** X2: [count_nodes] of the list built from [values] is the number of
    elements of [values], as long as that number fits the 64-bit counter;
    on any chain it is the number of nodes modulo 2^64, and 0 on the null
    pointer. *)
Theorem count_nodes_of_create_list (values : list Z) :
  (Z.of_nat (length values) < 2 ^ 64)%Z →
  ∃ head,
    Node.create_list values = Some head ∧
    Node.count_nodes head = Z.of_nat (length values).
Proof.
  intros Hfit. destruct (create_list_spec values) as (head & Hrun & Hvals).
  exists head. split; [done|].
  rewrite count_nodes_length, Hvals. unfold size_wrap.
  apply Z.mod_small. lia.
Qed.

(** The list of the test, five nodes. *)
Lemma count_nodes_of_create_list_witness :
  ∃ head,
    Node.create_list [1; 2; 3; 4; 5]%Z = Some head ∧
    Node.count_nodes head = 5%Z.
Proof.
  apply (count_nodes_of_create_list [1; 2; 3; 4; 5]%Z). simpl. lia.
Defined.

(** X3: [append] puts the new chain after the last node: the values of
    the chain become the old values followed by those of the appended
    chain, whatever the length of the chain; appending the null pointer
    changes nothing, and the node count (within 64 bits) adds up. *)
Theorem append_goes_to_the_end (this : Node.t) (node : option Node.t) :
  Node.values_from (Node.append this node) =
    Node.values_from this ++ Node.values_of node ∧
  Node.append this None = this ∧
  Node.count_nodes (Some (Node.append this node)) =
    size_wrap (Node.count_nodes (Some this) + Node.count_nodes node).
Proof.
  split; [apply values_from_append|]. split.
  - induction this as [v|v n IH] using node_ind; simpl; [done|by rewrite IH].
  - rewrite !count_nodes_length. simpl. rewrite values_from_append, length_app.
    unfold size_wrap. rewrite <- Zplus_mod. f_equal. lia.
Qed.

(** ** fibonacci *)

Section FibonacciFacts.
Import Hello.

Lemma Fib_step n : Fib (S (S n)) = (Fib (S n) + Fib n)%Z.
Proof. reflexivity. Qed.

Lemma Fib_from_spec n : ∀ k, Fib_from n (Fib k) (Fib (S k)) = Fib (n + k).
Proof.
  induction n as [|n IH]; intros k; [done|].
  cbn [Fib_from]. rewrite Z.add_comm, <- Fib_step, IH. f_equal. lia.
Qed.

Lemma Fib_nonneg n : (0 ≤ Fib n ∧ 0 ≤ Fib (S n))%Z.
Proof.
  induction n as [|n [IH1 IH2]]; [simpl; lia|].
  split; [done|]. rewrite Fib_step. lia.
Qed.

Lemma Fib_mono n m : n ≤ m → (Fib n ≤ Fib m)%Z.
Proof.
  induction 1 as [|m Hle IH]; [lia|].
  destruct m as [|m]; [simpl in *; lia|].
  rewrite Fib_step. pose proof (Fib_nonneg m). lia.
Qed.

Lemma Fib_93 : Fib 93 = 12200160415121876738%Z.
Proof.
  pose proof (Fib_from_spec 93 0) as H. rewrite Nat.add_0_r in H.
  rewrite <- H. vm_compute. reflexivity.
Qed.

Lemma fibonacci_loop_spec count : ∀ i k,
  (i + Z.of_nat count ≤ INT_MAX)%Z →
  fibonacci_loop count i (uint64 (Fib k)) (uint64 (Fib (S k))) =
  Some (uint64 (Fib (S (count + k)))).
Proof.
  induction count as [|count IH]; intros i k Hi; [done|].
  cbn [fibonacci_loop]. rewrite decide_False by lia.
  replace (uint64 (uint64 (Fib k) + uint64 (Fib (S k))))
    with (uint64 (Fib (S (S k)))).
  - rewrite IH by lia. do 3 f_equal. lia.
  - rewrite Fib_step. unfold uint64. rewrite <- Zplus_mod. f_equal. lia.
Qed.
End FibonacciFacts.

(** X4: for every [n] from 0 below [INT_MAX], [fibonacci(n)] returns the
    [n]-th Fibonacci number modulo 2^64, and the number itself up to
    [n = 93], the last one that fits 64 bits. *)
Theorem fibonacci_is_Fib (n : Z) :
  (0 ≤ n < Hello.INT_MAX)%Z →
  Hello.fibonacci n = Some (Hello.uint64 (Hello.Fib (Z.to_nat n))) ∧
  ((n ≤ 93)%Z → Hello.fibonacci n = Some (Hello.Fib (Z.to_nat n))).
Proof.
  intros Hn.
  assert (Hello.fibonacci n = Some (Hello.uint64 (Hello.Fib (Z.to_nat n)))) as Hfib.
  { unfold Hello.fibonacci. destruct (decide (n ≤ 1)%Z) as [Hsmall|Hbig].
    - assert (n = 0 ∨ n = 1)%Z as [-> | ->] by lia; reflexivity.
    - change (Hello.fibonacci_loop (Z.to_nat (n - 1)) 2 0 1)
        with (Hello.fibonacci_loop (Z.to_nat (n - 1)) 2
                (Hello.uint64 (Hello.Fib 0)) (Hello.uint64 (Hello.Fib 1))).
      rewrite fibonacci_loop_spec by (unfold Hello.INT_MAX in *; lia).
      do 3 f_equal. lia. }
  split; [done|]. intros Hsmall. rewrite Hfib. f_equal.
  unfold Hello.uint64. apply Z.mod_small.
  pose proof (Fib_nonneg (Z.to_nat n)) as [Hpos _].
  pose proof (Fib_mono (Z.to_nat n) 93 ltac:(lia)) as Hle.
  rewrite Fib_93 in Hle. lia.
Qed.

(** The value of the test, [fibonacci(20) = 6765]. *)
Lemma fibonacci_is_Fib_witness :
  Hello.fibonacci 20 = Some 6765%Z.
Proof.
  destruct (fibonacci_is_Fib 20) as [_ Hexact]; [unfold Hello.INT_MAX; lia|].
  rewrite Hexact by lia. reflexivity.
Defined.

(** X5: outside that range [fibonacci] does not compute a Fibonacci
    number: a negative [n] is returned converted to 64 bits unsigned,
    that is [2^64 + n], through the first [return n]; and at
    [n = INT_MAX] the loop counter is incremented past [INT_MAX]. *)
Theorem fibonacci_outside_range (n : Z) :
  (- 2 ^ 31 ≤ n < 0)%Z →
  Hello.fibonacci n = Some (2 ^ 64 + n)%Z ∧
  Hello.fibonacci Hello.INT_MAX = None.
Proof.
  intros Hn. split.
  - unfold Hello.fibonacci. rewrite decide_True by lia. f_equal.
    unfold Hello.uint64.
    rewrite <- (Z.mod_small (2 ^ 64 + n) (2 ^ 64)) by lia.
    rewrite <- (Z_mod_plus_full n 1 (2 ^ 64)). f_equal. lia.
  - unfold Hello.fibonacci. rewrite decide_False by (unfold Hello.INT_MAX; lia).
    assert (∀ count i a b,
              (i + Z.of_nat count = Hello.INT_MAX + 1)%Z → 0 < count →
              Hello.fibonacci_loop count i a b = None) as Hloop.
    { induction count as [|count IH]; intros i a b Hi Hc; [lia|].
      cbn [Hello.fibonacci_loop].
      destruct (decide (i = Hello.INT_MAX)); [done|].
      apply IH; lia. }
    apply Hloop; unfold Hello.INT_MAX; lia.
Qed.

(** [fibonacci(-1)] is the largest 64-bit value. *)
Lemma fibonacci_outside_range_witness :
  Hello.fibonacci (-1) = Some (2 ^ 64 - 1)%Z.
Proof.
  destruct (fibonacci_outside_range (-1)) as [Hneg _]; [lia|].
  rewrite Hneg. reflexivity.
Defined.

(** ** share_resource on any reference *)

Lemma share_resource_to_nat (arg : nat) (copies : Z) (w : Resource.world) :
  Resource.share_resource arg copies w =
  Resource.share_resource arg (Z.of_nat (Z.to_nat copies)) w.
Proof. unfold Resource.share_resource. by rewrite Nat2Z.id. Qed.

Lemma world_eta (w : Resource.world) :
  Resource.World (Resource.resources w) (Resource.instance_count_ w)
                 (Resource.use_counts w) (Resource.shared_ptrs w) = w.
Proof. by destruct w. Qed.

(** X6: on a reference [arg] to a resource with [n > 0] owners,
    [share_resource(arg, copies)] returns [max(copies, 0)] references, all
    distinct, at places not in use before and all owning that resource;
    the reference count becomes [n + max(copies, 0)]; the references there
    were, the resources and the live-instance counter are as before.  With
    [copies <= 0] the returned vector is empty and the whole store is as
    it was. *)
Theorem share_resource_adds_owners
    (w : Resource.world) (arg r n : nat) (copies : Z) :
  Resource.holds w arg r →
  Resource.use_counts w !! r = Some (S n) →
  ∃ result w',
    Resource.share_resource arg copies w = Some (result, w') ∧
    length result = Z.to_nat copies ∧
    NoDup result ∧
    (∀ p, p ∈ result → Resource.shared_ptrs w !! p = None ∧ Resource.holds w' p r) ∧
    (∀ p, p ∉ result → Resource.shared_ptrs w' !! p = Resource.shared_ptrs w !! p) ∧
    Resource.use_count arg w' = Some (S n + Z.to_nat copies, w') ∧
    Resource.resources w' = Resource.resources w ∧
    Resource.instance_count_ w' = Resource.instance_count_ w ∧
    ((copies ≤ 0)%Z → result = [] ∧ w' = w).
Proof.
  intros Hp Hc. rewrite share_resource_to_nat.
  destruct (share_resource_spec w arg r n (Z.to_nat copies) Hp Hc)
    as (result & w' & Hrun & Hlen & Hnd & Hnew & Hold & Huc & Hres & Hic).
  assert (arg ∉ result) as Harg.
  { intros Hin. destruct (Hnew _ Hin) as [Hnone _]. unfold Resource.holds in Hp.
    congruence. }
  exists result, w'. split_and!; try done.
  - apply (use_count_exec _ _ r).
    + unfold Resource.holds. by rewrite Hold.
    + by rewrite Huc, lookup_insert_eq.
  - intros Hneg.
    assert (result = []) as ->.
    { apply length_zero_iff_nil. rewrite Hlen. lia. }
    split; [done|].
    rewrite <- (world_eta w'), <- (world_eta w). f_equal; try done.
    + rewrite Huc. replace (Z.to_nat copies) with 0 by lia.
      rewrite Nat.add_0_r. by apply insert_id.
    + apply map_eq. intros p. apply Hold, not_elem_of_nil.
Qed.

(** The second call of the test on one resource: 2 owners after the first
    sharing is over, 3 more asked for. *)
Lemma share_resource_adds_owners_witness :
  ∃ result w',
    Resource.share_resource 0 3
      (Resource.World {[0 := Resource.Obj 99]} 1 {[0 := 2]}
                      {[0 := Some 0; 1 := Some 0]}) = Some (result, w') ∧
    length result = 3 ∧
    Resource.use_count 0 w' = Some (5, w').
Proof.
  destruct (share_resource_adds_owners
              (Resource.World {[0 := Resource.Obj 99]} 1 {[0 := 2]}
                              {[0 := Some 0; 1 := Some 0]}) 0 0 1 3)
    as (result & w' & Hrun & Hlen & _ & _ & _ & Huc & _).
  - reflexivity.
  - reflexivity.
  - by exists result, w'.
Defined.

(** ** The functions that pass LargeBuffers around *)


(** X8: [process_copy(x)] on an lvalue leaves [x] as it was, same storage
    and same contents, and returns a new buffer of the same length whose
    elements are all 100, in a block that was not live before.  It costs
    one copy and one move; nothing is released, and no other object and no
    other block is touched. *)
Theorem process_copy_keeps_argument
    (w : LargeBuffer.world) (x : nat) (p : Heap.ptr) (C : list Z) :
  LargeBuffer.owns w x p C →
  ∃ r w' q,
    LargeBuffer.call_process_copy x w = Some (r, w') ∧
    objs w !! r = None ∧
    Heap.blocks (heap w) !! q = None ∧
    LargeBuffer.owns w' x p C ∧
    LargeBuffer.owns w' r (Some q) (replicate (length C) 100%Z) ∧
    LargeBuffer.copy_count_ (stats w') = size_incr (LargeBuffer.copy_count_ (stats w)) ∧
    LargeBuffer.move_count_ (stats w') = size_incr (LargeBuffer.move_count_ (stats w)) ∧
    Heap.released (heap w') = Heap.released (heap w) ∧
    (∀ y, y ≠ r → objs w' !! y = objs w !! y) ∧
    (∀ b, b ≠ q → Heap.blocks (heap w') !! b = Heap.blocks (heap w) !! b).
Proof.
  intros Hx. pose proof Hx as [Hxo Hxp].
  unfold LargeBuffer.call_process_copy, bind at 1.
  rewrite (LB_copy_ctor_exec _ _ _ _ Hx).
  set (buf := fresh (dom (objs w))). set (q := Heap.fresh_addr (heap w)).
  set (w1 := Store _ _ _).
  assert (objs w !! buf = None) as Hbuf by apply fresh_object_not_live.
  assert (Heap.blocks (heap w) !! q = None) as Hq by apply fresh_addr_not_live.
  assert (x ≠ buf) as Hxb by (by eapply live_not_fresh).
  assert (p ≠ Some q) as Hpq.
  { intros ->. by rewrite Hq in Hxp. }
  assert (LargeBuffer.owns w1 buf (Some q) C) as Ho1.
  { split; simpl; by rewrite lookup_insert_eq. }
  unfold LargeBuffer.process_copy, bind at 1, bind at 1.
  rewrite (LB_fill_spec _ _ _ _ 100%Z Ho1). set (w2 := Store _ _ _).
  assert (objs w2 !! buf = Some (LargeBuffer.Obj (Some q) (length C))) as Hb2.
  { simpl. apply lookup_insert_eq. }
  rewrite (LB_move_ctor_exec _ _ _ Hb2).
  set (r := fresh (dom (objs w2))). set (w3 := Store _ _ _).
  assert (buf ≠ r) as Hne by (by eapply live_not_fresh).
  assert (x ≠ r) as Hxr.
  { eapply live_not_fresh. simpl. rewrite lookup_insert_ne by done. exact Hxo. }
  assert (objs w !! r = None) as Hr.
  { destruct (objs w !! r) as [o|] eqn:Ho; [|done].
    assert (r ≠ fresh (dom (objs w2))) as []; [|done].
    eapply live_not_fresh. simpl. rewrite lookup_insert_ne by done. exact Ho. }
  unfold bind at 1. erewrite (LB_dtor_null w3 buf 0) by apply lookup_insert_eq.
  exists r, (Store (heap w3) (delete buf (objs w3)) (stats w3)), q.
  unfold ret. split_and!; try done.
  - split; simpl.
    + by rewrite lookup_delete_ne, !lookup_insert_ne by done.
    + destruct p as [a|]; [|done].
      rewrite !lookup_insert_ne by congruence. done.
  - split; simpl.
    + rewrite lookup_delete_ne, lookup_insert_ne, lookup_insert_eq by done.
      by rewrite length_replicate.
    + by rewrite !lookup_insert_eq.
  - intros y Hy. simpl. destruct (decide (y = buf)) as [->|Hyb].
    + by rewrite lookup_delete_eq.
    + by rewrite lookup_delete_ne, !lookup_insert_ne by done.
  - intros b Hb. simpl. by rewrite !lookup_insert_ne.
Qed.

(** The sample buffer holding 5 and 7, passed by value. *)
Lemma process_copy_keeps_argument_witness :
  ∃ r w' q,
    LargeBuffer.call_process_copy 0 LargeBuffer.sample = Some (r, w') ∧
    LargeBuffer.owns w' 0 (Some 0) [5; 7]%Z ∧
    LargeBuffer.owns w' r (Some q) [100; 100]%Z.
Proof.
  destruct (process_copy_keeps_argument LargeBuffer.sample 0 (Some 0) [5; 7]%Z)
    as (r & w' & q & Hrun & _ & _ & Hx & Hr & _).
  - split; reflexivity.
  - by exists r, w', q.
Defined.

(** X9: [process_move(std::move(x))] allocates nothing: the result takes
    over the very storage of [x], now holding 200 in every element, and
    [x] is left with length 0 and no buffer.  It costs one move and no
    copy, and nothing is released. *)
Theorem process_move_takes_storage
    (w : LargeBuffer.world) (x : nat) (p : Heap.ptr) (C : list Z) :
  LargeBuffer.owns w x p C →
  ∃ r w',
    LargeBuffer.process_move x w = Some (r, w') ∧
    objs w !! r = None ∧
    LargeBuffer.owns w' x Heap.nullptr [] ∧
    LargeBuffer.owns w' r p (replicate (length C) 200%Z) ∧
    dom (Heap.blocks (heap w')) = dom (Heap.blocks (heap w)) ∧
    LargeBuffer.copy_count_ (stats w') = LargeBuffer.copy_count_ (stats w) ∧
    LargeBuffer.move_count_ (stats w') = size_incr (LargeBuffer.move_count_ (stats w)) ∧
    Heap.released (heap w') = Heap.released (heap w) ∧
    (∀ y, y ≠ r → y ≠ x → objs w' !! y = objs w !! y).
Proof.
  intros Hx. pose proof Hx as [Hxo Hxp].
  unfold LargeBuffer.process_move, bind at 1.
  rewrite (LB_fill_spec _ _ _ _ 200%Z Hx). set (w1 := Store _ _ _).
  assert (objs w1 !! x = Some (LargeBuffer.Obj p (length C))) as Hx1 by done.
  rewrite (LB_move_ctor_exec _ _ _ Hx1).
  assert (x ≠ fresh (dom (objs w))) as Hne by (by eapply live_not_fresh).
  eexists _, _. split; [done|]. simpl.
  split; [apply fresh_object_not_live|].
  split_and!; try done.
  - split; simpl; [by rewrite lookup_insert_eq|done].
  - split; simpl.
    + rewrite lookup_insert_ne, lookup_insert_eq by done.
      by rewrite length_replicate.
    + destruct p as [a|]; simpl; [by rewrite lookup_insert_eq|].
      subst C. done.
  - destruct p as [a|]; simpl; [|done].
    apply dom_insert_lookup_L. by rewrite Hxp.
  - by destruct p.
  - intros y Hy Hyx. by rewrite !lookup_insert_ne.
Qed.

(** The sample buffer holding 5 and 7, moved through. *)
Lemma process_move_takes_storage_witness :
  ∃ r w',
    LargeBuffer.process_move 0 LargeBuffer.sample = Some (r, w') ∧
    LargeBuffer.owns w' 0 Heap.nullptr [] ∧
    LargeBuffer.owns w' r (Some 0) [200; 200]%Z.
Proof.
  destruct (process_move_takes_storage LargeBuffer.sample 0 (Some 0) [5; 7]%Z)
    as (r & w' & Hrun & _ & Hx & Hr & _).
  - split; reflexivity.
  - by exists r, w'.
Defined.

(** ** create_multiple_resources *)

Section MultipleResources.
Import ResourceManager.
Implicit Types w : world.


End MultipleResources.





(** ** The ownership discipline is kept by each kind of change *)

Section DisciplineFacts.
Context {O C : Type} (data_of : O → Heap.ptr) (size_of : O → nat).
Implicit Types w : store O C.
Local Abbreviation disciplined := (@disciplined O C data_of size_of).
Local Abbreviation unowning := (@unowning O C data_of).

Lemma discipline_empty (st : C) : disciplined (Store Heap.empty ∅ st).
Proof.
  split; simpl.
  - intros x o Hx. by rewrite lookup_empty in Hx.
  - intros x y ox oy a Hx. by rewrite lookup_empty in Hx.
  - intros a blk Ha. by rewrite lookup_empty in Ha.
  - intros a Ha. by apply elem_of_nil in Ha.
  - apply NoDup_nil_2.
Qed.

Lemma discipline_stats w st :
  disciplined w → disciplined (Store (heap w) (objs w) st).
Proof. intros [H1 H2 H3 H4 H5]. by split. Qed.

(** An object that owns nothing appears, or replaces one that owned
    nothing. *)
Lemma discipline_put_null w x o st :
  disciplined w → unowning w x →
  data_of o = None → size_of o = 0 →
  disciplined (Store (heap w) (<[x := o]> (objs w)) st).
Proof.
  intros [H1 H2 H3 H4 H5] Hx Hd Hs. split; simpl; try done.
  - intros y oy Hy. destruct (decide (y = x)) as [->|Hne].
    + rewrite lookup_insert_eq in Hy. injection Hy as <-. by rewrite Hd.
    + rewrite lookup_insert_ne in Hy by done. by apply (H1 y).
  - intros y z oy oz a Hy Hz Hay Haz.
    destruct (decide (y = x)) as [->|Hney].
    { rewrite lookup_insert_eq in Hy. injection Hy as <-. congruence. }
    destruct (decide (z = x)) as [->|Hnez].
    { rewrite lookup_insert_eq in Hz. injection Hz as <-. congruence. }
    rewrite lookup_insert_ne in Hy, Hz by done. by eapply H2.
  - intros a blk Ha. destruct (H3 a blk Ha) as (y & oy & Hy & Hay).
    exists y, oy. split; [|done]. rewrite lookup_insert_ne; [done|].
    intros ->. specialize (Hx _ Hy). congruence.
Qed.

(** An object that owned nothing takes a block that was neither live nor
    released. *)
Lemma discipline_put_block w x o a (Cs : list Z) st :
  disciplined w → unowning w x →
  Heap.blocks (heap w) !! a = None → a ∉ Heap.released (heap w) →
  data_of o = Some a → size_of o = length Cs →
  disciplined (Store (Heap.with_block (heap w) a Cs) (<[x := o]> (objs w)) st).
Proof.
  intros [H1 H2 H3 H4 H5] Hx Ha Har Hd Hs. split; simpl; try done.
  - intros y oy Hy. destruct (decide (y = x)) as [->|Hne].
    + rewrite lookup_insert_eq in Hy. injection Hy as <-. rewrite Hd.
      exists Cs. by rewrite lookup_insert_eq.
    + rewrite lookup_insert_ne in Hy by done. specialize (H1 y oy Hy).
      destruct (data_of oy) as [b|]; [|done].
      destruct H1 as (Cs' & Hb & Hlen). exists Cs'. split; [|done].
      rewrite lookup_insert_ne; [done|]. intros <-. congruence.
  - intros y z oy oz b Hy Hz Hby Hbz.
    assert (∀ u ou, u ≠ x → objs w !! u = Some ou → data_of ou = Some b → b ≠ a)
      as Hother.
    { intros u ou Hu Hou Hbu ->. specialize (H1 u ou Hou). rewrite Hbu in H1.
      destruct H1 as (? & ? & _). congruence. }
    destruct (decide (y = x)) as [->|Hney], (decide (z = x)) as [->|Hnez];
      try done.
    + rewrite lookup_insert_eq in Hy. injection Hy as <-.
      rewrite lookup_insert_ne in Hz by done.
      destruct (Hother z oz Hnez Hz Hbz). congruence.
    + rewrite lookup_insert_eq in Hz. injection Hz as <-.
      rewrite lookup_insert_ne in Hy by done.
      destruct (Hother y oy Hney Hy Hby). congruence.
    + rewrite lookup_insert_ne in Hy, Hz by done. by eapply H2.
  - intros b blk Hb. destruct (decide (b = a)) as [->|Hne].
    + exists x, o. by rewrite lookup_insert_eq.
    + rewrite lookup_insert_ne in Hb by done.
      destruct (H3 b blk Hb) as (y & oy & Hy & Hby).
      exists y, oy. split; [|done]. rewrite lookup_insert_ne; [done|].
      intros ->. specialize (Hx _ Hy). congruence.
  - intros b Hb. rewrite lookup_insert_ne; [by apply H4|]. by intros <-.
Qed.

(** The buffer of [y] goes to [x], which owned nothing, and [y] is left
    owning nothing. *)
Lemma discipline_transfer w x y ox oy oy' st :
  disciplined w → unowning w x → x ≠ y →
  objs w !! y = Some oy →
  data_of ox = data_of oy → size_of ox = size_of oy →
  data_of oy' = None → size_of oy' = 0 →
  disciplined (Store (heap w) (<[y := oy']> (<[x := ox]> (objs w))) st).
Proof.
  intros [H1 H2 H3 H4 H5] Hx Hne Hy Hd Hs Hd' Hs'. split; simpl; try done.
  - intros z oz Hz. destruct (decide (z = y)) as [->|Hzy].
    { rewrite lookup_insert_eq in Hz. injection Hz as <-. by rewrite Hd'. }
    rewrite lookup_insert_ne in Hz by done.
    destruct (decide (z = x)) as [->|Hzx].
    { rewrite lookup_insert_eq in Hz. injection Hz as <-.
      rewrite Hd, Hs. by apply (H1 y). }
    rewrite lookup_insert_ne in Hz by done. by apply (H1 z).
  - assert (∀ z oz a,
              <[y := oy']> (<[x := ox]> (objs w)) !! z = Some oz →
              data_of oz = Some a →
              z ≠ y ∧ (z = x ∧ data_of oy = Some a ∨
                       z ≠ x ∧ objs w !! z = Some oz)) as Hback.
    { intros z oz a Hz Ha. destruct (decide (z = y)) as [->|Hzy].
      { rewrite lookup_insert_eq in Hz. injection Hz as <-. congruence. }
      split; [done|]. rewrite lookup_insert_ne in Hz by done.
      destruct (decide (z = x)) as [->|Hzx].
      - rewrite lookup_insert_eq in Hz. injection Hz as <-. left. by rewrite <- Hd.
      - rewrite lookup_insert_ne in Hz by done. by right. }
    intros u v ou ov a Hu Hv Hau Hav.
    destruct (Hback _ _ _ Hu Hau) as [Huy [[-> Hya]|[Hux Hu']]],
             (Hback _ _ _ Hv Hav) as [Hvy [[-> Hya']|[Hvx Hv']]]; try done.
    + destruct Hvy. by eapply (H2 v y).
    + destruct Huy. by eapply (H2 u y).
    + by eapply H2.
  - intros a blk Ha. destruct (H3 a blk Ha) as (z & oz & Hz & Haz).
    destruct (decide (z = y)) as [->|Hzy].
    + exists x, ox. rewrite lookup_insert_ne, lookup_insert_eq by done.
      split; [done|]. congruence.
    + exists z, oz. split; [|done].
      rewrite lookup_insert_ne by done. rewrite lookup_insert_ne; [done|].
      intros ->. specialize (Hx _ Hz). congruence.
Qed.

(** [x] gives up its buffer, which is released. *)
Lemma discipline_release w x o o' st :
  disciplined w → objs w !! x = Some o →
  data_of o' = None → size_of o' = 0 →
  disciplined (Store (Heap.release (data_of o) (heap w)) (<[x := o']> (objs w)) st).
Proof.
  intros Hw Hx Hd Hs. destruct (data_of o) as [a|] eqn:Ha.
  - destruct Hw as [H1 H2 H3 H4 H5]. split; simpl.
    + intros y oy Hy. destruct (decide (y = x)) as [->|Hne].
      * rewrite lookup_insert_eq in Hy. injection Hy as <-. by rewrite Hd.
      * rewrite lookup_insert_ne in Hy by done. specialize (H1 y oy Hy).
        destruct (data_of oy) as [b|] eqn:Hb; [|done].
        destruct H1 as (Cs & Hblk & Hlen). exists Cs. split; [|done].
        rewrite lookup_delete_ne; [done|]. intros <-.
        destruct Hne. by eapply (H2 y x).
    + intros y z oy oz b Hy Hz Hby Hbz.
      destruct (decide (y = x)) as [->|Hney].
      { rewrite lookup_insert_eq in Hy. injection Hy as <-. congruence. }
      destruct (decide (z = x)) as [->|Hnez].
      { rewrite lookup_insert_eq in Hz. injection Hz as <-. congruence. }
      rewrite lookup_insert_ne in Hy, Hz by done. by eapply H2.
    + intros b blk Hb. destruct (decide (b = a)) as [->|Hne].
      { by rewrite lookup_delete_eq in Hb. }
      rewrite lookup_delete_ne in Hb by done.
      destruct (H3 b blk Hb) as (y & oy & Hy & Hby).
      exists y, oy. split; [|done]. rewrite lookup_insert_ne; [done|].
      intros ->. congruence.
    + intros b Hb. apply elem_of_cons in Hb as [->|Hb].
      * apply lookup_delete_eq.
      * destruct (decide (b = a)) as [->|Hne]; [apply lookup_delete_eq|].
        rewrite lookup_delete_ne by done. by apply H4.
    + apply NoDup_cons_2; [|done]. intros Hin. specialize (H4 a Hin).
      specialize (H1 x o Hx). rewrite Ha in H1. destruct H1 as (? & ? & _).
      congruence.
  - simpl. apply discipline_put_null; try done.
    intros o0 Ho0. congruence.
Qed.

(** An object that owns nothing disappears. *)
Lemma discipline_remove w x st :
  disciplined w → unowning w x →
  disciplined (Store (heap w) (delete x (objs w)) st).
Proof.
  intros [H1 H2 H3 H4 H5] Hx. split; simpl; try done.
  - intros y oy Hy. apply lookup_delete_Some in Hy as [_ Hy]. by apply (H1 y).
  - intros y z oy oz a Hy Hz.
    apply lookup_delete_Some in Hy as [_ Hy]. apply lookup_delete_Some in Hz as [_ Hz].
    by eapply H2.
  - intros a blk Ha. destruct (H3 a blk Ha) as (y & oy & Hy & Hay).
    exists y, oy. split; [|done]. rewrite lookup_delete_ne; [done|].
    intros ->. specialize (Hx _ Hy). congruence.
Qed.

(** The elements of a live block are overwritten. *)
Lemma discipline_write w a blk (Cs : list Z) st :
  disciplined w →
  Heap.blocks (heap w) !! a = Some blk → length Cs = length blk →
  disciplined (Store (Heap.with_block (heap w) a Cs) (objs w) st).
Proof.
  intros [H1 H2 H3 H4 H5] Ha Hlen. split; simpl; try done.
  - intros y oy Hy. specialize (H1 y oy Hy).
    destruct (data_of oy) as [b|]; [|done].
    destruct H1 as (Cs' & Hb & Hlen'). destruct (decide (b = a)) as [->|Hne].
    + exists Cs. rewrite lookup_insert_eq. split; [done|].
      rewrite Ha in Hb. injection Hb as ->. rewrite length_fmap in Hlen.
      congruence.
    + exists Cs'. by rewrite lookup_insert_ne.
  - intros b blk' Hb. destruct (decide (b = a)) as [->|Hne].
    + by eapply H3.
    + rewrite lookup_insert_ne in Hb by done. by eapply H3.
  - intros b Hb. destruct (decide (b = a)) as [->|Hne].
    + specialize (H4 a Hb). congruence.
    + rewrite lookup_insert_ne by done. by apply H4.
Qed.

Lemma fresh_addr_unused (h : Heap.t) :
  Heap.blocks h !! Heap.fresh_addr h = None ∧
  Heap.fresh_addr h ∉ Heap.released h.
Proof. split; [apply fresh_addr_not_live|apply fresh_addr_not_released]. Qed.
End DisciplineFacts.

(** ** LargeBuffer: the assignments, as changes of the store *)

Section LBAssign.
Import LargeBuffer.
Implicit Types w : world.

Lemma release_exec (p : Heap.ptr) (h : Heap.t) blk :
  (∀ a, p = Some a → Heap.blocks h !! a = Some blk) →
  Heap.delete_array p h = Some (tt, Heap.release p h).
Proof.
  intros Hp. destruct p as [a|]; simpl; [|done]. by rewrite (Hp a eq_refl).
Qed.

Lemma LB_copy_assign_exec w this other pd Cd ps Cs :
  this ≠ other →
  owns w this pd Cd → owns w other ps Cs →
  (∀ a, pd = Some a → ps ≠ Some a) →
  copy_assign this other w =
  Some (tt, Store (Heap.with_block (Heap.release pd (heap w))
                     (Heap.fresh_addr (Heap.release pd (heap w))) Cs)
                  (<[this := Obj (Some (Heap.fresh_addr (Heap.release pd (heap w))))
                                 (length Cs)]> (objs w))
                  (incr_copy (stats w))).
Proof.
  intros Hne [Ht Hd] [Ho Hs] Hdisj.
  unfold copy_assign. destruct (decide (this ≠ other)); [|done].
  unfold bind, object, update, on_stats, on_heap, modify, ret.
  rewrite Ht. simpl.
  set (h1 := Heap.release pd (heap w)).
  assert (Heap.delete_array pd (heap w) = Some (tt, h1)) as ->.
  { destruct pd as [a|]; simpl; [by rewrite Hd|done]. }
  assert (match ps with
          | Some a => Heap.blocks h1 !! a = Some (Some <$> Cs)
          | None => Cs = []
          end) as Hs1.
  { destruct ps as [a|]; [|done]. destruct pd as [a'|]; [|done].
    simpl. rewrite lookup_delete_ne; [done|]. intros ->. by eapply Hdisj. }
  run_store. rewrite insert_insert_eq.
  destruct ps as [a|].
  - assert (a ≠ Heap.fresh_addr h1) as Hfr.
    { intros ->. by rewrite fresh_addr_not_live in Hs1. }
    erewrite LB_copy_loop_block;
      [|exact Hfr|apply lookup_insert_eq
       |by simpl; rewrite lookup_insert_ne
       |by simpl; rewrite lookup_insert_ne
       |apply lookup_insert_eq|by rewrite length_replicate|done].
    unfold Heap.with_block. simpl. by rewrite insert_insert_eq.
  - subst Cs. erewrite LB_copy_loop_empty by apply lookup_insert_eq.
    done.
Qed.

Lemma LB_move_assign_exec w this other pd Cd ps Cs :
  this ≠ other →
  owns w this pd Cd → owns w other ps Cs →
  move_assign this other w =
  Some (tt, Store (Heap.release pd (heap w))
                  (<[other := Obj None 0]>
                     (<[this := Obj ps (length Cs)]> (objs w)))
                  (incr_move (stats w))).
Proof.
  intros Hne [Ht Hd] [Ho Hs].
  unfold move_assign. destruct (decide (this ≠ other)); [|done].
  unfold bind, object, update, on_stats, on_heap, modify, ret.
  rewrite Ht. simpl.
  assert (Heap.delete_array pd (heap w) = Some (tt, Heap.release pd (heap w))) as ->.
  { destruct pd as [a|]; simpl; [by rewrite Hd|done]. }
  run_store. by rewrite !insert_insert_eq.
Qed.
End LBAssign.

(** ** Resource: the instance count is the number of live resources *)

Section ResourceCount.
Import Resource.
Implicit Types w : world.

Lemma grows_ret {A} (a : A) : grows 0 (ret (St := world) a).
Proof. intros w a' w' Hrun He _. injection Hrun as _ <-. split; [done|lia]. Qed.

Lemma grows_bind {A B} (c : M world A) (f : A → M world B) (k1 k2 : nat) :
  grows k1 c → (∀ a, grows k2 (f a)) → grows (k1 + k2) (bind c f).
Proof.
  intros Hc Hf w b w' Hrun He Hroom. unfold bind in Hrun.
  destruct (c w) as [[a w1]|] eqn:Hcw; [|done].
  destruct (Hc w a w1 Hcw He) as [He1 Hs1]; [lia|].
  destruct (Hf a w1 b w' Hrun He1) as [He2 Hs2]; [lia|].
  split; [done|lia].
Qed.

Lemma grows_same {A} (c : M world A) :
  (∀ w a w', c w = Some (a, w') →
     resources w' = resources w ∧ instance_count_ w' = instance_count_ w) →
  grows 0 c.
Proof.
  intros Hc w a w' Hrun He _. destruct (Hc w a w' Hrun) as [Hr Hi].
  unfold exact. rewrite Hr, Hi. split; [done|lia].
Qed.

Lemma grows_ctor (id : Z) : grows 1 (ctor id).
Proof.
  intros w a w' Hrun He Hroom. unfold ctor in Hrun. injection Hrun as _ <-.
  unfold exact in *. simpl.
  rewrite map_size_insert_None by apply not_elem_of_dom, is_fresh.
  rewrite He, int_incr_small by lia. split; lia.
Qed.

Lemma grows_dtor (this : nat) : grows 0 (dtor this).
Proof.
  intros w a w' Hrun He Hroom. unfold dtor in Hrun.
  destruct (resources w !! this) as [o|] eqn:Ho; [|done].
  injection Hrun as _ <-. unfold exact in *. simpl.
  pose proof (map_size_insert_None this o (delete this (resources w))
                (lookup_delete_eq _ _)) as Hsize.
  rewrite (insert_delete_id (resources w) this o Ho) in Hsize.
  rewrite He, int_decr_small by lia. split; lia.
Qed.

Lemma grows_more {A} (c : M world A) (k k' : nat) :
  k ≤ k' → grows k c → grows k' c.
Proof.
  intros Hk Hc w a w' Hrun He Hroom.
  destruct (Hc w a w' Hrun He) as [He' Hs]; [lia|]. split; [done|lia].
Qed.

Lemma grows_held this : grows 0 (held this).
Proof.
  apply grows_same. intros w a w' Hrun. unfold held in Hrun.
  destruct (shared_ptrs w !! this); [|done]. by injection Hrun as _ <-.
Qed.

Lemma grows_set_held this h : grows 0 (set_held this h).
Proof.
  apply grows_same. intros w a w' Hrun. unfold set_held in Hrun.
  destruct (shared_ptrs w !! this); [|done]. by injection Hrun as _ <-.
Qed.

Lemma grows_begin_ptr h : grows 0 (begin_ptr h).
Proof.
  apply grows_same. intros w a w' Hrun. unfold begin_ptr in Hrun.
  by injection Hrun as _ <-.
Qed.

Lemma grows_end_ptr this : grows 0 (end_ptr this).
Proof.
  apply grows_same. intros w a w' Hrun. unfold end_ptr in Hrun.
  destruct (shared_ptrs w !! this); [|done]. by injection Hrun as _ <-.
Qed.

Lemma grows_owners r : grows 0 (owners r).
Proof.
  apply grows_same. intros w a w' Hrun. unfold owners in Hrun.
  destruct (use_counts w !! r); [|done]. by injection Hrun as _ <-.
Qed.

Lemma grows_set_owners r n : grows 0 (set_owners r n).
Proof.
  apply grows_same. intros w a w' Hrun. unfold set_owners, modify in Hrun.
  by injection Hrun as _ <-.
Qed.

Lemma grows_abort {A} : grows 0 (abort (St := world) (A := A)).
Proof. intros w a w' Hrun. done. Qed.

Lemma grows_sp_copy other : grows 0 (sp_copy other).
Proof.
  unfold sp_copy.
  apply (grows_bind _ _ 0 0); [apply grows_held|]. intros h.
  apply (grows_bind _ _ 0 0); [|intros; apply grows_begin_ptr].
  destruct h as [r|]; [|apply grows_ret].
  apply (grows_bind _ _ 0 0); [apply grows_owners|].
  intros n. apply grows_set_owners.
Qed.

Lemma grows_sp_move other : grows 0 (sp_move other).
Proof.
  unfold sp_move.
  apply (grows_bind _ _ 0 0); [apply grows_held|]. intros h.
  apply (grows_bind _ _ 0 0); [apply grows_begin_ptr|]. intros this.
  apply (grows_bind _ _ 0 0); [apply grows_set_held|]. intros _.
  apply grows_ret.
Qed.

Lemma grows_sp_dtor this : grows 0 (sp_dtor this).
Proof.
  unfold sp_dtor.
  apply (grows_bind _ _ 0 0); [apply grows_held|]. intros h.
  apply (grows_bind _ _ 0 0); [|intros; apply grows_end_ptr].
  destruct h as [r|]; [|apply grows_ret].
  apply (grows_bind _ _ 0 0); [apply grows_owners|].
  intros [|[|m]].
  - apply grows_abort.
  - apply (grows_bind _ _ 0 0); [apply grows_dtor|].
    intros _. apply grows_set_owners.
  - apply grows_set_owners.
Qed.

Lemma grows_use_count this : grows 0 (use_count this).
Proof.
  unfold use_count.
  apply (grows_bind _ _ 0 0); [apply grows_held|]. intros [r|].
  - apply grows_owners.
  - apply grows_ret.
Qed.

Lemma grows_push_copies resource n : ∀ result,
  grows 0 (push_copies resource n result).
Proof.
  induction n as [|n IH]; intros result; simpl.
  - apply grows_ret.
  - apply (grows_bind _ _ 0 0); [apply grows_sp_copy|]. intros c. apply IH.
Qed.

Lemma grows_share_resource arg copies : grows 0 (share_resource arg copies).
Proof.
  unfold share_resource.
  apply (grows_bind _ _ 0 0); [apply grows_sp_copy|]. intros resource.
  apply (grows_bind _ _ 0 0); [apply grows_push_copies|]. intros result.
  apply (grows_bind _ _ 0 0); [apply grows_sp_dtor|]. intros _.
  apply grows_ret.
Qed.

Lemma grows_make_shared id : grows 1 (make_shared id).
Proof.
  unfold make_shared.
  apply (grows_bind _ _ 1 0); [apply grows_ctor|]. intros r.
  apply (grows_bind _ _ 0 0); [apply grows_set_owners|]. intros _.
  apply grows_begin_ptr.
Qed.

Lemma grows_invoke c : grows 1 (invoke c).
Proof.
  destruct c as [id|p|p|p|p n|p]; simpl.
  - apply (grows_bind _ _ 1 0); [apply grows_make_shared|].
    intros _. apply grows_ret.
  - apply (grows_more _ 0); [lia|].
    apply (grows_bind _ _ 0 0); [apply grows_sp_copy|].
    intros _. apply grows_ret.
  - apply (grows_more _ 0); [lia|].
    apply (grows_bind _ _ 0 0); [apply grows_sp_move|].
    intros _. apply grows_ret.
  - apply (grows_more _ 0); [lia|]. apply grows_sp_dtor.
  - apply (grows_more _ 0); [lia|].
    apply (grows_bind _ _ 0 0); [apply grows_share_resource|].
    intros _. apply grows_ret.
  - apply (grows_more _ 0); [lia|].
    apply (grows_bind _ _ 0 0); [apply grows_use_count|].
    intros _. apply grows_ret.
Qed.

Lemma grows_invoke_all cs : grows (length cs) (invoke_all cs).
Proof.
  induction cs as [|c cs IH]; simpl.
  - apply grows_ret.
  - apply (grows_bind _ _ 1 (length cs)); [apply grows_invoke|].
    intros _. apply IH.
Qed.
End ResourceCount.

(** X14: [Resource::instance_count()] is the number of live resources.
    From a store where the static count is the number of live [Resource]
    objects, with room below 2^31 for one more resource per call: after
    any sequence of [create_shared_resource], shared-pointer copies, moves
    and destructions, [share_resource] and [use_count] that runs,
    [instance_count()] returns the number of live [Resource] objects, and
    that number grew by at most the number of calls. *)
Theorem instance_count_counts_live_resources
    (w w' : Resource.world) (cs : list Resource.call) :
  Resource.exact w →
  (Z.of_nat (base.size (Resource.resources w)) + Z.of_nat (length cs) < 2 ^ 31)%Z →
  Resource.invoke_all cs w = Some (tt, w') →
  Resource.instance_count w' =
    Some (Z.of_nat (base.size (Resource.resources w')), w') ∧
  base.size (Resource.resources w') ≤
    base.size (Resource.resources w) + length cs.
Proof.
  intros He Hroom Hrun.
  destruct (grows_invoke_all cs w tt w' Hrun He Hroom) as [He' Hs].
  split; [|done]. unfold Resource.instance_count, gets. by rewrite He'.
Qed.

(** From the empty store: a resource made and shared, its first owners
    dropped, and a second resource made; two resources are alive. *)
Lemma instance_count_counts_live_resources_witness :
  ∃ w',
    Resource.invoke_all
      [Resource.Create 7; Resource.Copy 0; Resource.Share 0 3;
       Resource.Drop 0; Resource.Move 1; Resource.Drop 1;
       Resource.UseCount 3; Resource.Create 9]
      Resource.initial = Some (tt, w') ∧
    Resource.instance_count w' = Some (2%Z, w').
Proof.
  assert (∃ w',
    Resource.invoke_all
      [Resource.Create 7; Resource.Copy 0; Resource.Share 0 3;
       Resource.Drop 0; Resource.Move 1; Resource.Drop 1;
       Resource.UseCount 3; Resource.Create 9]
      Resource.initial = Some (tt, w') ∧
    base.size (Resource.resources w') = 2) as (w' & Hrun & Hsize).
  { eexists. split; [vm_compute; reflexivity|]. reflexivity. }
  assert (Resource.exact Resource.initial) as He by reflexivity.
  destruct (instance_count_counts_live_resources Resource.initial w'
              [Resource.Create 7; Resource.Copy 0; Resource.Share 0 3;
               Resource.Drop 0; Resource.Move 1; Resource.Drop 1;
               Resource.UseCount 3; Resource.Create 9] He)
    as [Hcount _]; [|exact Hrun|].
  - vm_compute. reflexivity.
  - exists w'. split; [done|]. by rewrite Hcount, Hsize.
Defined.

(** ** is_prime and primes_up_to (hello_lib.cc) *)

Section PrimeFacts.
Import Hello.

Lemma uint64_small (z : Z) : (0 ≤ z < 2 ^ 64)%Z → uint64 z = z.
Proof. intros Hz. unfold uint64. by apply Z.mod_small. Qed.

Lemma odd_next (i j : Z) :
  Z.odd i = true → Z.odd j = true → (i ≤ j)%Z → i = j ∨ (i + 2 ≤ j)%Z.
Proof.
  intros Hi Hj Hle.
  apply Z.odd_spec in Hi as [a ->]. apply Z.odd_spec in Hj as [b ->]. lia.
Qed.

Lemma is_prime_loop_spec (n limit : Z) :
  (limit < 2 ^ 64 - 1)%Z →
  ∀ (fuel : nat) (i : Z),
    (3 ≤ i)%Z → Z.odd i = true →
    (limit - i + 4 ≤ 2 * Z.of_nat fuel)%Z → 1 ≤ fuel →
    ∃ b, is_prime_loop fuel n limit i = Some b ∧
         (b = true ↔
          ∀ j, (i ≤ j ≤ limit)%Z → Z.odd j = true → (n mod j)%Z ≠ 0%Z).
Proof.
  intros Hlimit. induction fuel as [|k IH]; intros i Hi Hodd Hfuel Hpos; [lia|].
  simpl. destruct (decide (i ≤ limit)%Z) as [Hle|Hgt].
  - destruct (decide (n mod i = 0)%Z) as [Hdiv|Hndiv].
    + exists false. split; [done|]. split; [done|].
      intros Hall. destruct (Hall i); [lia|done|done].
    + assert (i + 2 < 2 ^ 64)%Z as Hnowrap.
      { apply Z.odd_spec in Hodd as [a ->]. lia. }
      rewrite uint64_small by lia.
      destruct (IH (i + 2)%Z) as (b & Hrun & Hb); [lia| |lia|lia|].
      { rewrite Z.odd_add. by rewrite Hodd. }
      exists b. split; [done|]. rewrite Hb. split.
      * intros Hall j Hj Hjodd.
        destruct (odd_next i j Hodd Hjodd) as [<-|Hnext]; [lia|done|].
        apply Hall; [lia|done].
      * intros Hall j Hj. apply Hall. lia.
  - exists true. split; [done|]. split; [|done]. intros _ j Hj. lia.
Qed.

Lemma prime_by_trial (n limit : Z) :
  (3 ≤ n)%Z → Z.odd n = true → (Z.sqrt n ≤ limit < n)%Z →
  (∀ j, (3 ≤ j ≤ limit)%Z → Z.odd j = true → (n mod j)%Z ≠ 0%Z) ↔
  Z.prime n.
Proof.
  intros Hn Hodd Hlimit. split.
  - intros Hall. split; [lia|]. intros d Hd [k Hk].
    assert (Z.odd k = true ∧ Z.odd d = true) as [Hko Hdo].
    { rewrite Hk, Z.odd_mul in Hodd. by apply andb_true_iff in Hodd. }
    assert (1 < k)%Z as Hk1 by nia.
    assert (∀ a b, n = (a * b)%Z → (1 < a ≤ b)%Z → Z.odd a = true → False)
      as Hsmall.
    { intros a b Hab Ha Hao. apply (Hall a).
      - split.
        + apply Z.odd_spec in Hao as [c ->]. lia.
        + etrans; [|apply Hlimit]. apply Z.sqrt_le_square; [lia|lia|nia].
      - done.
      - rewrite Hab, Z.mul_comm. apply Z_mod_mult. }
    destruct (decide (k ≤ d)%Z).
    + by apply (Hsmall k d).
    + apply (Hsmall d k); [lia|lia|done].
  - intros [_ Hp] j Hj Hjo Hdiv. destruct (Hp j); [lia|].
    apply Z.mod_divide; [lia|done].
Qed.

Lemma is_prime_correct (n : Z) :
  (0 ≤ n < 2 ^ 64)%Z →
  ((3 ≤ n)%Z → (n mod 2)%Z ≠ 0%Z → sqrt_accurate n = true) →
  ∃ b, is_prime n = Some b ∧ (b = true ↔ Z.prime n).
Proof.
  intros Hn Hacc. unfold is_prime.
  destruct (decide (n < 2)%Z) as [Hlt|Hge].
  { exists false. split; [done|]. split; [done|].
    intros [Hp _]. lia. }
  destruct (decide (n = 2)%Z) as [->|Hne].
  { exists true. split; [done|]. split; [|done]. intros _.
    apply Z.prime_2. }
  destruct (decide (n mod 2 = 0)%Z) as [Heven|Hodd].
  { exists false. split; [done|]. split; [done|]. intros Hp.
    destruct Hp as [_ Hp]. destruct (Hp 2%Z); [lia|].
    apply Z.mod_divide; [lia|done]. }
  assert (Z.odd n = true) as Ho.
  { rewrite Zodd_mod. apply Z.eqb_eq.
    pose proof (Z.mod_pos_bound n 2). lia. }
  specialize (Hacc ltac:(lia) Hodd). unfold sqrt_accurate in Hacc.
  destruct (sqrt_limit n) as [limit|]; [|done].
  apply bool_decide_eq_true in Hacc.
  pose proof (Z.sqrt_nonneg n) as Hsq.
  destruct (is_prime_loop_spec n limit ltac:(lia) (S (Z.to_nat limit)) 3%Z)
    as (b & Hrun & Hb); [lia|done|lia|lia|].
  exists b. split; [done|]. rewrite Hb. by apply prime_by_trial; [lia|..].
Qed.
End PrimeFacts.

Section PrimesUpTo.
Import Hello.

Lemma primes_loop_spec (n : Z) :
  (0 ≤ n < 2 ^ 64 - 1)%Z →
  (∀ i, (3 ≤ i ≤ n)%Z → sqrt_accurate i = true) →
  ∀ (fuel : nat) (i : Z) (primes : list Z),
    (2 ≤ i)%Z → (n - i + 2 ≤ Z.of_nat fuel)%Z → 1 ≤ fuel →
    ∃ found,
      primes_loop fuel n i primes = Some (primes ++ found) ∧
      (∀ p, p ∈ found ↔ (i ≤ p ≤ n)%Z ∧ Z.prime p) ∧
      Sorted.StronglySorted Z.lt found.
Proof.
  intros Hn Hacc. induction fuel as [|k IH]; intros i primes Hi Hfuel Hpos; [lia|].
  simpl. destruct (decide (i ≤ n)%Z) as [Hle|Hgt].
  - destruct (is_prime_correct i) as (b & -> & Hb); [lia|intros; apply Hacc; lia|].
    rewrite uint64_small by lia.
    destruct (IH (i + 1)%Z (if b then primes ++ [i] else primes))
      as (found & Hrun & Hin & Hsorted); [lia|lia|lia|].
    rewrite Hrun. destruct b.
    + exists (i :: found). split; [by rewrite <- app_assoc|]. split.
      * intros p. rewrite elem_of_cons, Hin. split.
        -- intros [->|[Hp Hpp]]; [|split; [lia|done]].
           split; [lia|]. by apply Hb.
        -- intros [Hp Hpp]. destruct (decide (p = i)); [by left|right].
           split; [lia|done].
      * constructor; [done|]. apply Forall_forall. intros p Hp.
        apply Hin in Hp. lia.
    + exists found. split; [done|]. split; [|done].
      intros p. rewrite Hin. split.
      * intros [Hp Hpp]. split; [lia|done].
      * intros [Hp Hpp]. split; [|done].
        destruct (decide (p = i)) as [->|]; [|lia].
        apply Hb in Hpp. done.
  - exists []. split; [by rewrite app_nil_r|]. split; [|constructor].
    intros p. split; [by intros ?%elem_of_nil|]. intros [Hp _]. lia.
Qed.

Lemma sqrt_accurate_upto (n : nat) :
  forallb sqrt_accurate (map (fun k => Z.of_nat (3 + k)) (seq 0 n)) = true →
  ∀ i, (3 ≤ i < 3 + Z.of_nat n)%Z → sqrt_accurate i = true.
Proof.
  intros Hall i Hi. rewrite forallb_forall in Hall. apply Hall.
  apply in_map_iff. exists (Z.to_nat (i - 3)). split; [lia|].
  apply in_seq. lia.
Qed.
End PrimesUpTo.

(** X15: [is_prime] decides primality.  For [n] below 2^64, and, when [n]
    is odd and at least 3, the square root taken in [double] and cut to
    [uint64_t] being not below the integer square root of [n] and below
    [n]: [is_prime(n)] returns, and returns true exactly when [n] is
    prime. *)
Theorem is_prime_decides_primality (n : Z) :
  (0 ≤ n < 2 ^ 64)%Z →
  ((3 ≤ n)%Z → (n mod 2)%Z ≠ 0%Z → Hello.sqrt_accurate n = true) →
  ∃ b, Hello.is_prime n = Some b ∧ (b = true ↔ Z.prime n).
Proof. apply is_prime_correct. Qed.

(** At (2^26 + 1)^2 - 1 the root taken in [double] is one above the
    integer root, which the hypothesis allows.  Running [is_prime] shows
    97 prime and 91 composite. *)
Lemma is_prime_decides_primality_witness :
  Hello.sqrt_limit 4503599761588224 = Some 67108865%Z ∧
  Z.sqrt 4503599761588224 = 67108864%Z ∧
  Z.prime 97 ∧ ¬ Z.prime 91.
Proof.
  split; [by vm_compute|]. split; [by vm_compute|]. split.
  - destruct (is_prime_decides_primality 97) as (b & Hrun & Hb).
    + lia.
    + intros _ _. by vm_compute.
    + apply Hb. vm_compute in Hrun. by injection Hrun as <-.
  - destruct (is_prime_decides_primality 91) as (b & Hrun & Hb).
    + lia.
    + intros _ _. by vm_compute.
    + intros Hp. apply Hb in Hp. vm_compute in Hrun. congruence.
Defined.

(** X16: [primes_up_to] lists the primes up to [n] in increasing order.
    For [n] below 2^64 - 1, the square root in [double] being accurate as
    in X15 for every number from 3 to [n]: [primes_up_to(n)] returns, a
    number is in the result exactly when it is prime and at most [n], and
    the result is strictly increasing. *)
Theorem primes_up_to_lists_the_primes (n : Z) :
  (0 ≤ n < 2 ^ 64 - 1)%Z →
  (∀ i, (3 ≤ i ≤ n)%Z → Hello.sqrt_accurate i = true) →
  ∃ primes,
    Hello.primes_up_to n = Some primes ∧
    (∀ p, p ∈ primes ↔ Z.prime p ∧ (p ≤ n)%Z) ∧
    Sorted.StronglySorted Z.lt primes.
Proof.
  intros Hn Hacc.
  destruct (primes_loop_spec n Hn Hacc (S (Z.to_nat n)) 2%Z [])
    as (found & Hrun & Hin & Hsorted); [lia|lia|lia|].
  exists found. split; [done|]. split; [|done].
  intros p. rewrite Hin. split.
  - intros [Hp Hpp]. split; [done|lia].
  - intros [[Hp1 Hpp] Hp]. split; [lia|]. by split.
Qed.

(** The primes up to 20, as the test of the library expects them. *)
Lemma primes_up_to_lists_the_primes_witness :
  Hello.primes_up_to 20 = Some [2; 3; 5; 7; 11; 13; 17; 19]%Z ∧
  ∀ p, Z.prime p ∧ (p ≤ 20)%Z → p ∈ [2; 3; 5; 7; 11; 13; 17; 19]%Z.
Proof.
  destruct (primes_up_to_lists_the_primes 20) as (primes & Hrun & Hin & _).
  - lia.
  - intros i Hi. apply (sqrt_accurate_upto 18); [by vm_compute|lia].
  - vm_compute in Hrun. injection Hrun as <-. split; [by vm_compute|].
    intros p Hp. by apply Hin.
Defined.
